(** * Portfolio dashboard: risk_portefeuille.py and app_portefeuille.py

    A shallow embedding of the quantitative core of the two modules:
    the price-history provider, returns and volatility, historical VaR,
    the correlation matrix, the fixed-rate and the Monte Carlo
    projection, the holdings parser, the figures and the synthesis of
    the positions and the styling of a cell, followed by the properties
    of the specification and by further properties of the code.

    Numbers.  The program computes on IEEE-754 binary64 values (Python
    [float], numpy [float64]).  The embedding is written once over an
    interface [PyNum] of the operations the source uses and is read at
    two instances: [float] (Rocq's primitive binary64 floats, the
    arithmetic of the program) and [xq] (exact rationals with a NaN,
    the arithmetic of the mathematical statements).

    Libraries.  pandas, numpy and yfinance are not part of the
    repository.  Their operations are embedded from their documented
    behaviour (pandas 1.x/2.x, numpy >= 1.22); each such definition says
    which call it stands for. *)

From Stdlib Require Import ZArith QArith Qcanon Qround Lqa Floats.
From Stdlib Require Import List String Ascii Bool Lia Sorted Permutation.
Import ListNotations.

Set Warnings "-inexact-float".
Set Implicit Arguments.

(* ================================================================= *)
(** * Numbers *)

(** The operations of Python/numpy floats that the two modules use. *)
Class PyNum (F : Type) : Type := {
  nan       : F;
  of_Z      : Z -> F;              (* int -> float conversion *)
  add       : F -> F -> F;
  sub       : F -> F -> F;
  mul       : F -> F -> F;
  div       : F -> F -> F;         (* numpy/pandas true division: no exception *)
  neg       : F -> F;
  fsqrt     : F -> F;              (* np.sqrt *)
  rint      : F -> F;              (* np.rint: nearest integer, ties to even *)
  floor     : F -> option Z;       (* np.floor of a finite value *)
  isnan     : F -> bool;           (* np.isnan *)
  isfinite  : F -> bool;           (* np.isfinite *)
  signbit   : F -> bool;           (* np.signbit of a value that is not NaN *)
  eqb       : F -> F -> bool;      (* == *)
  ltb       : F -> F -> bool;      (* <  *)
  leb       : F -> F -> bool       (* <= *)
}.

Declare Scope num_scope.
Delimit Scope num_scope with num.
Infix "+" := add : num_scope.
Infix "-" := sub : num_scope.
Infix "*" := mul : num_scope.
Infix "/" := div : num_scope.
Notation "- x" := (neg x) : num_scope.

(** A decimal literal [n/d] of the source, e.g. [0.95] is [lit 95 100]. *)
Definition lit {F} `{PyNum F} (n d : Z) : F := div (of_Z n) (of_Z d).

(* ----------------------------------------------------------------- *)
(** ** binary64 *)

Module F64.
Open Scope float_scope.

Definition two52 : float := 4503599627370496.

Definition of_pos (p : positive) : float := of_uint63 (Uint63.of_Z (Zpos p)).

(** Conversion of an integer below 2^63 in magnitude (one rounding). *)
Definition of_Z (z : Z) : float :=
  match z with
  | Z0 => 0
  | Zpos p => of_pos p
  | Zneg p => - of_pos p
  end.

(** Nearest integer with ties to even, by the 2^52 shift. *)
Definition rint (x : float) : float :=
  if x =? 0 then x
  else if abs x <? two52 then
    if x <? 0 then - ((- x + two52) - two52) else (x + two52) - two52
  else x.

(** Floor of a finite value as an integer. *)
Definition floor (x : float) : option Z :=
  match Prim2SF x with
  | S754_zero _ => Some 0%Z
  | S754_finite s m e =>
      let v := if s then Zneg m else Zpos m in
      Some (if (0 <=? e)%Z then (v * 2 ^ e)%Z else (v / 2 ^ (- e))%Z)
  | _ => None
  end.

Close Scope float_scope.
End F64.

#[export] Instance float_num : PyNum float := {
  nan := PrimFloat.nan;
  of_Z := F64.of_Z;
  add := PrimFloat.add;
  sub := PrimFloat.sub;
  mul := PrimFloat.mul;
  div := PrimFloat.div;
  neg := PrimFloat.opp;
  fsqrt := PrimFloat.sqrt;
  rint := F64.rint;
  floor := F64.floor;
  isnan := PrimFloat.is_nan;
  isfinite := PrimFloat.is_finite;
  signbit := PrimFloat.get_sign;
  eqb := PrimFloat.eqb;
  ltb := PrimFloat.ltb;
  leb := PrimFloat.leb
}.

(* ----------------------------------------------------------------- *)
(** ** Exact rationals with a NaN *)

(** [None] is NaN.  There are no infinities: a division by zero gives
    NaN.  A square root is a value only when it is rational. *)
Definition xq : Type := option Qc.

Module XQ.
Open Scope Qc_scope.

Definition lift2 (f : Qc -> Qc -> Qc) (x y : xq) : xq :=
  match x, y with
  | Some a, Some b => Some (f a b)
  | _, _ => None
  end.

Definition cmp2 (f : Qc -> Qc -> bool) (x y : xq) : bool :=
  match x, y with
  | Some a, Some b => f a b
  | _, _ => false
  end.

Definition div (x y : xq) : xq :=
  match x, y with
  | Some a, Some b => if Qc_eq_dec b 0 then None else Some (a / b)
  | _, _ => None
  end.

Definition Qc_leb (a b : Qc) : bool := Qle_bool a b.
Definition Qc_ltb (a b : Qc) : bool := negb (Qle_bool b a).
Definition Qc_eqb (a b : Qc) : bool := Qeq_bool a b.

Definition of_Z (z : Z) : xq := Some (Q2Qc (inject_Z z)).

(** Integer square root when the argument is the square of a rational. *)
Definition sqrt (x : xq) : xq :=
  match x with
  | Some a =>
      let n := Qnum a in
      let d := Zpos (Qden a) in
      let rn := Z.sqrt n in
      let rd := Z.sqrt d in
      if ((0 <=? n) && (rn * rn =? n) && (rd * rd =? d))%Z
      then Some (Q2Qc (rn # Z.to_pos rd)) else None
  | None => None
  end.

Definition rint (x : xq) : xq :=
  match x with
  | Some a =>
      let f := Qfloor a in
      let r := (a - Q2Qc (inject_Z f)) in
      let half := Q2Qc (1 # 2) in
      if Qc_ltb r half then Some (Q2Qc (inject_Z f))
      else if Qc_ltb half r then Some (Q2Qc (inject_Z (f + 1)))
      else Some (Q2Qc (inject_Z (if Z.even f then f else (f + 1)%Z)))
  | None => None
  end.

Definition floor (x : xq) : option Z := option_map (fun a : Qc => Qfloor a) x.

Definition isnan (x : xq) : bool :=
  match x with None => true | Some _ => false end.

Close Scope Qc_scope.
End XQ.

#[export] Instance xq_num : PyNum xq := {
  nan := None;
  of_Z := XQ.of_Z;
  add := XQ.lift2 Qcplus;
  sub := XQ.lift2 Qcminus;
  mul := XQ.lift2 Qcmult;
  div := XQ.div;
  neg := option_map Qcopp;
  fsqrt := XQ.sqrt;
  rint := XQ.rint;
  floor := XQ.floor;
  isnan := XQ.isnan;
  isfinite := fun x => negb (XQ.isnan x);
  signbit := fun x => XQ.cmp2 XQ.Qc_ltb x (XQ.of_Z 0);
  eqb := XQ.cmp2 XQ.Qc_eqb;
  ltb := XQ.cmp2 XQ.Qc_ltb;
  leb := XQ.cmp2 XQ.Qc_leb
}.

(* ================================================================= *)
(** * Python results *)

Inductive exn : Type :=
| IndexError      (* list index out of range, np.percentile of an empty array *)
| ValueError      (* float() of a malformed field, percentile outside [0, 100],
                     a negative scale of np.random.normal *)
| KeyError        (* a column label that the frame does not have *)
| OverflowError.  (* float ** int out of range *)

Inductive result (A : Type) : Type :=
| Ok (a : A)
| Raise (e : exn).
Arguments Ok {A} a.
Arguments Raise {A} e.

Definition rbind {A B} (r : result A) (k : A -> result B) : result B :=
  match r with
  | Ok a => k a
  | Raise e => Raise e
  end.

Fixpoint rmap {A B} (f : A -> result B) (l : list A) : result (list B) :=
  match l with
  | [] => Ok []
  | x :: l' => rbind (f x) (fun y => rbind (rmap f l') (fun ys => Ok (y :: ys)))
  end.

(** [l[i]] on a Python list. *)
Definition py_index {A} (l : list A) (i : nat) : result A :=
  match nth_error l i with
  | Some x => Ok x
  | None => Raise IndexError
  end.

(** A [dict]: insertion ordered; assigning to a present key keeps its place. *)
Fixpoint dict_set {V} (d : list (string * V)) (k : string) (v : V) : list (string * V) :=
  match d with
  | [] => [(k, v)]
  | (k', v') :: d' =>
      if String.eqb k' k then (k', v) :: d' else (k', v') :: dict_set d' k v
  end.

Fixpoint dict_get {V} (d : list (string * V)) (k : string) : option V :=
  match d with
  | [] => None
  | (k', v) :: d' => if String.eqb k' k then Some v else dict_get d' k
  end.

Definition mem_str (k : string) (l : list string) : bool :=
  existsb (String.eqb k) l.

(* ================================================================= *)
(** * pandas and numpy operations used by the source *)

Definition Date : Type := Z.

Section Frames.
Context {F : Type} `{PyNum F}.
Local Open Scope num_scope.

(** A Series with a date index (a ['Close'] history), in index order. *)
Definition History : Type := list (Date * F).

(** A Series indexed by ticker (weights, volatilities), in index order. *)
Definition TSeries : Type := list (string * F).

(** A DataFrame with a date index, stored by column as pandas does;
    every column has one value per index entry. *)
Record DataFrame : Type := {
  df_index : list Date;
  df_cols  : list (string * list F)
}.

Definition columns (df : DataFrame) : list string := map fst (df_cols df).

(** [DataFrame.empty]: some axis has length zero. *)
Definition df_empty (df : DataFrame) : bool :=
  match df_index df, df_cols df with
  | [], _ => true
  | _, [] => true
  | _, _ => false
  end.

(** Sum of a float array in index order.  numpy adds long arrays
    pairwise and BLAS in blocks; the order only moves roundings. *)
Definition fsum (l : list F) : F := fold_left add l (of_Z 0).

(** [Series.sum()]: [skipna=True], the NaN entries are left out and the
    sum of no entry is 0. *)
Definition nansum (l : list F) : F :=
  fold_left (fun acc x => if isnan x then acc else acc + x) l (of_Z 0).

Definition count_valid (l : list F) : nat :=
  List.length (filter (fun x => negb (isnan x)) l).

(** [Series.mean()]: mean of the entries that are not NaN. *)
Definition nanmean (l : list F) : F :=
  nansum l / of_Z (Z.of_nat (count_valid l)).

(** [Series.std()]: sample standard deviation ([ddof=1]) of the entries
    that are not NaN; NaN with fewer than two of them. *)
Definition nanstd (l : list F) : F :=
  let n := count_valid l in
  if (n <=? 1)%nat then nan
  else
    let avg := nansum l / of_Z (Z.of_nat n) in
    let sqr := map (fun x => if isnan x then of_Z 0
                             else (avg - x) * (avg - x)) l in
    fsqrt (fsum sqr / of_Z (Z.of_nat n - 1)).

(** [np.round(x, 2)] / [Series.round(2)]: scale, [rint], unscale. *)
Definition round2 (x : F) : F := rint (x * of_Z 100) / of_Z 100.

(* --------------------------------------------------------------- *)
(** ** Building the price frame *)

Fixpoint insert_date (d : Date) (l : list Date) : list Date :=
  match l with
  | [] => [d]
  | x :: l' =>
      if (d <? x)%Z then d :: x :: l'
      else if (d =? x)%Z then x :: l'
      else x :: insert_date d l'
  end.

(** The ascending union of two indexes, no date twice. *)
Definition sorted_union (a b : list Date) : list Date :=
  fold_left (fun acc d => insert_date d acc) (a ++ b) [].

(** [Index.equals]. *)
Fixpoint dates_eqb (a b : list Date) : bool :=
  match a, b with
  | [], [] => true
  | x :: a', y :: b' => (x =? y)%Z && dates_eqb a' b'
  | _, _ => false
  end.

(** [a.union(b)] on two DatetimeIndex: [a] itself when [b] is empty or
    equal to [a], [b] when [a] is empty, and otherwise the ascending
    union of the two. *)
Definition index_union (a b : list Date) : list Date :=
  match a, b with
  | _, [] => a
  | [], _ => b
  | _, _ => if dates_eqb a b then a else sorted_union a b
  end.

(** pandas' [union_indexes] on the indexes of the Series of a dict: the
    first index, united with each of the others in turn.  A single
    Series, or Series that all carry the same index, keep that index as
    it is, in its order. *)
Definition union_index (hs : list History) : list Date :=
  match hs with
  | [] => []
  | h :: rest => fold_left (fun acc h' => index_union acc (map fst h')) rest (map fst h)
  end.

Fixpoint lookup_date (d : Date) (h : History) : F :=
  match h with
  | [] => nan
  | (d', v) :: h' => if (d' =? d)%Z then v else lookup_date d h'
  end.

(** [Series.reindex(index)]: the Series as it is when [index] is its
    own, otherwise the value at each date, NaN where absent. *)
Definition reindex (idx : list Date) (h : History) : list F :=
  if dates_eqb idx (map fst h) then map snd h
  else map (fun d => lookup_date d h) idx.

(** [pd.DataFrame(price_hist)] for a dict of Series: columns in dict
    order, aligned on the union of their indexes.  (A Series with a
    repeated date and an index that differs from the union makes pandas
    raise; yfinance returns each date once, in ascending order.) *)
Definition frame_of_dict (d : list (string * History)) : DataFrame :=
  let idx := union_index (map snd d) in
  {| df_index := idx;
     df_cols := map (fun kv => (fst kv, reindex idx (snd kv))) d |}.

(** [df.dropna(axis=1, how='all')]: a column stays when it counts at
    least one value that is not NaN. *)
Definition dropna_cols_all (df : DataFrame) : DataFrame :=
  {| df_index := df_index df;
     df_cols := filter (fun c => (0 <? count_valid (snd c))%nat) (df_cols df) |}.
End Frames.

Arguments History F : clear implicits.
Arguments TSeries F : clear implicits.
Arguments DataFrame F : clear implicits.

Section Returns.
Context {F : Type} `{PyNum F}.
Local Open Scope num_scope.

Fixpoint map2 {A B C} (f : A -> B -> C) (l : list A) (l' : list B) : list C :=
  match l, l' with
  | x :: t, y :: t' => f x y :: map2 f t t'
  | _, _ => []
  end.

(** [ffill]: a NaN takes the last value seen before it. *)
Fixpoint ffill_from (last : F) (l : list F) : list F :=
  match l with
  | [] => []
  | x :: l' =>
      if isnan x then last :: ffill_from last l' else x :: ffill_from x l'
  end.

(** [pct_change()] on one column (pandas 1.x/2.x, [fill_method='pad']):
    [data / data.shift(1) - 1] on the forward-filled data. *)
Definition pct_change_col (l : list F) : list F :=
  match ffill_from nan l with
  | [] => []
  | x :: t => nan :: map2 (fun prev cur => cur / prev - of_Z 1) (x :: t) t
  end.

Definition pct_change (df : DataFrame F) : DataFrame F :=
  {| df_index := df_index df;
     df_cols := map (fun c => (fst c, pct_change_col (snd c))) (df_cols df) |}.

(** The values of row [i]. *)
Definition row_at (cols : list (string * list F)) (i : nat) : list F :=
  map (fun c => nth i (snd c) nan) cols.

Fixpoint keep {A} (m : list bool) (l : list A) : list A :=
  match m, l with
  | b :: m', x :: l' => if b then x :: keep m' l' else keep m' l'
  | _, _ => []
  end.

(** [df.dropna()]: a row stays when none of its values is NaN. *)
Definition dropna_rows (df : DataFrame F) : DataFrame F :=
  let m := map (fun i => forallb (fun x => negb (isnan x)) (row_at (df_cols df) i))
               (seq 0 (List.length (df_index df))) in
  {| df_index := keep m (df_index df);
     df_cols := map (fun c => (fst c, keep m (snd c))) (df_cols df) |}.

(** [df[labels]]: the named columns, in the order of [labels]. *)
Definition select (df : DataFrame F) (labels : list string) : result (DataFrame F) :=
  rbind (rmap (fun k => match dict_get (df_cols df) k with
                        | Some c => Ok (k, c)
                        | None => Raise KeyError
                        end) labels)
        (fun cs => Ok {| df_index := df_index df; df_cols := cs |}).

(** [df.dot(w)] for a frame whose columns carry the labels of [w], in
    the same order: one sum of products per row. *)
Definition dot (df : DataFrame F) (w : TSeries F) : list F :=
  map (fun i => fsum (map2 mul (row_at (df_cols df) i) (map snd w)))
      (seq 0 (List.length (df_index df))).

(** [df.std()]: one sample standard deviation per column. *)
Definition df_std (df : DataFrame F) : TSeries F :=
  map (fun c => (fst c, nanstd (snd c))) (df_cols df).

(* --------------------------------------------------------------- *)
(** ** np.percentile, method 'linear' *)

(** Order of np.sort / np.partition: ascending, the NaN last. *)
Definition le_nan_last (x y : F) : bool :=
  if isnan y then true else if isnan x then false else leb x y.

Fixpoint insert_sorted (x : F) (l : list F) : list F :=
  match l with
  | [] => [x]
  | y :: l' => if le_nan_last x y then x :: y :: l' else y :: insert_sorted x l'
  end.

Definition np_sort (l : list F) : list F := fold_right insert_sorted [] l.

(** numpy's [_lerp]. *)
Definition lerp (a b t : F) : F :=
  let d := b - a in
  if leb (lit 1 2) t then b - d * (of_Z 1 - t) else a + d * t.

(** [arr[i]] with Python's negative indices, for a position of the
    array. *)
Definition py_nth (s : list F) (i : Z) : F :=
  nth (Z.to_nat (if (i <? 0)%Z then Z.of_nat (List.length s) + i else i)) s nan.

(** numpy's [_quantile] on a non-empty array, at the fraction [q] in
    [0, 1]: an array that holds a NaN gives NaN; otherwise the two order
    statistics around the virtual index [(n - 1) * q] are interpolated.
    As in [_get_indexes], a virtual index at or above [n - 1] takes the
    last element twice (index [-1]) and one below 0 the first. *)
Definition quantile_linear (a : list F) (q : F) : F :=
  let n := Z.of_nat (List.length a) in
  let s := np_sort a in
  if isnan (py_nth s (-1)) then py_nth s (-1)
  else
    let virt := of_Z (n - 1) * q in
    match floor virt with
    | None => nan
    | Some k =>
        let previous := if leb (of_Z (n - 1)) virt then (-1)%Z
                        else if ltb virt (of_Z 0) then 0%Z else k in
        let next := if leb (of_Z (n - 1)) virt then (-1)%Z
                    else if ltb virt (of_Z 0) then 0%Z else (k + 1)%Z in
        let gamma := virt - of_Z previous in
        lerp (py_nth s previous) (py_nth s next) gamma
    end.

(** [np.percentile(a, q)]: [q] must lie in [0, 100]; an empty [a] has
    no last element to read. *)
Definition np_percentile (a : list F) (q : F) : result F :=
  let q' := q / of_Z 100 in
  if negb (leb (of_Z 0) q' && leb q' (of_Z 1)) then Raise ValueError
  else
    match a with
    | [] => Raise IndexError
    | _ :: _ => Ok (quantile_linear a q')
    end.

(** [np.median] of a list: the middle of the sorted values, the mean of
    the two middle ones for an even length; NaN when the list holds a
    NaN or is empty. *)
Definition np_median (a : list F) : F :=
  let s := np_sort a in
  let n := List.length a in
  if isnan (py_nth s (-1)) then nan
  else if Nat.even n
       then (nth (n / 2 - 1) s nan + nth (n / 2) s nan) / of_Z 2
       else nth (n / 2) s nan.

(* --------------------------------------------------------------- *)
(** ** DataFrame.corr(), Pearson *)

(** Running state of pandas' [nancorr] for one pair of columns. *)
Record welford : Type := {
  nobs : Z; meanx : F; meany : F; ssqdm_x : F; ssqdm_y : F; covxy : F
}.

Definition welford0 : welford :=
  {| nobs := 0; meanx := of_Z 0; meany := of_Z 0;
     ssqdm_x := of_Z 0; ssqdm_y := of_Z 0; covxy := of_Z 0 |}.

Definition welford_step (st : welford) (v : F * F) : welford :=
  let (vx, vy) := v in
  if isfinite vx && isfinite vy then
    let n := (nobs st + 1)%Z in
    let dx := vx - meanx st in
    let dy := vy - meany st in
    let mx := meanx st + of_Z 1 / of_Z n * dx in
    let my := meany st + of_Z 1 / of_Z n * dy in
    {| nobs := n; meanx := mx; meany := my;
       ssqdm_x := ssqdm_x st + (vx - mx) * dx;
       ssqdm_y := ssqdm_y st + (vy - my) * dy;
       covxy := covxy st + (vx - mx) * dy |}
  else st.

(** The coefficient kept within [-1, 1], as recent pandas versions do
    before storing it. *)
Definition clip1 (v : F) : F :=
  if ltb (of_Z 1) v then of_Z 1
  else if ltb v (of_Z (-1)) then of_Z (-1) else v.

(** One coefficient ([min_periods = 1]): NaN without an observation
    that is finite in both columns or with a zero divisor. *)
Definition corr_pair (x y : list F) : F :=
  let st := fold_left welford_step (combine x y) welford0 in
  if (nobs st <? 1)%Z then nan
  else
    let divisor := fsqrt (ssqdm_x st * ssqdm_y st) in
    if negb (eqb divisor (of_Z 0)) then clip1 (covxy st / divisor) else nan.

(** [nancorr] fills [result[xi, yi]] and [result[yi, xi]] with the one
    value computed for [yi <= xi]. *)
Definition corr_entry (cols : list (string * list F)) (i j : nat) : F :=
  let c k := snd (nth k cols (EmptyString, [])) in
  if (j <=? i)%nat then corr_pair (c i) (c j) else corr_pair (c j) (c i).

(** [df.corr()]: rows and columns labelled by the columns of [df]. *)
Definition df_corr (df : DataFrame F) : list (string * list F) :=
  let k := List.length (df_cols df) in
  map (fun i => (fst (nth i (df_cols df) (EmptyString, [])),
                 map (fun j => corr_entry (df_cols df) i j) (seq 0 k)))
      (seq 0 k).

(** [.round(2)] on a matrix. *)
Definition round2_matrix (m : list (string * list F)) : list (string * list F) :=
  map (fun r => (fst r, map round2 (snd r))) m.
End Returns.

(* ================================================================= *)
(** * risk_portefeuille.py *)

(** What a run shows and which computations it starts.  Texts are the
    ASCII part of the source's labels; a number formatted into a text
    ([{x:.2f}]) is carried as the number. *)
Inductive event (F : Type) : Type :=
| Print (text : string)                         (* print(...) *)
| StMarkdown (text : string) (nums : list F)    (* st.markdown, st.caption *)
| StWarning (text : string)                     (* st.warning *)
| StMetric (label : string) (value : F)         (* col.metric *)
| StCount (label : string) (n : nat)            (* col.metric of len(...) *)
| StTabs (labels : list string)                 (* st.tabs *)
| StTable (name : string)                       (* tables of the tabs 2 and 4 *)
| StCorrelation (m : list (string * list F))    (* st.dataframe(corr_matrix) *)
| StProjection (rows : list (nat * F))          (* st.dataframe(df_moy) *)
| StStochastic (rows : list (nat * (F * F * F))) (* st.dataframe(df_stoch):
                                                   median, 5 % and 95 % *)
| CalcVar (series : list F) (confidence : F)    (* a call of calc_var *)
| CalcCorr (cols : list string).                (* a call of DataFrame.corr *)
Arguments Print {F} text.
Arguments StMarkdown {F} text nums.
Arguments StWarning {F} text.
Arguments StMetric {F} label value.
Arguments StCount {F} label n.
Arguments StTabs {F} labels.
Arguments StTable {F} name.
Arguments StCorrelation {F} m.
Arguments StProjection {F} rows.
Arguments StStochastic {F} rows.
Arguments CalcVar {F} series confidence.
Arguments CalcCorr {F} cols.

(** A computation: the events so far, and a value or the exception that
    stopped it. *)
Definition M (F A : Type) : Type := (list (event F) * result A)%type.

Definition ret {F A} (a : A) : M F A := ([], Ok a).

Definition bind {F A B} (m : M F A) (k : A -> M F B) : M F B :=
  match m with
  | (t, Ok a) => let (t', r) := k a in (t ++ t', r)
  | (t, Raise e) => (t, Raise e)
  end.

Definition emit {F} (e : event F) : M F unit := ([e], Ok tt).

Definition lift {F A} (r : result A) : M F A := ([], r).

Notation "x <- m ;; k" := (bind m (fun x => k))
  (at level 61, m at next level, right associativity).
Notation "m ;;; k" := (bind m (fun _ => k))
  (at level 61, right associativity).

(** What [yf.Ticker(t).history(period)['Close']] does for a ticker. *)
Inductive fetch (F : Type) : Type :=
| FetchRaises                    (* any exception of the call *)
| FetchClose (h : History F).    (* a Series of closes, possibly empty *)
Arguments FetchRaises {F}.
Arguments FetchClose {F} h.

Definition LOOKBACK_DAYS : nat := 252.
Definition YEARS : list nat := [1; 5; 10; 20; 30]%nat.
Definition SIMULATIONS : nat := 1000.

Section Risk.
Context {F : Type} `{PyNum F}.
Variable yf_close : string -> fetch F.
(** What CPython's [float_pow] does with [x ** y], [y > 0], once the base
    [1.0] is set aside: its special cases for a NaN, infinite, zero or
    negative base, and otherwise C's [pow], which the C standard does
    not fix bit for bit, with OverflowError when [pow] reports a result
    out of range. *)
Variable libm_pow : F -> nat -> result F.
(** The standard normal draws behind the calls of [np.random.normal],
    in the order of the loops: [gauss y s k] is the draw of the year [k]
    of the simulation [s] for the horizon [y]. *)
Variable gauss : nat -> nat -> nat -> F.
Local Open Scope num_scope.

(** The loop of [get_price_history] over the remaining tickers. *)
Fixpoint fetch_loop (tickers : list string)
         (price_hist : list (string * History F)) (missing : list string)
  : M F (list (string * History F) * list string) :=
  match tickers with
  | [] => ret (price_hist, missing)
  | ticker :: rest =>
      match yf_close ticker with
      | FetchClose hist =>
          match hist with
          | _ :: _ => fetch_loop rest (dict_set price_hist ticker hist) missing
          | [] => fetch_loop rest price_hist (missing ++ [ticker])
          end
      | FetchRaises =>
          emit (Print ("Erreur pour " ++ ticker)) ;;;
          fetch_loop rest price_hist (missing ++ [ticker])
      end
  end.

Definition get_price_history (tickers : list string)
  : M F (DataFrame F * list string) :=
  r <- fetch_loop tickers [] [] ;;
  let df_prices := frame_of_dict (fst r) in
  ret (dropna_cols_all df_prices, snd r).

Definition calc_volatility (returns : DataFrame F) : TSeries F :=
  map (fun c => (fst c, snd c * fsqrt (of_Z 252))) (df_std returns).

Definition calc_var (series : list F) (confidence : F) : M F F :=
  emit (CalcVar series confidence) ;;;
  p <- lift (np_percentile series ((of_Z 1 - confidence) * of_Z 100)) ;;
  ret (- p).

Definition compute_portfolio_var (returns : DataFrame F) (weights : TSeries F)
           (confidence : F) : M F F :=
  sel <- lift (select returns (map fst weights)) ;;
  let portf_returns := dot sel weights in
  calc_var portf_returns confidence.

(** Python's [x ** y] for a float [x] and an int [y >= 0]: [1.0] when
    [y] is 0 and when [x] is [1.0], without calling [pow]. *)
Definition float_pow (x : F) (y : nat) : result F :=
  match y with
  | O => Ok (of_Z 1)
  | S _ => if eqb x (of_Z 1) then Ok (of_Z 1) else libm_pow x y
  end.

(** The fixed-rate table [proj_moy] of [show_projections], in the order
    of [YEARS]. *)
Definition proj_moy (valeur_actuelle rendement_annuel : F)
  : result (list (nat * F)) :=
  rmap (fun y =>
          rbind (float_pow (of_Z 1 + rendement_annuel / of_Z 100) y)
                (fun p => Ok (y, valeur_actuelle * p)))
       YEARS.

(** [np.random.normal(loc, scale)] from a standard draw [z]: numpy
    refuses a [scale] that is not NaN and has its sign bit set. *)
Definition np_random_normal (loc scale z : F) : result F :=
  if negb (isnan scale) && signbit scale then Raise ValueError
  else Ok (loc + scale * z).

(** One simulated path: [val *= 1 + np.random.normal(...)], [y] times. *)
Fixpoint sim_path (loc scale val : F) (y s : nat) (k n : nat) : result F :=
  match n with
  | O => Ok val
  | S n' =>
      rbind (np_random_normal loc scale (gauss y s k)) (fun d =>
      sim_path loc scale (val * (of_Z 1 + d)) y s (S k) n')
  end.

(** [sim_values] for the horizon [y]. *)
Definition sim_values (valeur_actuelle rendement_annuel volatilite_annuelle : F)
           (y : nat) : result (list F) :=
  rmap (fun s => sim_path (rendement_annuel / of_Z 100)
                          (volatilite_annuelle / of_Z 100)
                          valeur_actuelle y s 0 y)
       (seq 0 SIMULATIONS).

(** The Monte Carlo table [proj_stoch]: per horizon the median, the 5th
    and the 95th percentile of the simulated values. *)
Definition proj_stoch (valeur_actuelle rendement_annuel volatilite_annuelle : F)
  : result (list (nat * (F * F * F))) :=
  rmap (fun y =>
          rbind (sim_values valeur_actuelle rendement_annuel volatilite_annuelle y)
                (fun sims =>
          let mediane := np_median sims in
          rbind (np_percentile sims (of_Z 5)) (fun min5 =>
          rbind (np_percentile sims (of_Z 95)) (fun max95 =>
          Ok (y, (mediane, min5, max95))))))
       YEARS.

(** [show_projections]: each table is shown once it is computed. *)
Definition show_projections (valeur_actuelle rendement_annuel volatilite_annuelle : F)
  : M F unit :=
  emit (StMarkdown "Projections du Portefeuille" []) ;;;
  emit (StMarkdown "Valeur actuelle" [valeur_actuelle]) ;;;
  emit (StMarkdown "Rendement annuel moyen, Volatilite"
                   [rendement_annuel; volatilite_annuelle]) ;;;
  emit (StMarkdown "Projection moyenne (rendement fixe)" []) ;;;
  df_moy <- lift (proj_moy valeur_actuelle rendement_annuel) ;;
  emit (StProjection df_moy) ;;;
  emit (StMarkdown "Projection stochastique (Monte Carlo)" []) ;;;
  df_stoch <- lift (proj_stoch valeur_actuelle rendement_annuel
                               volatilite_annuelle) ;;
  emit (StStochastic df_stoch) ;;;
  emit (StMarkdown "Les projections stochastiques indiquent la mediane et l'intervalle 5-95 % des valeurs possibles." []).

(** The rows of [df_portfolio] whose ticker is a column of [returns],
    indexed by ticker: [df_valid['Valeur totale (EUR)']]. *)
Definition valid_rows (df_portfolio : TSeries F) (returns : DataFrame F) : TSeries F :=
  filter (fun r => mem_str (fst r) (columns returns)) df_portfolio.

(** [values / values.sum()]. *)
Definition weights_of (values : TSeries F) : TSeries F :=
  let total := nansum (map snd values) in
  map (fun r => (fst r, snd r / total)) values.

(** [(weights * vol_annual).sum()], both indexed alike. *)
Definition vol_ponderee (weights vol_annual : TSeries F) : F :=
  nansum (map2 mul (map snd weights) (map snd vol_annual)).

(** The five tabs, once the risk figures are known. *)
Definition show_tabs (returns : DataFrame F) (df_valid weights vol_annual : TSeries F)
           (var_95 var_99 : F) : M F unit :=
  emit (StTabs ["Indicateurs cles"; "Synthese par actif"; "Correlation";
                "Volatilite"; "Projection"]%string) ;;;
  emit (StMetric "Volatilite Moyenne" (nanmean (map snd vol_annual) * of_Z 100)) ;;;
  emit (StMetric "VaR 95%" (var_95 * of_Z 100)) ;;;
  emit (StMetric "VaR 99%" (var_99 * of_Z 100)) ;;;
  emit (StCount "Nb Actifs" (List.length df_valid)) ;;;
  let vol_pond := vol_ponderee weights vol_annual in
  emit (StMetric "Volatilite Ponderee" (vol_pond * of_Z 100)) ;;;
  emit (StTable "Synthese par actif") ;;;
  sel <- lift (select returns (map fst weights)) ;;
  emit (CalcCorr (columns sel)) ;;;
  let corr_matrix := round2_matrix (df_corr sel) in
  emit (StCorrelation corr_matrix) ;;;
  emit (StTable "Volatilite") ;;;
  show_projections (nansum (map snd df_valid)) (of_Z 0)
                   (nanmean (map snd vol_annual) * of_Z 100).

(** [show_risk_dashboard(df_portfolio)]; [df_portfolio] has the columns
    ['Ticker'] and ['Valeur totale (EUR)'].  [None] stands for the
    returned [(None, None, None)]. *)
Definition show_risk_dashboard (df_portfolio : TSeries F)
  : M F (option (TSeries F * F * F)) :=
  emit (StMarkdown "Analyse de Risque du Portefeuille" []) ;;;
  r <- get_price_history (map fst df_portfolio) ;;
  let price_df := fst r in
  let missing_tickers := snd r in
  match missing_tickers with
  | _ :: _ => emit (StWarning ("Aucun historique pour : "
                                 ++ String.concat ", " missing_tickers))
  | [] => ret tt
  end ;;;
  if df_empty price_df then
    emit (StWarning "Aucun historique de prix disponible pour les tickers valides.") ;;;
    ret None
  else
    let returns := dropna_rows (pct_change price_df) in
    let df_valid := valid_rows df_portfolio returns in
    let weights := weights_of df_valid in
    sel <- lift (select returns (map fst weights)) ;;
    let vol_annual := calc_volatility sel in
    var_95 <- compute_portfolio_var returns weights (lit 95 100) ;;
    var_99 <- compute_portfolio_var returns weights (lit 99 100) ;;
    show_tabs returns df_valid weights vol_annual var_95 var_99 ;;;
    ret (Some (vol_annual, var_95, var_99)).
End Risk.

(* ================================================================= *)
(** * app_portefeuille.py *)

(** [str.isspace] on the code points below 256. *)
Definition py_isspace (c : ascii) : bool :=
  let n := nat_of_ascii c in
  ((9 <=? n) && (n <=? 13) || (28 <=? n) && (n <=? 32)
   || (n =? 133) || (n =? 160))%nat.

Fixpoint lstrip (s : string) : string :=
  match s with
  | EmptyString => EmptyString
  | String c s' => if py_isspace c then lstrip s' else s
  end.

Fixpoint rstrip (s : string) : string :=
  match s with
  | EmptyString => EmptyString
  | String c s' =>
      match rstrip s' with
      | EmptyString => if py_isspace c then EmptyString else String c EmptyString
      | r => String c r
      end
  end.

(** [line.strip()]. *)
Definition strip (s : string) : string := rstrip (lstrip s).

(** [s.split(sep)] for a one-character separator. *)
Fixpoint split_on (sep : ascii) (s : string) : list string :=
  match s with
  | EmptyString => [EmptyString]
  | String c s' =>
      if Ascii.eqb c sep then EmptyString :: split_on sep s'
      else match split_on sep s' with
           | p :: ps => String c p :: ps
           | [] => [String c EmptyString]
           end
  end.

(** One row of the frame returned by [lire_portefeuille]. *)
Record holding (F : Type) : Type := {
  h_ticker : string;           (* "Ticker" *)
  h_prix : F;                  (* "Prix d'achat (EUR)" *)
  h_quantite : F;              (* "Quantite" *)
  h_dividendes : F             (* "Dividendes totaux (EUR)" *)
}.

(** The columns that [calculs_financiers] adds to a row. *)
Record valued (F : Type) : Type := {
  v_holding : holding F;
  v_cours : F;                 (* "Cours actuel (EUR)" *)
  v_valeur : F;                (* "Valeur totale (EUR)" *)
  v_performance : F;           (* "Performance (%)" *)
  v_rendement : F              (* "Rendement sur cout (%)" *)
}.

Section App.
Context {F : Type} `{PyNum F}.
(** Python's [float(s)]: the float a field denotes, [None] where
    [float] raises [ValueError]. *)
Variable py_float : string -> option F.
(** [get_current_price]: the last close, [None] when the fetch raised. *)
Variable get_current_price : string -> option F.
Local Open Scope num_scope.

Definition to_float (s : string) : result F :=
  match py_float s with
  | Some x => Ok x
  | None => Raise ValueError
  end.

(** The body of the loop of [lire_portefeuille] for a stripped,
    non-blank line. *)
Definition parse_line (line : string) : result (holding F) :=
  let parts := split_on "/"%char line in
  rbind (py_index parts 0) (fun ticker =>
  rbind (rbind (py_index parts 1) to_float) (fun prix_entree =>
  rbind (rbind (py_index parts 2) to_float) (fun quantite =>
  rbind (if (3 <? List.length parts)%nat
         then rbind (py_index parts 3) to_float
         else Ok (of_Z 0)) (fun dividende_unitaire =>
  let dividende_total := dividende_unitaire * quantite in
  Ok {| h_ticker := ticker; h_prix := prix_entree;
        h_quantite := quantite; h_dividendes := dividende_total |})))).

(** [lire_portefeuille] on the lines that iterating the file yields. *)
Fixpoint lire_portefeuille (lines : list string) : result (list (holding F)) :=
  match lines with
  | [] => Ok []
  | line :: rest =>
      let line := strip line in
      match line with
      | EmptyString => lire_portefeuille rest
      | _ => rbind (parse_line line) (fun row =>
             rbind (lire_portefeuille rest) (fun rows => Ok (row :: rows)))
      end
  end.

(** The price column: a [None] among floats is read as NaN.  (A column
    holding nothing but [None] is an object column in pandas; that
    corner is not represented.) *)
Definition cours_actuel (ticker : string) : F :=
  match get_current_price ticker with
  | Some p => p
  | None => nan
  end.

Definition performance (cours prix : F) : F :=
  round2 ((cours - prix) / prix * of_Z 100).

Definition rendement_sur_cout (dividendes prix quantite : F) : F :=
  round2 (dividendes / (prix * quantite) * of_Z 100).

Definition calculs_financiers (df : list (holding F)) : list (valued F) :=
  map (fun r =>
         let cours := cours_actuel (h_ticker r) in
         {| v_holding := r;
            v_cours := cours;
            v_valeur := cours * h_quantite r;
            v_performance := performance cours (h_prix r);
            v_rendement :=
              rendement_sur_cout (h_dividendes r) (h_prix r) (h_quantite r) |})
      df.

(** [df[['Ticker', 'Valeur totale (EUR)']]], what [main] hands to the
    risk dashboard. *)
Definition df_portfolio_of (df : list (valued F)) : TSeries F :=
  map (fun r => (h_ticker (v_holding r), v_valeur r)) df.
End App.

(** [s.replace(c, "")] for a one-character [c]. *)
Fixpoint remove_char (c : ascii) (s : string) : string :=
  match s with
  | EmptyString => EmptyString
  | String c' s' =>
      if Ascii.eqb c' c then remove_char c s' else String c' (remove_char c s')
  end.

(** The three cell styles of [afficher_tableau]. *)
Definition STYLE_GAIN : string :=
  "background-color: rgba(0,255,0,0.15); color:#4CAF50; font-weight:600;".
Definition STYLE_FLAT : string :=
  "background-color: rgba(255,165,0,0.15); color:orange; font-weight:600;".
Definition STYLE_LOSS : string :=
  "background-color: rgba(255,0,0,0.15); color:#E53935; font-weight:600;".

(** [color_percent], the styling function inside [afficher_tableau]:
    the cell text without its ["%"] is read with [float]; any exception
    gives the empty style. *)
Definition color_percent {F} `{PyNum F} (py_float : string -> option F)
           (val : string) : string :=
  match py_float (remove_char "%" val) with
  | Some num =>
      if ltb (of_Z 0) num then STYLE_GAIN
      else if eqb num (of_Z 0) then STYLE_FLAT
      else STYLE_LOSS
  | None => EmptyString
  end.

(** What [synthese_portefeuille] returns. *)
Record synthese (F : Type) : Type := {
  montant_investi_total : F;
  valeur_actuelle_totale : F;
  performance_totale : F;
  dividendes_totaux : F;
  rendement_moyen_cout : F
}.

Section Synthese.
Context {F : Type} `{PyNum F}.
Local Open Scope num_scope.

(** The cost of a row: [df["Prix d'achat"] * df["Quantite"]]. *)
Definition cout (r : valued F) : F :=
  h_prix (v_holding r) * h_quantite (v_holding r).

(** [synthese_portefeuille] on a frame with at least one row, whose
    numeric columns are float columns (see [cours_actuel]; an empty
    frame has object columns, whose sums are Python integers).  The sums
    are pandas', the NaN left out; the five figures are numpy floats. *)
Definition synthese_portefeuille (df : list (valued F)) : synthese F :=
  let montant_investi_total := nansum (map cout df) in
  let valeur_actuelle_totale := nansum (map (@v_valeur F) df) in
  let performance_totale :=
    round2 ((valeur_actuelle_totale - montant_investi_total)
            / montant_investi_total * of_Z 100) in
  let dividendes_totaux := nansum (map (fun r => h_dividendes (v_holding r)) df) in
  let rendement_moyen_cout :=
    round2 (dividendes_totaux / montant_investi_total * of_Z 100) in
  {| montant_investi_total := montant_investi_total;
     valeur_actuelle_totale := valeur_actuelle_totale;
     performance_totale := performance_totale;
     dividendes_totaux := dividendes_totaux;
     rendement_moyen_cout := rendement_moyen_cout |}.

(** The column ["Poids (%)"] that [synthese_portefeuille] adds to the
    frame. *)
Definition poids (df : list (valued F)) : list F :=
  let valeur_actuelle_totale := nansum (map (@v_valeur F) df) in
  map (fun r => round2 (v_valeur r / valeur_actuelle_totale * of_Z 100)) df.
End Synthese.

(** A reading of decimal fields for examples: [digits[.digits]] with an
    optional sign, of at most 15 digits, where one correctly rounded
    division gives the float that Python's [float] returns. *)
Module Decimal.
Definition digit (c : ascii) : option Z :=
  let n := nat_of_ascii c in
  if ((48 <=? n) && (n <=? 57))%nat then Some (Z.of_nat (n - 48)) else None.

(** Digits read so far, their count, and the count after the point. *)
Fixpoint scan (s : string) (acc : Z) (nd : nat) (frac : option nat)
  : option (Z * nat * nat) :=
  match s with
  | EmptyString =>
      match nd with
      | O => None
      | _ => Some (acc, nd, match frac with Some k => k | None => O end)
      end
  | String c s' =>
      if Ascii.eqb c "."%char then
        match frac with
        | None => scan s' acc nd (Some O)
        | Some _ => None
        end
      else
        match digit c with
        | Some d => scan s' (acc * 10 + d)%Z (S nd) (option_map S frac)
        | None => None
        end
  end.

Definition parse {F} `{PyNum F} (s : string) : option F :=
  let (negative, body) :=
    match s with
    | String "-"%char s' => (true, s')
    | String "+"%char s' => (false, s')
    | _ => (false, s)
    end in
  match scan body 0 0 None with
  | Some (n, nd, k) =>
      if (nd <=? 15)%nat
      then let x := lit n (10 ^ Z.of_nat k) in
           Some (if negative then neg x else x)
      else None
  | None => None
  end.
End Decimal.

(* ================================================================= *)
(** * Vocabulary of the properties *)

(** The events that start a VaR or a correlation computation. *)
Definition is_risk_computation {F} (e : event F) : bool :=
  match e with
  | CalcVar _ _ | CalcCorr _ => true
  | _ => false
  end.

(** The events of the "no data" path: the title, the console lines of
    the failed fetches and the warnings. *)
Definition is_report {F} (e : event F) : bool :=
  match e with
  | StMarkdown _ _ | Print _ | StWarning _ => true
  | _ => false
  end.

(** The returns frame that the dashboard derives from a price frame. *)
Definition returns_of {F} `{PyNum F} (price_df : DataFrame F) : DataFrame F :=
  dropna_rows (pct_change price_df).

(** The total value shown by the dashboard: the sum over the rows that
    have a returns column. *)
Definition valeur_actuelle_of {F} `{PyNum F} (df_portfolio : TSeries F)
           (price_df : DataFrame F) : F :=
  nansum (map snd (valid_rows df_portfolio (returns_of price_df))).

(* ================================================================= *)
(** * Sample market data *)

Module Sample.
Open Scope string_scope.
Open Scope float_scope.

(** Four closes for "A" and "B"; two for "D"; a single close for "C";
    a history of one NaN close for "N"; any other ticker fails. *)
Definition yf (t : string) : fetch float :=
  if String.eqb t "A" then
    FetchClose [(1%Z, 100); (2%Z, 110); (3%Z, 99); (4%Z, 105)]
  else if String.eqb t "B" then
    FetchClose [(1%Z, 50); (2%Z, 51); (3%Z, 50); (4%Z, 49)]
  else if String.eqb t "C" then FetchClose [(1%Z, 10)]
  else if String.eqb t "D" then FetchClose [(1%Z, 10); (2%Z, 11)]
  else if String.eqb t "N" then FetchClose [(1%Z, nan)]
  else FetchRaises.

(** C's [pow] on the sample runs, by repeated multiplication; a finite
    base with a power out of range is OverflowError. *)
Fixpoint repeated_product (x : float) (n : nat) : float :=
  match n with
  | O => 1
  | S k => x * repeated_product x k
  end.

Definition libm_pow (x : float) (n : nat) : result float :=
  let p := repeated_product x n in
  if PrimFloat.is_finite x && negb (PrimFloat.is_finite p)
  then Raise OverflowError else Ok p.

(** Standard normal draws of the sample runs. *)
Definition gauss (y s k : nat) : float :=
  if Nat.even (s + k) then 0.5 else -0.5.

Definition portfolio_AB : TSeries float := [("A", 1000); ("B", 3000)].

(** One position in "D", whose two closes give a single return. *)
Definition portfolio_D : TSeries float := [("D", 1000)].

(** One position in "C", whose single close gives no return at all. *)
Definition portfolio_C : TSeries float := [("C", 1000)].

(** Two assets that move against each other, held in equal weights. *)
Definition opposite_returns : DataFrame float :=
  {| df_index := [1; 2; 3]%Z;
     df_cols := [("A", [0.5; -0.5; 0.5]); ("B", [-0.5; 0.5; -0.5])] |}.

Definition equal_weights : TSeries float := [("A", 0.5); ("B", 0.5)].

(** The same market in exact arithmetic: a price frame with the columns
    "A" and "B", and a portfolio of 1000 in "A", 3000 in "B", a position
    in "B2" without current price (NaN) and 5 in "Z", which has no
    column. *)
Definition exact_prices : DataFrame xq :=
  {| df_index := [1; 2; 3]%Z;
     df_cols := [("A", [of_Z 100; of_Z 110; of_Z 99]);
                 ("B", [of_Z 50; of_Z 51; of_Z 50])] |}.

Definition exact_portfolio : TSeries xq :=
  [("A", of_Z 1000); ("B", of_Z 3000); ("B", None); ("Z", of_Z 5)].

(** A return series in exact arithmetic. *)
Definition exact_series : list xq :=
  [lit 4 100; lit (-3) 100; lit 1 100; lit (-5) 100; lit 2 100].

Close Scope float_scope.
Close Scope string_scope.
End Sample.

(** The non-blank lines of a file, stripped: what the loop of
    [lire_portefeuille] hands to the parsing of fields. *)
Definition non_blank_lines (lines : list string) : list string :=
  filter (fun l => negb (String.eqb l EmptyString)) (map strip lines).

(** The dividend per unit that a line carries in its fields after the
    quantity: the fourth field when there is one, [0] otherwise. *)
Definition dividend_field {F} `{PyNum F} (py_float : string -> option F)
           (more : list string) : option F :=
  match more with
  | [] => Some (of_Z 0)
  | d :: _ => py_float d
  end.

(** The line of the example, as the file iterator yields it. *)
Definition line_AAPL : string :=
  ("AAPL/150.0/10/2.5" ++ String (ascii_of_nat 10) EmptyString)%string.

(** A fetch that leaves the ticker without a history: it raised or it
    returned an empty Series. *)
Definition fetch_fails {F} (yf : string -> fetch F) (t : string) : bool :=
  match yf t with
  | FetchRaises => true
  | FetchClose [] => true
  | FetchClose (_ :: _) => false
  end.

(** Every date of the history carries a NaN close. *)
Definition all_nan {F} `{PyNum F} (h : History F) : Prop :=
  Forall (fun d => isnan (lookup_date d h) = true) (map fst h).

(** The warning that lists the tickers without history, when there are any. *)
Definition missing_warning {F} (missing : list string) : list (event F) :=
  match missing with
  | [] => []
  | _ :: _ => [StWarning ("Aucun historique pour : " ++ String.concat ", " missing)]
  end.

(** The warning of the "no data" path. *)
Definition no_data_warning {F} : event F :=
  StWarning "Aucun historique de prix disponible pour les tickers valides.".

(** The return of ticker [t] on row [i] of a returns frame. *)
Definition return_at {F} `{PyNum F} (returns : DataFrame F) (t : string) (i : nat) : F :=
  match dict_get (df_cols returns) t with
  | Some c => nth i c nan
  | None => nan
  end.

(** The weighted portfolio return series: on every date, the sum over
    the weight vector of weight times return. *)
Definition weighted_returns {F} `{PyNum F}
           (returns : DataFrame F) (weights : TSeries F) : list F :=
  map (fun i => fsum (map (fun tw => mul (snd tw) (return_at returns (fst tw) i))
                          weights))
      (seq 0 (List.length (df_index returns))).

(** Historical VaR at confidence [c]: minus the [(1 - c) * 100]-th
    percentile of the series. *)
Definition historical_var {F} `{PyNum F} (series : list F) (c : F) : result F :=
  rbind (np_percentile series (mul (sub (of_Z 1) c) (of_Z 100)))
        (fun p => Ok (neg p)).

(** Every ticker of the weight vector has a column in the frame. *)
Definition aligned {F} (returns : DataFrame F) (weights : TSeries F) : Prop :=
  forall t, In t (map fst weights) -> In t (columns returns).

(** The products weight_i * volatility_i, in index order. *)
Definition weighted_vols {F} `{PyNum F} (weights vol_annual : TSeries F) : list F :=
  map2 mul (map snd weights) (map snd vol_annual).

(** Annualized volatility of one series. *)
Definition annualized_vol {F} `{PyNum F} (series : list F) : F :=
  mul (nanstd series) (fsqrt (of_Z 252)).

(** Entry [(i, j)] of a labelled matrix. *)
Definition matrix_entry {F} `{PyNum F} (m : list (string * list F)) (i j : nat) : F :=
  nth j (snd (nth i m (EmptyString, []))) nan.

(** Column [i] of a frame. *)
Definition column_at {F} (df : DataFrame F) (i : nat) : list F :=
  snd (nth i (df_cols df) (EmptyString, [])).

(** The running sums of [nancorr] for a column paired with itself. *)
Definition self_welford {F} `{PyNum F} (c : list F) : welford :=
  fold_left welford_step (combine c c) welford0.

(** The coefficient of a column with itself, from its sum of squared
    deviations [s]: [s / sqrt(s * s)] clipped to [-1, 1], and NaN when
    the column has no finite value or [sqrt(s * s)] is zero. *)
Definition self_corr {F} `{PyNum F} (c : list F) : F :=
  let st := self_welford c in
  let s := ssqdm_x st in
  if (nobs st <? 1)%Z then nan
  else if negb (eqb (fsqrt (mul s s)) (of_Z 0))
       then clip1 (div s (fsqrt (mul s s))) else nan.

(** An exact value that is a positive number. *)
Definition is_positive (x : xq) : Prop :=
  exists q : Qc, x = Some q /\ (0 < q)%Qc.

(** An exact value that is NaN or a number that is not negative: the
    value of a position whose price is unknown, or of a held position. *)
Definition nan_or_nonneg (x : xq) : Prop :=
  x = None \/ exists q : Qc, x = Some q /\ (0 <= q)%Qc.

(** Sum of the exact values of a list, its NaN left out. *)
Definition qsum (l : list xq) : Qc :=
  fold_left (fun acc x => match x with
                          | Some q => (acc + q)%Qc
                          | None => acc
                          end) l 0%Qc.

(** Insertion sort on exact values, the order of [np_sort] on a list
    without NaN. *)
Fixpoint insertQ (x : Qc) (l : list Qc) : list Qc :=
  match l with
  | [] => [x]
  | y :: l' => if Qle_bool x y then x :: y :: l' else y :: insertQ x l'
  end.

Definition sortQ (l : list Qc) : list Qc := fold_right insertQ [] l.

(** Every element is below all the later ones. *)
Fixpoint ascending (l : list Qc) : Prop :=
  match l with
  | [] => True
  | x :: l' => (forall y, In y l' -> (x <= y)%Qc) /\ ascending l'
  end.

Definition Qc_of_Z (z : Z) : Qc := Q2Qc (inject_Z z).

(** A list of exact values read as a list without NaN. *)
Abbreviation exacts := (@map Qc xq (@Some Qc)) (only parsing).

(** The linear quantile of an ascending list [s] at the fraction [q]:
    the value at the virtual index [(n - 1) * q], interpolated between
    its two neighbours. *)
Definition quantileQ (s : list Qc) (q : Qc) : Qc :=
  let top := (Z.of_nat (List.length s) - 1)%Z in
  let v := (Qc_of_Z top * q)%Qc in
  if Qle_bool (Qc_of_Z top) v then nth (Z.to_nat top) s 0%Qc
  else
    let k := Qfloor v in
    (nth (Z.to_nat k) s 0
     + (nth (Z.to_nat (k + 1)) s 0 - nth (Z.to_nat k) s 0) * (v - Qc_of_Z k))%Qc.

(** The invariant of a pandas frame built from dated Series: the index
    ascends without repeats, every column has one value per date and no
    label names two columns. *)
Definition well_formed {F} (df : DataFrame F) : Prop :=
  StronglySorted Z.lt (df_index df)
  /\ Forall (fun c => List.length (snd c) = List.length (df_index df)) (df_cols df)
  /\ NoDup (columns df).

(** The sign bit of a binary64 value; [false] for NaN. *)
Definition SFsign (x : spec_float) : bool :=
  match x with
  | S754_nan => false
  | S754_zero s | S754_infinity s | S754_finite s _ _ => s
  end.

(** A binary64 value that is NaN or has its sign bit clear: [+0],
    a positive number or [+inf]. *)
Definition unsigned (x : float) : Prop := SFsign (Prim2SF x) = false.

(** A history as yfinance returns it: its dates ascend, none twice. *)
Definition ascending_history {F} (h : History F) : Prop :=
  StronglySorted Z.lt (map fst h).

(** [c in s]. *)
Fixpoint has_char (c : ascii) (s : string) : bool :=
  match s with
  | EmptyString => false
  | String c' s' => Ascii.eqb c' c || has_char c s'
  end.

(** A fetch whose call raised. *)
Definition fetch_raises {F} (yf : string -> fetch F) (t : string) : bool :=
  match yf t with
  | FetchRaises => true
  | FetchClose _ => false
  end.

(** A priced position worth at least its cost. *)
Definition at_or_above_cost (r : valued xq) : Prop :=
  exists c v : Qc, cout r = Some c /\ v_valeur r = Some v /\ (c <= v)%Qc.

(** A position worth at most its cost; one without a price, which
    counts for nothing in the current value, is among them. *)
Definition at_or_below_cost (r : valued xq) : Prop :=
  exists c : Qc, cout r = Some c /\ (0 <= c)%Qc
                 /\ (v_valeur r = None
                     \/ exists v : Qc, v_valeur r = Some v /\ (v <= c)%Qc).

(** Two holdings in exact arithmetic, of which only "A" has a current
    price. *)
Definition exact_holdings : list (holding xq) :=
  [ {| h_ticker := "A"; h_prix := Some (Qc_of_Z 100);
       h_quantite := Some (Qc_of_Z 2); h_dividendes := Some (Qc_of_Z 0) |};
    {| h_ticker := "B"; h_prix := Some (Qc_of_Z 50);
       h_quantite := Some (Qc_of_Z 1); h_dividendes := Some (Qc_of_Z 0) |} ].

Definition exact_price_of_A (t : string) : option xq :=
  if String.eqb t "A" then Some (Some (Qc_of_Z 90)) else None.

(** One half. *)
Definition half : Qc := Q2Qc (1 # 2).

(** A portfolio with every value multiplied by [k]. *)
Definition scale_values {F} `{PyNum F} (k : F) (df_portfolio : TSeries F) : TSeries F :=
  map (fun r => (fst r, mul k (snd r))) df_portfolio.

(** The simple returns of a list of prices: [p(t) / p(t-1) - 1] from
    the second price on. *)
Definition simple_returns (prices : list Qc) : list Qc :=
  map2 (fun prev cur => (cur / prev - 1)%Qc) prices (tl prices).

(** A column of exact prices, none of them zero, one per date. *)
Definition priced_column (n : nat) (c : string * list xq) (l : list Qc) : Prop :=
  snd c = exacts l /\ List.length l = n /\ Forall (fun p => p <> 0%Qc) l.

(** A positive rescaling and a shift of a return. *)
Definition affine (k s x : Qc) : Qc := (k * x + s)%Qc.

(* ================================================================= *)
(** * Properties *)

(* ----------------------------------------------------------------- *)
(** ** binary64 facts *)

Lemma Prim2SF_one : Prim2SF 1%float = S754_finite false 4503599627370496 (-52).
Proof. reflexivity. Qed.

(** Rounding [m * 2^52] at exponent [e - 52] gives back the canonical
    [(m, e)]: the 52 low bits are zero, nothing is lost. *)
Lemma round_times_two52 (s : bool) (m : positive) (e : Z) :
  bounded prec emax m e = true ->
  binary_round_aux prec emax s (Zpos (m * 4503599627370496)) (e + (-52)) loc_Exact
  = S754_finite s m e.
Proof.
  unfold bounded, canonical_mantissa. intros Hb.
  apply andb_prop in Hb. destruct Hb as [Hc He].
  apply Z.eqb_eq in Hc.
  assert (Hc' : fexp prec emax (Z.pos (digits2_pos m) + e) = e) by exact Hc.
  assert (He' : (e <=? emax - prec)%Z = true) by exact He.
  unfold binary_round_aux, shr_fexp.
  rewrite Pos.mul_comm.
  assert (Hd : Zdigits2 (Zpos (4503599627370496 * m))
               = (Zpos (digits2_pos m) + 52)%Z).
  { cbn [Pos.mul Zdigits2 digits2_pos]. lia. }
  rewrite Hd.
  replace (Z.pos (digits2_pos m) + 52 + (e + -52))%Z
    with (Z.pos (digits2_pos m) + e)%Z by lia.
  rewrite Hc'.
  replace (e - (e + -52))%Z with 52%Z by lia.
  cbn [Pos.mul shr shr_record_of_loc iter_pos shr_1 orb].
  cbn [loc_of_shr_record shr_m round_nearest_even Zdigits2].
  replace (e + -52 + 52)%Z with e by lia.
  rewrite Hc. rewrite Z.sub_diag. cbn [shr shr_m].
  rewrite He'. reflexivity.
Qed.

(** [x * 1.0] is [x], bit for bit, NaN and infinities included. *)
Lemma float_mul_1_r (x : float) : (x * 1)%float = x.
Proof.
  apply Prim2SF_inj. rewrite mul_spec, Prim2SF_one.
  pose proof (Prim2SF_valid x) as Hv.
  destruct (Prim2SF x) as [s | s | | s m e]; try reflexivity.
  - cbn. now rewrite xorb_false_r.
  - cbn. now rewrite xorb_false_r.
  - unfold SF64mul, SFmul. rewrite xorb_false_r.
    apply round_times_two52. exact Hv.
Qed.

(* ----------------------------------------------------------------- *)
(** ** The sign of binary64 results *)

Lemma get_sign_spec (x : float) : PrimFloat.get_sign x = SFsign (Prim2SF x).
Proof.
  unfold PrimFloat.get_sign, PrimFloat.is_zero.
  rewrite FloatAxioms.eqb_spec. change (Prim2SF PrimFloat.zero) with (S754_zero false).
  assert (Hd : Prim2SF (PrimFloat.one / x)%float = SF64div (Prim2SF PrimFloat.one) (Prim2SF x))
    by apply FloatAxioms.div_spec.
  assert (Hl : forall y, (y <? PrimFloat.zero)%float = SFltb (Prim2SF y) (S754_zero false))
    by (intros y; apply FloatAxioms.ltb_spec).
  destruct (Prim2SF x) as [s | s | | s m e] eqn:E.
  - cbv [SFeqb SFcompare]. rewrite Hl, Hd. destruct s; reflexivity.
  - destruct s; cbv [SFeqb SFcompare]; rewrite Hl, E; reflexivity.
  - cbv [SFeqb SFcompare]. rewrite Hl, E. reflexivity.
  - destruct s; cbv [SFeqb SFcompare]; rewrite Hl, E; reflexivity.
Qed.

Lemma binary_round_aux_sign (s : bool) (m e : Z) (l : location) :
  SFsign (binary_round_aux prec emax s m e l) = s
  \/ binary_round_aux prec emax s m e l = S754_nan.
Proof.
  unfold binary_round_aux.
  destruct (shr_fexp prec emax m e l) as [mrs' e'].
  destruct (shr_fexp prec emax _ e' loc_Exact) as [mrs'' e''].
  destruct (shr_m mrs''); [now left | | now right].
  destruct (e'' <=? emax - prec)%Z; now left.
Qed.

Lemma binary_round_sign (s : bool) (m : positive) (e : Z) :
  SFsign (binary_round prec emax s m e) = s
  \/ binary_round prec emax s m e = S754_nan.
Proof.
  unfold binary_round. destruct (shl_align _ _ _). apply binary_round_aux_sign.
Qed.

Lemma SFsign_nan_or (x : spec_float) (s : bool) :
  SFsign x = s \/ x = S754_nan -> s = false -> SFsign x = false.
Proof. intros [E | ->] ->; [exact E | reflexivity]. Qed.

Lemma unsigned_mul (x y : float) : unsigned x -> unsigned y -> unsigned (x * y).
Proof.
  unfold unsigned. rewrite FloatAxioms.mul_spec. unfold SF64mul, SFmul.
  destruct (Prim2SF x) as [sx | sx | | sx mx ex];
    destruct (Prim2SF y) as [sy | sy | | sy my ey]; cbn [SFsign];
    intros Hx Hy; subst; try reflexivity.
  eapply SFsign_nan_or; [apply binary_round_aux_sign | reflexivity].
Qed.

Lemma unsigned_square (x : float) : unsigned (x * x).
Proof.
  unfold unsigned. rewrite FloatAxioms.mul_spec. unfold SF64mul, SFmul.
  destruct (Prim2SF x) as [sx | sx | | sx mx ex]; cbn [SFsign];
    try reflexivity; try (now destruct sx).
  eapply SFsign_nan_or; [apply binary_round_aux_sign | now destruct sx].
Qed.

Lemma unsigned_div (x y : float) : unsigned x -> unsigned y -> unsigned (x / y).
Proof.
  unfold unsigned. rewrite FloatAxioms.div_spec. unfold SF64div, SFdiv.
  destruct (Prim2SF x) as [sx | sx | | sx mx ex];
    destruct (Prim2SF y) as [sy | sy | | sy my ey]; cbn [SFsign];
    intros Hx Hy; subst; try reflexivity.
  destruct (SFdiv_core_binary _ _ _ _ _ _) as [[mz ez] lz].
  eapply SFsign_nan_or; [apply binary_round_aux_sign | reflexivity].
Qed.

Lemma unsigned_add (x y : float) : unsigned x -> unsigned y -> unsigned (x + y).
Proof.
  unfold unsigned. rewrite FloatAxioms.add_spec. unfold SF64add, SFadd.
  destruct (Prim2SF x) as [sx | sx | | sx mx ex];
    destruct (Prim2SF y) as [sy | sy | | sy my ey]; cbn [SFsign];
    intros Hx Hy; subst; try reflexivity.
  cbn [cond_Zopp]. unfold binary_normalize.
  destruct (shl_align mx ex _) as [a ea]; destruct (shl_align my ey _) as [b eb].
  cbn [fst Z.add].
  eapply SFsign_nan_or; [apply binary_round_sign | reflexivity].
Qed.

Lemma unsigned_sqrt (x : float) : unsigned x -> unsigned (PrimFloat.sqrt x).
Proof.
  unfold unsigned. rewrite FloatAxioms.sqrt_spec. unfold SF64sqrt, SFsqrt.
  destruct (Prim2SF x) as [sx | sx | | sx mx ex]; cbn [SFsign];
    intros Hx; subst; try reflexivity.
  destruct (SFsqrt_core_binary _ _ _ _) as [[mz ez] lz].
  eapply SFsign_nan_or; [apply binary_round_aux_sign | reflexivity].
Qed.

Lemma unsigned_of_Z (z : Z) : (0 <= z)%Z -> unsigned (F64.of_Z z).
Proof.
  intros Hz. destruct z as [| p | p]; [reflexivity | | lia].
  unfold unsigned, F64.of_Z, F64.of_pos. rewrite of_uint63_spec.
  pose proof (Uint63.to_Z_bounded (Uint63.of_Z (Z.pos p))) as [Hb _].
  unfold binary_normalize.
  destruct (Uint63.to_Z (Uint63.of_Z (Z.pos p))) as [| q | q]; [reflexivity | | lia].
  eapply SFsign_nan_or; [apply binary_round_sign | reflexivity].
Qed.

Lemma unsigned_nan : unsigned PrimFloat.nan.
Proof. reflexivity. Qed.

Lemma unsigned_is_nan (x : float) : PrimFloat.is_nan x = true -> unsigned x.
Proof.
  intros Hx. unfold unsigned. unfold PrimFloat.is_nan in Hx.
  rewrite FloatAxioms.eqb_spec in Hx.
  destruct (Prim2SF x) as [s | s | | s m e]; try reflexivity; exfalso.
  - discriminate Hx.
  - destruct s; discriminate Hx.
  - cbn in Hx. destruct s; rewrite Z.compare_refl, Pos.compare_cont_refl in Hx;
      discriminate Hx.
Qed.

(* ----------------------------------------------------------------- *)
(** ** Traces *)

Lemma bind_fst_in {F A B} (m : M F A) (k : A -> M F B) (e : event F) :
  In e (fst (bind m k)) ->
  In e (fst m) \/ exists a, snd m = Ok a /\ In e (fst (k a)).
Proof.
  destruct m as [t [a | x]]; cbn.
  - destruct (k a) as [t' r] eqn:E. cbn. intros Hin.
    apply in_app_or in Hin. destruct Hin as [Hin | Hin]; [now left |].
    right. exists a. rewrite E. now split.
  - now left.
Qed.

Lemma bind_snd_ok {F A B} (m : M F A) (k : A -> M F B) (b : B) :
  snd (bind m k) = Ok b ->
  exists a, snd m = Ok a /\ snd (k a) = Ok b.
Proof.
  destruct m as [t [a | x]]; cbn.
  - destruct (k a) as [t' r] eqn:E. cbn. intros ->. exists a. now rewrite E.
  - discriminate.
Qed.

(** Peel the binds of a trace membership down to single events. *)
Ltac trace_inv H :=
  repeat match type of H with
  | In _ (fst (bind _ _)) =>
      apply bind_fst_in in H;
      let a := fresh "a" in let Ha := fresh "Ha" in
      destruct H as [H | (a & Ha & H)]
  | In _ (fst (emit _)) => cbn in H; destruct H as [H | []]
  | In _ (fst (ret _)) => destruct H
  | In _ (fst (lift _)) => destruct H
  end.

Section TraceFacts.
Context {F : Type} `{PyNum F}.
Variable yf : string -> fetch F.

Lemma fetch_loop_total (tickers : list string) ph ms :
  exists t ph' ms', fetch_loop yf tickers ph ms = (t, Ok (ph', ms'))
                    /\ Forall (fun e => exists text, e = Print text) t.
Proof.
  revert ph ms. induction tickers as [| tk rest IH]; intros ph ms; cbn.
  - exists [], ph, ms. split; [reflexivity | constructor].
  - destruct (yf tk) as [| [| p h]].
    + destruct (IH ph (ms ++ [tk])) as (t & ph' & ms' & E & Ht).
      exists (Print ("Erreur pour " ++ tk) :: t), ph', ms'.
      unfold bind, emit. rewrite E. cbn. split; [reflexivity |].
      constructor; [eauto | exact Ht].
    + apply IH.
    + apply IH.
Qed.

Lemma get_price_history_total (tickers : list string) :
  exists t price_df missing,
    get_price_history yf tickers = (t, Ok (price_df, missing))
    /\ Forall (fun e => exists text, e = Print text) t.
Proof.
  unfold get_price_history.
  destruct (fetch_loop_total tickers [] []) as (t & ph & ms & E & Ht).
  rewrite E. cbn. exists (t ++ []), (dropna_cols_all (frame_of_dict ph)), ms.
  split; [reflexivity |]. now rewrite app_nil_r.
Qed.

Lemma calc_var_trace (series : list F) (c : F) (e : event F) :
  In e (fst (calc_var series c)) -> e = CalcVar series c.
Proof.
  unfold calc_var. intros Hin. trace_inv Hin; now subst.
Qed.

Lemma compute_portfolio_var_trace returns weights (c : F) (e : event F) :
  In e (fst (compute_portfolio_var returns weights c)) ->
  exists series, e = CalcVar series c.
Proof.
  unfold compute_portfolio_var. intros Hin. trace_inv Hin.
  apply calc_var_trace in Hin. eauto.
Qed.
End TraceFacts.

Lemma proj_moy_zero_rate (libm_pow : float -> nat -> result float) (V : float) :
  proj_moy libm_pow V (of_Z 0) = Ok (map (fun y => (y, V)) YEARS).
Proof.
  unfold proj_moy, YEARS, float_pow. cbn [rmap map].
  change (eqb (of_Z 1 + of_Z 0 / of_Z 100)%num (of_Z 1)) with true.
  cbn [rbind]. cbn [mul float_num of_Z]. change (F64.of_Z 1) with 1%float.
  now rewrite float_mul_1_r.
Qed.

(* ----------------------------------------------------------------- *)
(** ** The holdings file *)

Section Holdings.
Context {F : Type} `{PyNum F}.
Variable py_float : string -> option F.

Lemma lire_portefeuille_blank (line : string) (rest : list string) :
  strip line = EmptyString ->
  lire_portefeuille py_float (line :: rest) = lire_portefeuille py_float rest.
Proof. intros E. cbn. now rewrite E. Qed.

(** The loop is the parsing of the stripped non-blank lines, in order,
    stopped by the first line that raises. *)
Lemma lire_portefeuille_rmap (lines : list string) :
  lire_portefeuille py_float lines
  = rmap (parse_line py_float) (non_blank_lines lines).
Proof.
  unfold non_blank_lines.
  induction lines as [| line rest IH]; [reflexivity |].
  cbn [lire_portefeuille map filter].
  destruct (strip line) as [| c s] eqn:E.
  - cbn. exact IH.
  - cbn [String.eqb negb rmap]. now rewrite IH.
Qed.

Lemma parse_line_fields (line : string) (row : holding F) :
  parse_line py_float line = Ok row <->
  exists t p q more P Q D,
    split_on "/" line = t :: p :: q :: more
    /\ py_float p = Some P /\ py_float q = Some Q
    /\ dividend_field py_float more = Some D
    /\ row = {| h_ticker := t; h_prix := P; h_quantite := Q;
                h_dividendes := mul D Q |}.
Proof.
  unfold parse_line, to_float, py_index.
  destruct (split_on "/" line) as [| t [| p [| q more]]]; cbn.
  - split; [discriminate | intros (? & ? & ? & ? & ? & ? & ? & E & _); discriminate].
  - split; [discriminate | intros (? & ? & ? & ? & ? & ? & ? & E & _); discriminate].
  - destruct (py_float p); cbn;
      (split; [discriminate | intros (? & ? & ? & ? & ? & ? & ? & E & _); discriminate]).
  - split.
    + destruct (py_float p) as [P |] eqn:EP; cbn; [| discriminate].
      destruct (py_float q) as [Q |] eqn:EQ; cbn; [| discriminate].
      destruct more as [| d more']; cbn.
      * intros [= <-]. exists t, p, q, [], P, Q, (of_Z 0). cbn. auto 10.
      * destruct (py_float d) as [D |] eqn:ED; cbn; [| discriminate].
        intros [= <-]. exists t, p, q, (d :: more'), P, Q, D. cbn. auto 10.
    + intros (t' & p' & q' & more' & P & Q & D & E & EP & EQ & ED & ->).
      injection E as <- <- <- <-. rewrite EP. cbn. rewrite EQ. cbn.
      destruct more as [| d more']; cbn in *.
      * now injection ED as <-.
      * now rewrite ED.
Qed.
End Holdings.

(** C9.  For every holdings file the parser keeps exactly the stripped
    non-blank lines, in order; a line is accepted exactly when splitting
    it on '/' gives a ticker, an entry price and a quantity that [float]
    reads, followed by nothing or by a dividend that [float] reads; the
    row then records totalDividends = dividendPerUnit * quantity, the
    dividend per unit being 0 when the field is missing.  The line
    AAPL/150.0/10/2.5 gives totalDividends = 25.0, and with a current
    price of 180 its Performance (%) is 20.0. *)
Theorem C9_holdings_parser
        (py_float : string -> option float) (price : string -> option float)
        (lines : list string) :
  py_float "150.0"%string = Some 150%float ->
  py_float "10"%string = Some 10%float ->
  py_float "2.5"%string = Some 2.5%float ->
  price "AAPL"%string = Some 180%float ->
  lire_portefeuille py_float lines
    = rmap (parse_line py_float) (non_blank_lines lines)
  /\ (forall line row,
        parse_line py_float line = Ok row <->
        exists t p q more P Q D,
          split_on "/" line = t :: p :: q :: more
          /\ py_float p = Some P /\ py_float q = Some Q
          /\ dividend_field py_float more = Some D
          /\ row = {| h_ticker := t; h_prix := P; h_quantite := Q;
                      h_dividendes := (D * Q)%float |})
  /\ lire_portefeuille py_float [line_AAPL]
       = Ok [ {| h_ticker := "AAPL"; h_prix := 150%float;
                 h_quantite := 10%float; h_dividendes := 25%float |} ]
  /\ (forall rows, lire_portefeuille py_float [line_AAPL] = Ok rows ->
        map (@v_performance float) (calculs_financiers price rows) = [20%float]).
Proof.
  intros H150 H10 H25 H180.
  assert (E : lire_portefeuille py_float [line_AAPL]
              = Ok [ {| h_ticker := "AAPL"; h_prix := 150%float;
                        h_quantite := 10%float; h_dividendes := 25%float |} ]).
  { rewrite lire_portefeuille_rmap.
    change (non_blank_lines [line_AAPL]) with ["AAPL/150.0/10/2.5"%string].
    cbn [rmap]. unfold parse_line, to_float.
    change (split_on "/" "AAPL/150.0/10/2.5")
      with ["AAPL"; "150.0"; "10"; "2.5"]%string.
    cbn [py_index nth_error rbind List.length Nat.ltb Nat.leb].
    rewrite H150, H10, H25. reflexivity. }
  split; [apply lire_portefeuille_rmap |].
  split; [intros line row; exact (parse_line_fields py_float line row) |].
  split; [exact E |].
  intros rows Hrows. rewrite E in Hrows. injection Hrows as <-.
  cbn [calculs_financiers map v_performance v_holding h_ticker h_prix].
  unfold cours_actuel. cbn [h_ticker]. rewrite H180. reflexivity.
Qed.

Lemma C9_holdings_parser_witness :
  lire_portefeuille (@Decimal.parse float _) [line_AAPL; "  "%string; "MSFT/300/2"%string]
    = rmap (parse_line (@Decimal.parse float _))
           (non_blank_lines [line_AAPL; "  "%string; "MSFT/300/2"%string])
  /\ lire_portefeuille (@Decimal.parse float _) [line_AAPL]
       = Ok [ {| h_ticker := "AAPL"; h_prix := 150%float;
                 h_quantite := 10%float; h_dividendes := 25%float |} ].
Proof.
  pose proof (@C9_holdings_parser (@Decimal.parse float _)
                (fun _ => Some 180%float)
                [line_AAPL; "  "%string; "MSFT/300/2"%string]
                eq_refl eq_refl eq_refl eq_refl) as (H1 & _ & H3 & _).
  split; [exact H1 | exact H3].
Defined.

(* ----------------------------------------------------------------- *)
(** ** The price-history provider *)

Lemma dict_get_set {V} (d : list (string * V)) (k k' : string) (v : V) :
  dict_get (dict_set d k v) k'
  = if String.eqb k k' then Some v else dict_get d k'.
Proof.
  induction d as [| [k0 v0] d IH]; cbn.
  - reflexivity.
  - destruct (String.eqb k0 k) eqn:E0; cbn.
    + apply String.eqb_eq in E0. subst k0.
      destruct (String.eqb k k'); reflexivity.
    + rewrite IH. destruct (String.eqb k0 k') eqn:E1; [| reflexivity].
      apply String.eqb_eq in E1. subst k0.
      rewrite String.eqb_sym in E0. now rewrite E0.
Qed.

Lemma dict_get_in {V} (d : list (string * V)) (k : string) (v : V) :
  dict_get d k = Some v -> In (k, v) d.
Proof.
  induction d as [| [k0 v0] d IH]; cbn; [discriminate |].
  destruct (String.eqb k0 k) eqn:E.
  - apply String.eqb_eq in E. subst. intros [= ->]. now left.
  - intros Hg. right. auto.
Qed.

Lemma in_dict_get {V} (d : list (string * V)) (k : string) :
  In k (map fst d) -> exists v, dict_get d k = Some v.
Proof.
  induction d as [| [k0 v0] d IH]; cbn; [intros [] |].
  destruct (String.eqb k0 k) eqn:E; [eauto |].
  intros [-> | Hin]; [| auto].
  now rewrite String.eqb_refl in E.
Qed.

Section Provider.
Context {F : Type} `{PyNum F}.
Variable yf : string -> fetch F.

(** The dict and the missing list after the loop: the tickers whose
    fetch failed are appended to [missing] in order, every other ticker
    is assigned its history, and the other keys are untouched. *)
Lemma fetch_loop_spec (tickers : list string) ph ms t ph' ms' :
  fetch_loop yf tickers ph ms = (t, Ok (ph', ms')) ->
  ms' = ms ++ filter (fetch_fails yf) tickers
  /\ forall k,
       dict_get ph' k
       = if mem_str k tickers && negb (fetch_fails yf k)
         then match yf k with FetchClose h => Some h | FetchRaises => None end
         else dict_get ph k.
Proof.
  revert ph ms t. induction tickers as [| tk rest IH]; intros ph ms t; cbn.
  - intros [= _ <- <-]. rewrite app_nil_r. split; reflexivity || (intros; reflexivity).
  - unfold fetch_fails at 1. destruct (yf tk) as [| [| p h]] eqn:Eyf.
    + unfold bind, emit.
      destruct (fetch_loop yf rest ph (ms ++ [tk])) as [t1 r1] eqn:E1.
      intros [= _ ->]. apply IH in E1. destruct E1 as [-> Hd].
      split; [now rewrite <- app_assoc |].
      intros k. rewrite Hd.
      destruct (String.eqb k tk) eqn:Ek; cbn [orb]; [| reflexivity].
      apply String.eqb_eq in Ek. subst k.
      unfold fetch_fails. rewrite Eyf. cbn.
      rewrite andb_false_r. reflexivity.
    + intros E1. apply IH in E1. destruct E1 as [-> Hd].
      split; [now rewrite <- app_assoc |].
      intros k. rewrite Hd.
      destruct (String.eqb k tk) eqn:Ek; cbn [orb]; [| reflexivity].
      apply String.eqb_eq in Ek. subst k.
      unfold fetch_fails. rewrite Eyf. cbn.
      rewrite andb_false_r. reflexivity.
    + intros E1. apply IH in E1. destruct E1 as [-> Hd].
      split; [reflexivity |].
      intros k. rewrite Hd, dict_get_set.
      destruct (String.eqb k tk) eqn:Ek; cbn [orb].
      * apply String.eqb_eq in Ek. subst k. rewrite String.eqb_refl.
        unfold fetch_fails. rewrite Eyf. cbn.
        destruct (mem_str tk rest); reflexivity.
      * rewrite String.eqb_sym, Ek. reflexivity.
Qed.
End Provider.

Lemma mem_str_in (k : string) (l : list string) :
  mem_str k l = true <-> In k l.
Proof.
  unfold mem_str. rewrite existsb_exists. split.
  - intros (x & Hin & E). apply String.eqb_eq in E. now subst.
  - intros Hin. exists k. split; [exact Hin | apply String.eqb_refl].
Qed.

Lemma insert_date_in (d x : Date) (l : list Date) :
  In x (insert_date d l) <-> x = d \/ In x l.
Proof.
  induction l as [| y l IH]; cbn.
  - intuition.
  - destruct (d <? y)%Z; [cbn; intuition |].
    destruct (d =? y)%Z eqn:E.
    + apply Z.eqb_eq in E. subst. cbn. intuition.
    + cbn. rewrite IH. intuition.
Qed.

Lemma sorted_union_in (a b : list Date) (x : Date) :
  In x (sorted_union a b) <-> In x a \/ In x b.
Proof.
  unfold sorted_union. rewrite <- in_app_iff.
  assert (G : forall l acc, In x (fold_left (fun acc d => insert_date d acc) l acc)
                            <-> In x acc \/ In x l).
  { induction l as [| d l IH]; intros acc; cbn [fold_left].
    - cbn. tauto.
    - rewrite IH, insert_date_in. cbn. intuition. }
  rewrite G. cbn. tauto.
Qed.

Lemma dates_eqb_eq (a b : list Date) : dates_eqb a b = true <-> a = b.
Proof.
  revert b. induction a as [| x a IH]; intros [| y b]; cbn;
    try (split; [discriminate | discriminate]); [tauto |].
  rewrite andb_true_iff, Z.eqb_eq, IH. split.
  - intros [-> ->]. reflexivity.
  - intros [= -> ->]. auto.
Qed.

Lemma index_union_in (a b : list Date) (x : Date) :
  In x (index_union a b) <-> In x a \/ In x b.
Proof.
  unfold index_union. destruct a as [| x0 a], b as [| y0 b]; try (cbn; tauto).
  destruct (dates_eqb (x0 :: a) (y0 :: b)) eqn:E.
  - apply dates_eqb_eq in E. rewrite <- E. tauto.
  - apply sorted_union_in.
Qed.

Section FrameFacts.
Context {F : Type} `{PyNum F}.

Lemma union_index_in (hs : list (History F)) (h : History F) (x : Date) :
  In h hs -> In x (map fst h) -> In x (union_index hs).
Proof.
  unfold union_index. destruct hs as [| h0 rest]; [intros [] |].
  assert (G : forall acc,
             (In x acc \/ exists h', In h' rest /\ In x (map fst h')) ->
             In x (fold_left (fun acc h' => index_union acc (map fst h')) rest acc)).
  { induction rest as [| h1 rest IH]; intros acc; cbn [fold_left].
    - intros [Hx | (h' & [] & _)]. exact Hx.
    - intros Hx. apply IH. rewrite index_union_in.
      destruct Hx as [Hx | (h' & [<- | Hin] & Hx)]; eauto. }
  intros Hin Hx. apply G. destruct Hin as [<- | Hin]; eauto.
Qed.

Lemma lookup_date_in (h : History F) (d : Date) :
  In d (map fst h) -> In (lookup_date d h) (map snd h).
Proof.
  induction h as [| [d' v] h IH]; cbn; [intros [] |].
  destruct (d' =? d)%Z eqn:E.
  - intros _. now left.
  - intros [Hd | Hin]; [apply Z.eqb_neq in E; congruence | right; auto].
Qed.

(** The values of a re-indexed Series that are NaN, when all are. *)
Lemma reindex_all_nan (idx : list Date) (h : History F) :
  (forall d, In d (map fst h) -> In d idx) ->
  Forall (fun x => isnan x = true) (reindex idx h) -> all_nan h.
Proof.
  intros Hsub Hall. unfold all_nan. apply Forall_forall. intros d Hd.
  unfold reindex in Hall. destruct (dates_eqb idx (map fst h)).
  - rewrite Forall_forall in Hall. apply Hall. now apply lookup_date_in.
  - rewrite Forall_map, Forall_forall in Hall. auto.
Qed.

Lemma reindex_length (idx : list Date) (h : History F) :
  List.length (reindex idx h) = List.length idx.
Proof.
  unfold reindex. destruct (dates_eqb idx (map fst h)) eqn:E.
  - apply dates_eqb_eq in E. rewrite E. now rewrite !length_map.
  - apply length_map.
Qed.

Lemma count_valid_zero (l : list F) :
  count_valid l = O -> Forall (fun x => isnan x = true) l.
Proof.
  unfold count_valid. induction l as [| x l IH]; cbn; [constructor |].
  destruct (isnan x) eqn:E; cbn; [| discriminate].
  intros Hc. constructor; auto.
Qed.

Lemma columns_frame_of_dict (d : list (string * History F)) :
  columns (frame_of_dict d) = map fst d.
Proof.
  unfold columns, frame_of_dict. cbn. rewrite map_map. reflexivity.
Qed.

(** A dict entry gives a column of the cleaned frame unless all its
    closes are NaN. *)
Lemma dropna_keeps (d : list (string * History F)) (k : string) (h : History F) :
  In (k, h) d ->
  In k (columns (dropna_cols_all (frame_of_dict d))) \/ all_nan h.
Proof.
  intros Hin. unfold columns, dropna_cols_all, frame_of_dict. cbn [df_cols df_index].
  set (idx := union_index (map snd d)).
  destruct (count_valid (reindex idx h)) as [| n] eqn:Ec.
  - right. apply count_valid_zero in Ec.
    apply (reindex_all_nan idx); [| exact Ec].
    intros x Hx. apply union_index_in with (h := h); [| exact Hx].
    change h with (snd (k, h)). now apply in_map.
  - left. apply in_map_iff. exists (k, reindex idx h). split; [reflexivity |].
    apply filter_In. split.
    + apply in_map_iff. exists (k, h). now split.
    + cbn [snd]. now rewrite Ec.
Qed.

Lemma dropna_columns_sub (d : list (string * History F)) (k : string) :
  In k (columns (dropna_cols_all (frame_of_dict d))) -> In k (map fst d).
Proof.
  unfold columns, dropna_cols_all, frame_of_dict. cbn [df_cols df_index].
  intros Hin. apply in_map_iff in Hin. destruct Hin as ([k' c] & <- & Hin).
  apply filter_In in Hin. destruct Hin as [Hin _].
  apply in_map_iff in Hin. destruct Hin as ([k'' h] & [= <- _] & Hin).
  apply in_map_iff. exists (k'', h). now split.
Qed.
End FrameFacts.

Section ProviderClaims.
Context {F : Type} `{PyNum F}.
Variable yf : string -> fetch F.

(** What [get_price_history] returns, in terms of the fetches. *)
Lemma get_price_history_spec (tickers : list string) :
  exists trace ph,
    get_price_history yf tickers
    = (trace, Ok (dropna_cols_all (frame_of_dict ph),
                  filter (fetch_fails yf) tickers))
    /\ Forall (fun e => exists text, e = Print text) trace
    /\ forall k,
         dict_get ph k
         = if mem_str k tickers && negb (fetch_fails yf k)
           then match yf k with FetchClose h => Some h | FetchRaises => None end
           else None.
Proof.
  unfold get_price_history.
  destruct (fetch_loop_total yf tickers [] []) as (t & ph & ms & E & Ht).
  pose proof (fetch_loop_spec yf tickers [] [] E) as [-> Hd].
  rewrite E. cbn. exists (t ++ []), ph. rewrite app_nil_r. auto.
Qed.
End ProviderClaims.

(** C6 (as amended).  [get_price_history] returns normally for every
    list of tickers, whatever the fetches raise or return: the missing
    list is exactly the tickers whose fetch raised or returned an empty
    Series, in request order (a failure does not stop the loop), and
    every requested ticker is a column of the returned frame, or is in
    the missing list, or has a non-empty fetched history whose closes
    are all NaN (its column is dropped by [dropna(axis=1, how='all')]
    and it is not reported missing).  Every column of the frame is a
    requested ticker with a non-empty history. *)
Theorem C6_provider_total {F} `{PyNum F}
        (yf : string -> fetch F) (tickers : list string) :
  exists trace price_df missing,
    get_price_history yf tickers = (trace, Ok (price_df, missing))
    /\ missing = filter (fetch_fails yf) tickers
    /\ (forall t, In t tickers ->
          In t (columns price_df) \/ In t missing
          \/ exists h, yf t = FetchClose h /\ h <> [] /\ all_nan h)
    /\ (forall t, In t (columns price_df) ->
          In t tickers /\ exists h, yf t = FetchClose h /\ h <> []).
Proof.
  destruct (get_price_history_spec yf tickers) as (trace & ph & E & _ & Hd).
  exists trace, (dropna_cols_all (frame_of_dict ph)),
         (filter (fetch_fails yf) tickers).
  split; [exact E |]. split; [reflexivity |]. split.
  - intros t Hin. destruct (fetch_fails yf t) eqn:Ef.
    + right. left. apply filter_In. now split.
    + specialize (Hd t). apply mem_str_in in Hin. rewrite Hin, Ef in Hd.
      cbn in Hd. unfold fetch_fails in Ef.
      destruct (yf t) as [| [| p h]] eqn:Ey; try discriminate.
      apply dict_get_in in Hd.
      destruct (dropna_keeps ph t (p :: h) Hd) as [Hc | Hn]; [now left |].
      right. right. exists (p :: h). repeat split; [discriminate | exact Hn].
  - intros t Hin. apply dropna_columns_sub in Hin.
    apply in_dict_get in Hin. destruct Hin as [v Hv].
    rewrite Hd in Hv.
    destruct (mem_str t tickers) eqn:Em; [| discriminate].
    destruct (fetch_fails yf t) eqn:Ef; [discriminate |].
    apply mem_str_in in Em. split; [exact Em |].
    unfold fetch_fails in Ef.
    destruct (yf t) as [| [| p h]]; try discriminate.
    exists (p :: h). split; [reflexivity | discriminate].
Qed.

(** C6, the claim as stated fails: "N" is fetched with one NaN close; it
    is requested, yet it is neither a column of the returned frame nor
    in the missing list. *)
Lemma C6_counterexample :
  exists trace price_df missing,
    get_price_history Sample.yf ["N"%string] = (trace, Ok (price_df, missing))
    /\ In "N"%string ["N"%string]
    /\ ~ In "N"%string (columns price_df)
    /\ ~ In "N"%string missing.
Proof.
  eexists _, _, _. split; [vm_compute; reflexivity |].
  cbn. intuition.
Qed.

(* ----------------------------------------------------------------- *)
(** ** The dashboard without data *)

Section NoData.
Context {F : Type} `{PyNum F}.
Variable yf : string -> fetch F.
Variable libm_pow : F -> nat -> result F.
Variable gauss : nat -> nat -> nat -> F.

(** With an empty price frame the run is the title, the console lines of
    the fetches, the warnings, and the sentinel. *)
Lemma dashboard_empty_frame (df_portfolio : TSeries F) t0 price_df missing :
  get_price_history yf (map fst df_portfolio) = (t0, Ok (price_df, missing)) ->
  df_empty price_df = true ->
  show_risk_dashboard yf libm_pow gauss df_portfolio
  = (StMarkdown "Analyse de Risque du Portefeuille" [] :: t0
       ++ missing_warning missing ++ [no_data_warning],
     Ok None).
Proof.
  intros E He. unfold show_risk_dashboard.
  rewrite E. cbn [bind emit fst snd]. rewrite He.
  destruct missing as [| m ms]; cbn; now rewrite ?app_nil_r.
Qed.

(** When every fetch fails the dict stays empty: the frame has no
    column and every ticker is missing. *)
Lemma all_fail_empty_frame (tickers : list string) :
  (forall t, In t tickers -> fetch_fails yf t = true) ->
  exists t0 price_df,
    get_price_history yf tickers = (t0, Ok (price_df, tickers))
    /\ df_empty price_df = true.
Proof.
  intros Hall.
  destruct (get_price_history_spec yf tickers) as (trace & ph & E & _ & Hd).
  assert (Hf : filter (fetch_fails yf) tickers = tickers).
  { clear E Hd. induction tickers as [| a l IH]; [reflexivity |].
    cbn. rewrite (Hall a (or_introl eq_refl)). f_equal.
    apply IH. intros t Ht. apply Hall. now right. }
  assert (Hph : ph = []).
  { destruct ph as [| [k h] ph']; [reflexivity |].
    specialize (Hd k). cbn in Hd. rewrite String.eqb_refl in Hd.
    destruct (mem_str k tickers) eqn:Em; [| discriminate].
    apply mem_str_in in Em. rewrite (Hall k Em) in Hd. discriminate. }
  subst ph. rewrite Hf in E. eauto.
Qed.
End NoData.

Lemma no_data_events {F} (t0 : list (event F)) (missing : list string) :
  Forall (fun e => exists text, e = Print text) t0 ->
  Forall (fun e : event F => is_report e = true /\ is_risk_computation e = false)
         (StMarkdown "Analyse de Risque du Portefeuille" [] :: t0
            ++ missing_warning missing ++ [no_data_warning]).
Proof.
  intros Ht. constructor; [now split |].
  apply Forall_app. split.
  - eapply Forall_impl; [| exact Ht]. intros e [text ->]. now split.
  - apply Forall_app. split.
    + destruct missing; repeat constructor.
    + repeat constructor.
Qed.

(** C1.  When every requested ticker fails to fetch (its fetch raises or
    returns an empty Series) the fetched price frame is empty and every
    ticker is reported missing; and whenever the fetched price frame is
    empty, [show_risk_dashboard] returns normally with the sentinel
    (None, None, None), after showing the "no price history" warning,
    and its run starts no VaR and no correlation computation: it
    consists of the title, the console lines and the warnings only. *)
Theorem C1_no_data_sentinel {F} `{PyNum F}
        (yf : string -> fetch F) (libm_pow : F -> nat -> result F)
        (gauss : nat -> nat -> nat -> F) (df_portfolio : TSeries F) :
  exists t0 price_df missing,
    get_price_history yf (map fst df_portfolio) = (t0, Ok (price_df, missing))
    /\ ((forall t, In t (map fst df_portfolio) -> fetch_fails yf t = true) ->
        df_empty price_df = true /\ missing = map fst df_portfolio)
    /\ (df_empty price_df = true ->
        exists trace,
          show_risk_dashboard yf libm_pow gauss df_portfolio = (trace, Ok None)
          /\ In no_data_warning trace
          /\ Forall (fun e => is_report e = true /\ is_risk_computation e = false)
                    trace).
Proof.
  destruct (get_price_history_spec yf (map fst df_portfolio))
    as (t0 & ph & E & Ht & Hd).
  exists t0, (dropna_cols_all (frame_of_dict ph)),
         (filter (fetch_fails yf) (map fst df_portfolio)).
  split; [exact E |]. split.
  - intros Hall.
    destruct (all_fail_empty_frame yf (map fst df_portfolio) Hall)
      as (t1 & df1 & E1 & He1).
    rewrite E in E1. injection E1 as _ <- Hm. now split.
  - intros He. eexists. split.
    + apply (dashboard_empty_frame yf libm_pow gauss df_portfolio E He).
    + split.
      * right. apply in_or_app. right. apply in_or_app. right. now left.
      * now apply no_data_events.
Qed.

Lemma C1_no_data_sentinel_witness :
  exists trace,
    show_risk_dashboard Sample.yf Sample.libm_pow Sample.gauss [("X"%string, 1000%float); ("Y"%string, 500%float)]
    = (trace, Ok None)
    /\ In no_data_warning trace
    /\ Forall (fun e => is_report e = true /\ is_risk_computation e = false) trace.
Proof.
  destruct (C1_no_data_sentinel Sample.yf Sample.libm_pow Sample.gauss
              [("X"%string, 1000%float); ("Y"%string, 500%float)])
    as (t0 & price_df & missing & E & Hfail & Hempty).
  apply Hempty. apply Hfail.
  intros t [<- | [<- | []]]; reflexivity.
Defined.

(* ----------------------------------------------------------------- *)
(** ** Value at risk of the weighted portfolio *)

Lemma float_mul_comm (x y : float) : (x * y)%float = (y * x)%float.
Proof.
  apply Prim2SF_inj. rewrite !mul_spec. unfold SF64mul, SFmul.
  destruct (Prim2SF x) as [sx | sx | | sx mx ex];
    destruct (Prim2SF y) as [sy | sy | | sy my ey];
    try reflexivity; try (now rewrite xorb_comm).
  rewrite xorb_comm, Pos.mul_comm, Z.add_comm. reflexivity.
Qed.

Section Selection.
Context {F : Type} `{PyNum F}.

Lemma select_aligned (returns : DataFrame F) (labels : list string) :
  (forall t, In t labels -> In t (columns returns)) ->
  select returns labels
  = Ok {| df_index := df_index returns;
          df_cols := map (fun k => (k, match dict_get (df_cols returns) k with
                                      | Some c => c
                                      | None => []
                                      end)) labels |}.
Proof.
  intros Hal. unfold select.
  assert (E : rmap (fun k => match dict_get (df_cols returns) k with
                             | Some c => Ok (k, c)
                             | None => Raise KeyError
                             end) labels
              = Ok (map (fun k => (k, match dict_get (df_cols returns) k with
                                      | Some c => c
                                      | None => []
                                      end)) labels)).
  { induction labels as [| k l IH]; [reflexivity |].
    cbn [rmap map].
    destruct (in_dict_get (df_cols returns) k (Hal k (or_introl eq_refl)))
      as [c Ec].
    rewrite Ec. cbn [rbind]. rewrite IH; [reflexivity |].
    intros t Ht. apply Hal. now right. }
  rewrite E. reflexivity.
Qed.

Lemma select_columns (returns sel : DataFrame F) (labels : list string) :
  select returns labels = Ok sel ->
  columns sel = labels /\ df_index sel = df_index returns
  /\ forall t, In t labels -> In t (columns returns).
Proof.
  unfold select.
  assert (G : forall cs,
             rmap (fun k => match dict_get (df_cols returns) k with
                            | Some c => Ok (k, c)
                            | None => Raise KeyError
                            end) labels = Ok cs ->
             map fst cs = labels /\ forall t, In t labels -> In t (columns returns)).
  { induction labels as [| k l IH]; cbn [rmap]; intros cs.
    - intros [= <-]. split; [reflexivity | intros t []].
    - destruct (dict_get (df_cols returns) k) as [c |] eqn:Ec; [| discriminate].
      cbn [rbind].
      destruct (rmap _ l) as [cs' |] eqn:El; [| discriminate].
      cbn [rbind]. intros [= <-]. destruct (IH cs' eq_refl) as [E1 E2].
      split; [cbn; now rewrite E1 |].
      intros t [-> | Ht]; [| auto].
      apply dict_get_in in Ec. unfold columns. apply in_map_iff.
      exists (t, c). now split. }
  destruct (rmap _ labels) as [cs |] eqn:E; [| discriminate].
  cbn [rbind]. intros [= <-]. destruct (G cs eq_refl) as [E1 E2].
  unfold columns. cbn. auto.
Qed.
End Selection.

(** The product of the selected frame with the weights is the weighted
    return series. *)
Lemma dot_select_weighted (returns : DataFrame float) (weights : TSeries float) :
  aligned returns weights ->
  exists sel, select returns (map fst weights) = Ok sel
              /\ dot sel weights = weighted_returns returns weights.
Proof.
  intros Hal. eexists. split; [now apply select_aligned |].
  unfold dot, weighted_returns. cbn [df_index df_cols].
  apply map_ext. intros i. f_equal.
  unfold row_at, return_at. rewrite !map_map. cbn [snd].
  induction weights as [| [t w] l IH]; [reflexivity |].
  cbn [map map2 fst snd]. f_equal.
  - destruct (in_dict_get (df_cols returns) t (Hal t (or_introl eq_refl)))
      as [c Ec].
    rewrite Ec. apply float_mul_comm.
  - apply IH. intros t' Ht'. apply Hal. now right.
Qed.

(** What a run that returns the three risk figures has computed. *)
Lemma dashboard_success_inv {F} `{PyNum F}
      (yf : string -> fetch F) (libm_pow : F -> nat -> result F)
        (gauss : nat -> nat -> nat -> F) (df_portfolio : TSeries F) vol v95 v99 :
  snd (show_risk_dashboard yf libm_pow gauss df_portfolio) = Ok (Some (vol, v95, v99)) ->
  exists t0 price_df missing sel,
    get_price_history yf (map fst df_portfolio) = (t0, Ok (price_df, missing))
    /\ df_empty price_df = false
    /\ let returns := returns_of price_df in
       let weights := weights_of (valid_rows df_portfolio returns) in
       select returns (map fst weights) = Ok sel
       /\ vol = calc_volatility sel
       /\ snd (compute_portfolio_var returns weights (lit 95 100)) = Ok v95
       /\ snd (compute_portfolio_var returns weights (lit 99 100)) = Ok v99.
Proof.
  intros Hok.
  destruct (get_price_history_spec yf (map fst df_portfolio))
    as (t0 & ph & E & _ & _).
  unfold show_risk_dashboard in Hok.
  apply bind_snd_ok in Hok. destruct Hok as (u0 & _ & Hok).
  apply bind_snd_ok in Hok. destruct Hok as (r & Hr & Hok).
  rewrite E in Hr. cbn in Hr. injection Hr as <-. cbn [fst snd] in Hok.
  apply bind_snd_ok in Hok. destruct Hok as (u1 & _ & Hok).
  destruct (df_empty _) eqn:He.
  { apply bind_snd_ok in Hok. destruct Hok as (u2 & _ & Hok). discriminate. }
  apply bind_snd_ok in Hok. destruct Hok as (sel & Hsel & Hok).
  apply bind_snd_ok in Hok. destruct Hok as (a95 & H95 & Hok).
  apply bind_snd_ok in Hok. destruct Hok as (a99 & H99 & Hok).
  apply bind_snd_ok in Hok. destruct Hok as (u3 & _ & Hok).
  cbn in Hok. injection Hok as <- <- <-.
  eexists t0, _, _, sel. split; [exact E |]. split; [exact He |].
  cbn zeta. unfold returns_of. auto.
Qed.

Lemma compute_portfolio_var_snd {F} `{PyNum F}
      (returns sel : DataFrame F) (weights : TSeries F) (c : F) :
  select returns (map fst weights) = Ok sel ->
  snd (compute_portfolio_var returns weights c)
  = historical_var (dot sel weights) c.
Proof.
  intros E. unfold compute_portfolio_var, calc_var, historical_var.
  rewrite E. cbn.
  destruct (np_percentile _ _); reflexivity.
Qed.

(** C2.  For every returns frame and weight vector that are aligned
    (every weighted ticker has a return column), the portfolio VaR at
    confidence c is minus the (1 - c) * 100-th percentile of the
    per-date weighted return series, the sum over the weight vector of
    weight_i * return_i; and the two figures that the dashboard returns
    are this VaR at c = 0.95 and at c = 0.99, for the returns and the
    weights it derived from the fetched prices. *)
Theorem C2_portfolio_var
        (returns : DataFrame float) (weights : TSeries float) (c : float) :
  aligned returns weights ->
  snd (compute_portfolio_var returns weights c)
    = historical_var (weighted_returns returns weights) c
  /\ forall (yf : string -> fetch float) (libm_pow : float -> nat -> result float)
        (gauss : nat -> nat -> nat -> float) (df_portfolio vol : TSeries float)
            (v95 v99 : float),
       snd (show_risk_dashboard yf libm_pow gauss df_portfolio) = Ok (Some (vol, v95, v99)) ->
       exists price_df missing,
         snd (get_price_history yf (map fst df_portfolio)) = Ok (price_df, missing)
         /\ let returns := returns_of price_df in
            let weights := weights_of (valid_rows df_portfolio returns) in
            historical_var (weighted_returns returns weights) (lit 95 100) = Ok v95
            /\ historical_var (weighted_returns returns weights) (lit 99 100) = Ok v99.
Proof.
  intros Hal. split.
  - destruct (dot_select_weighted Hal) as (sel & Es & Ed).
    rewrite (@compute_portfolio_var_snd _ _ _ _ _ c Es). now rewrite Ed.
  - intros yf libm_pow gauss df_portfolio vol v95 v99 Hok.
    apply dashboard_success_inv in Hok.
    destruct Hok as (t0 & price_df & missing & sel & E & _ & Hsel & _ & H95 & H99).
    exists price_df, missing. rewrite E. split; [reflexivity |].
    cbn zeta in *.
    assert (Hal' : aligned (returns_of price_df)
                     (weights_of (valid_rows df_portfolio (returns_of price_df)))).
    { intros t Ht. apply select_columns in Hsel. now apply Hsel. }
    destruct (dot_select_weighted Hal') as (sel' & Es & Ed).
    rewrite Es in Hsel. injection Hsel as ->.
    rewrite (@compute_portfolio_var_snd _ _ _ _ _ _ Es), Ed in H95.
    rewrite (@compute_portfolio_var_snd _ _ _ _ _ _ Es), Ed in H99. now split.
Qed.

Lemma C2_portfolio_var_witness :
  snd (compute_portfolio_var
         (returns_of {| df_index := [1; 2; 3]%Z;
                        df_cols := [("A"%string, [100; 110; 99]%float);
                                    ("B"%string, [50; 51; 50]%float)] |})
         [("A"%string, 0.25%float); ("B"%string, 0.75%float)] (lit 95 100))
  = historical_var
      (weighted_returns
         (returns_of {| df_index := [1; 2; 3]%Z;
                        df_cols := [("A"%string, [100; 110; 99]%float);
                                    ("B"%string, [50; 51; 50]%float)] |})
         [("A"%string, 0.25%float); ("B"%string, 0.75%float)])
      (lit 95 100).
Proof.
  refine (proj1 (@C2_portfolio_var _ _ _ _)).
  intros t [<- | [<- | []]]; vm_compute; auto.
Defined.

(* ----------------------------------------------------------------- *)
(** ** Portfolio-weighted volatility *)

Section Sums.
Context {F : Type} `{PyNum F}.

Lemma nansum_filter (l : list F) :
  nansum l = fsum (filter (fun x => negb (isnan x)) l).
Proof.
  unfold nansum, fsum. generalize (of_Z 0).
  induction l as [| x l IH]; intros acc; cbn; [reflexivity |].
  destruct (isnan x); cbn; apply IH.
Qed.

Lemma filter_all_true {A} (f : A -> bool) (l : list A) :
  forallb f l = true -> filter f l = l.
Proof.
  induction l as [| x l IH]; cbn; [reflexivity |].
  destruct (f x); cbn; [| discriminate]. intros Hl. now rewrite IH.
Qed.

Lemma nansum_no_nan (l : list F) :
  forallb (fun x => negb (isnan x)) l = true -> nansum l = fsum l.
Proof.
  intros Hl. now rewrite nansum_filter, filter_all_true.
Qed.
End Sums.

Lemma float_neq (x y : float) : Prim2SF x <> Prim2SF y -> x <> y.
Proof. intros Hn E. apply Hn. now rewrite E. Qed.

(** C3 (as amended).  The portfolio-weighted volatility is the sum of
    the products weight_i * volatility_i that are not NaN (pandas sums
    skip NaN, so the figure is 0 when every product is NaN); when no
    product is NaN it is the sum of all weight_i * volatility_i.
    Weights 0.6 and 0.4 with volatilities 10% and 20% give 14% (0.14 for
    the fractions 0.10 and 0.20).  It is a weighted average of the
    individual volatilities and differs from the volatility of the
    combined weighted return series: for two assets that move against
    each other in equal weights the combined series has volatility 0
    and the weighted figure is positive. *)
Theorem C3_weighted_volatility (weights vol_annual : TSeries float) :
  vol_ponderee weights vol_annual
    = fsum (filter (fun x => negb (isnan x)) (weighted_vols weights vol_annual))
  /\ (forallb (fun x => negb (isnan x)) (weighted_vols weights vol_annual) = true ->
      vol_ponderee weights vol_annual = fsum (weighted_vols weights vol_annual))
  /\ vol_ponderee [("X"%string, 0.6%float); ("Y"%string, 0.4%float)]
                  [("X"%string, 10%float); ("Y"%string, 20%float)] = 14%float
  /\ vol_ponderee [("X"%string, 0.6%float); ("Y"%string, 0.4%float)]
                  [("X"%string, 0.1%float); ("Y"%string, 0.2%float)] = 0.14%float
  /\ (annualized_vol (dot Sample.opposite_returns Sample.equal_weights) = 0%float
      /\ PrimFloat.ltb 0
           (vol_ponderee Sample.equal_weights
                         (calc_volatility Sample.opposite_returns)) = true).
Proof.
  split; [apply nansum_filter |].
  split; [apply nansum_no_nan |].
  repeat split; reflexivity.
Qed.

(** C3, the claim as stated fails: on the position in "D" (two closes,
    one return) the volatility of "D" is NaN and its weight is 1; the
    dashboard shows a weighted volatility of 0 while the sum of
    weight * volatility is NaN. *)
Lemma C3_counterexample :
  exists weights vol_annual,
    In (StMetric "Volatilite Ponderee"
                 (vol_ponderee weights vol_annual * 100)%float)
       (fst (show_risk_dashboard Sample.yf Sample.libm_pow Sample.gauss Sample.portfolio_D))
    /\ weights = [("D"%string, 1%float)]
    /\ vol_annual = [("D"%string, PrimFloat.nan)]
    /\ vol_ponderee weights vol_annual = 0%float
    /\ PrimFloat.is_nan (fsum (weighted_vols weights vol_annual)) = true
    /\ vol_ponderee weights vol_annual <> fsum (weighted_vols weights vol_annual).
Proof.
  exists [("D"%string, 1%float)], [("D"%string, PrimFloat.nan)].
  split; [vm_compute; intuition |].
  repeat split; try reflexivity.
  apply float_neq. vm_compute. discriminate.
Qed.

(* ----------------------------------------------------------------- *)
(** ** VaR of degenerate series *)

(** [np.percentile] has no value on an empty array, whatever [q]. *)
Lemma np_percentile_empty {F} `{PyNum F} (q : F) :
  exists e, np_percentile [] q = Raise e.
Proof.
  unfold np_percentile.
  destruct (negb _); eauto.
Qed.

Section SortNaN.
Context {F : Type} `{PyNum F}.

Lemma nth_length_pred (s : list F) (d : F) :
  nth (List.length s - 1) s d = last s d.
Proof.
  induction s as [| x s IH]; [reflexivity |].
  destruct s as [| y s']; [reflexivity |].
  replace (List.length (x :: y :: s') - 1)%nat with (S (List.length s')) by (cbn; lia).
  replace (List.length (y :: s') - 1)%nat with (List.length s') in IH by (cbn; lia).
  exact IH.
Qed.

(** Index [-1] reads the last element. *)
Lemma py_nth_last (s : list F) : py_nth s (-1) = last s nan.
Proof.
  unfold py_nth. cbn [Z.ltb Z.compare].
  replace (Z.to_nat (Z.of_nat (List.length s) + -1)) with (List.length s - 1)%nat by lia.
  apply nth_length_pred.
Qed.

Lemma py_nth_nonneg (s : list F) (k : Z) :
  (0 <= k)%Z -> py_nth s k = nth (Z.to_nat k) s nan.
Proof.
  intros Hk. unfold py_nth.
  destruct (Z.ltb_spec k 0); [lia | reflexivity].
Qed.

Lemma insert_sorted_in (x z : F) (l : list F) :
  In z (insert_sorted x l) <-> z = x \/ In z l.
Proof.
  induction l as [| y l IH]; cbn.
  - intuition.
  - destruct (le_nan_last x y); cbn; [intuition |]. rewrite IH. intuition.
Qed.

Lemma np_sort_in (z : F) (a : list F) : In z (np_sort a) <-> In z a.
Proof.
  induction a as [| x a IH]; cbn; [reflexivity |].
  rewrite insert_sorted_in, IH. intuition.
Qed.

Lemma insert_sorted_nonempty (x : F) (l : list F) : insert_sorted x l <> [].
Proof.
  intros E. assert (Hin : In x (insert_sorted x l)).
  { apply insert_sorted_in. now left. }
  rewrite E in Hin. destruct Hin.
Qed.

Lemma last_cons_nonempty (y d : F) (l : list F) :
  l <> [] -> last (y :: l) d = last l d.
Proof. destruct l; [congruence | reflexivity]. Qed.

(** Inserting before a list that ends with a NaN leaves its last
    element in place. *)
Lemma insert_keeps_nan_last (x d : F) (l : list F) :
  l <> [] -> isnan (last l d) = true ->
  last (insert_sorted x l) d = last l d.
Proof.
  induction l as [| y l IH]; [congruence |]. intros _ Hlast.
  destruct l as [| y' l'].
  - cbn in Hlast. cbn. unfold le_nan_last. rewrite Hlast. reflexivity.
  - change (insert_sorted x (y :: y' :: l'))
      with (if le_nan_last x y then x :: y :: y' :: l'
            else y :: insert_sorted x (y' :: l')).
    destruct (le_nan_last x y); [reflexivity |].
    rewrite last_cons_nonempty by apply insert_sorted_nonempty.
    rewrite (last_cons_nonempty y d (l := y' :: l')) by discriminate.
    apply IH; [discriminate |].
    now rewrite (last_cons_nonempty y d (l := y' :: l')) in Hlast by discriminate.
Qed.

(** A NaN inserted into a list without NaN goes to the end. *)
Lemma insert_nan_at_end (x d : F) (l : list F) :
  isnan x = true -> forallb (fun y => negb (isnan y)) l = true ->
  last (insert_sorted x l) d = x.
Proof.
  intros Hx. induction l as [| y l IH]; [reflexivity |].
  cbn [forallb]. intros Hl. apply andb_prop in Hl. destruct Hl as [Hy Hl].
  change (insert_sorted x (y :: l))
    with (if le_nan_last x y then x :: y :: l else y :: insert_sorted x l).
  unfold le_nan_last at 1.
  apply negb_true_iff in Hy. rewrite Hy, Hx.
  rewrite last_cons_nonempty by apply insert_sorted_nonempty.
  exact (IH Hl).
Qed.

(** The sort puts the NaN last. *)
Lemma np_sort_nan_last (a : list F) (d : F) :
  existsb isnan a = true -> isnan (last (np_sort a) d) = true.
Proof.
  induction a as [| x a IH]; [discriminate |].
  cbn [existsb np_sort fold_right].
  change (fold_right insert_sorted [] a) with (np_sort a).
  destruct (existsb isnan a) eqn:Ea.
  - intros _. specialize (IH eq_refl).
    rewrite insert_keeps_nan_last; [exact IH | | exact IH].
    intros E. apply existsb_exists in Ea. destruct Ea as (z & Hz & _).
    apply (proj2 (np_sort_in z a)) in Hz. rewrite E in Hz. destruct Hz.
  - rewrite orb_false_r. intros Hx.
    rewrite insert_nan_at_end; [exact Hx | exact Hx |].
    apply forallb_forall. intros y Hy. apply (proj1 (np_sort_in y a)) in Hy.
    destruct (isnan y) eqn:Ey; [| reflexivity].
    assert (Hex : existsb isnan a = true).
    { apply existsb_exists. exists y. now split. }
    congruence.
Qed.
End SortNaN.

Lemma float_is_nan_eq (x : float) : PrimFloat.is_nan x = true -> x = PrimFloat.nan.
Proof.
  unfold PrimFloat.is_nan. rewrite FloatAxioms.eqb_spec. intros Hn.
  apply Prim2SF_inj. change (Prim2SF PrimFloat.nan) with S754_nan.
  pose proof (Prim2SF_valid x) as Hv.
  destruct (Prim2SF x) as [s | s | | s m e]; try reflexivity; exfalso.
  - destruct s; discriminate.
  - destruct s; discriminate.
  - unfold SFeqb, SFcompare in Hn. destruct s.
    + rewrite Z.compare_refl in Hn. rewrite Pos.compare_cont_refl in Hn.
      discriminate.
    + rewrite Z.compare_refl in Hn. rewrite Pos.compare_cont_refl in Hn.
      discriminate.
Qed.

(** On binary64 a non-empty series that holds a NaN has the VaR NaN at
    the two confidence levels of the dashboard. *)
Lemma calc_var_nan (series : list float) :
  existsb PrimFloat.is_nan series = true ->
  snd (calc_var series (lit 95 100)) = Ok PrimFloat.nan
  /\ snd (calc_var series (lit 99 100)) = Ok PrimFloat.nan.
Proof.
  intros Hex.
  assert (Hq : forall c : float,
             (c = lit 95 100 \/ c = lit 99 100) ->
             snd (calc_var series c) = Ok PrimFloat.nan).
  { intros c Hc. unfold calc_var. cbn [bind emit lift fst snd].
    unfold np_percentile.
    replace (negb (leb (of_Z 0) (((of_Z 1 - c) * of_Z 100) / of_Z 100)%num
                   && leb (((of_Z 1 - c) * of_Z 100) / of_Z 100)%num (of_Z 1)))
      with false by (destruct Hc as [-> | ->]; reflexivity).
    destruct series as [| x0 rest]; [discriminate |].
    unfold quantile_linear. rewrite py_nth_last.
    pose proof (np_sort_nan_last (x0 :: rest) nan Hex) as Hlast.
    rewrite Hlast.
    change (isnan (last (np_sort (x0 :: rest)) nan) = true)
      with (PrimFloat.is_nan (last (np_sort (x0 :: rest)) nan) = true) in Hlast.
    apply float_is_nan_eq in Hlast. rewrite Hlast. reflexivity. }
  split; apply Hq; auto.
Qed.

(** C7.  On a zero-length return series the VaR computation does not
    give NaN: [calc_var] raises at every confidence level (IndexError
    from [np.percentile] at 0.95 and 0.99), and the dashboard run on the
    position in "C", whose single close leaves no return row, stops
    with that exception after the call of [calc_var] on the empty
    series.  A non-empty series that holds a NaN does give NaN. *)
Theorem C7_zero_length_var_raises :
  (forall c : float, exists e, snd (calc_var [] c) = Raise e)
  /\ (forall series : list float,
        existsb PrimFloat.is_nan series = true ->
        snd (calc_var series (lit 95 100)) = Ok PrimFloat.nan
        /\ snd (calc_var series (lit 99 100)) = Ok PrimFloat.nan)
  /\ snd (calc_var ([] : list float) (lit 95 100)) = Raise IndexError
  /\ snd (calc_var ([] : list float) (lit 99 100)) = Raise IndexError
  /\ show_risk_dashboard Sample.yf Sample.libm_pow Sample.gauss Sample.portfolio_C
     = ([StMarkdown "Analyse de Risque du Portefeuille" [];
         CalcVar [] (lit 95 100)], Raise IndexError)
  /\ calc_var [0.01; PrimFloat.nan; -0.02]%float (lit 95 100)
     = ([CalcVar [0.01; PrimFloat.nan; -0.02]%float (lit 95 100)],
        Ok PrimFloat.nan).
Proof.
  split.
  - intros c. unfold calc_var.
    destruct (np_percentile_empty ((of_Z 1 - c) * of_Z 100)%num) as [e E].
    exists e. cbn [bind emit lift fst snd]. rewrite E. reflexivity.
  - split; [exact calc_var_nan |]. repeat split; reflexivity.
Qed.

(* ----------------------------------------------------------------- *)
(** ** The correlation matrix *)

Section Correlation.
Context {F : Type} `{PyNum F}.

Lemma nth_map_seq {A} (f : nat -> A) (k i : nat) (d : A) :
  (i < k)%nat -> nth i (map f (seq 0 k)) d = f i.
Proof.
  intros Hi. rewrite nth_indep with (d' := f O) by (now rewrite length_map, length_seq).
  rewrite map_nth. now rewrite seq_nth.
Qed.

Lemma corr_entry_sym (cols : list (string * list F)) (i j : nat) :
  corr_entry cols i j = corr_entry cols j i.
Proof.
  unfold corr_entry.
  destruct (Nat.leb_spec j i) as [Hji | Hji];
    destruct (Nat.leb_spec i j) as [Hij | Hij]; try reflexivity; try lia.
  assert (i = j) by lia. now subst.
Qed.

Lemma matrix_entry_corr (df : DataFrame F) (i j : nat) :
  (i < List.length (df_cols df))%nat -> (j < List.length (df_cols df))%nat ->
  matrix_entry (round2_matrix (df_corr df)) i j
  = round2 (corr_entry (df_cols df) i j).
Proof.
  intros Hi Hj. unfold matrix_entry, round2_matrix, df_corr.
  rewrite map_map. rewrite nth_map_seq by exact Hi. cbn [snd].
  rewrite map_map. now rewrite nth_map_seq.
Qed.

(** Paired with itself a column keeps the two means equal and the three
    sums equal. *)
Lemma welford_self_inv (c : list F) (st : welford) :
  meanx st = meany st -> ssqdm_x st = ssqdm_y st -> covxy st = ssqdm_x st ->
  let st' := fold_left welford_step (combine c c) st in
  meanx st' = meany st' /\ ssqdm_x st' = ssqdm_y st' /\ covxy st' = ssqdm_x st'.
Proof.
  revert st. induction c as [| v c IH]; intros st Hm Hs Hc; cbn; [auto |].
  apply IH; destruct (isfinite v); cbn; auto; now rewrite <- ?Hm, <- ?Hs, ?Hc.
Qed.

Lemma corr_pair_self (c : list F) : corr_pair c c = self_corr c.
Proof.
  unfold corr_pair, self_corr, self_welford.
  destruct (welford_self_inv c welford0 eq_refl eq_refl eq_refl)
    as (_ & Hs & Hc).
  cbn zeta in *. now rewrite Hc, <- Hs.
Qed.
End Correlation.

(** Every event of a run is a report, the start of a VaR computation, or
    an event of the tabs shown for the returns and weights derived from
    the fetched prices. *)
Lemma dashboard_trace_inv {F} `{PyNum F}
      (yf : string -> fetch F) (libm_pow : F -> nat -> result F)
        (gauss : nat -> nat -> nat -> F) (df_portfolio : TSeries F) (e : event F) :
  In e (fst (show_risk_dashboard yf libm_pow gauss df_portfolio)) ->
  exists t0 price_df missing,
    get_price_history yf (map fst df_portfolio) = (t0, Ok (price_df, missing))
    /\ (is_report e = true
        \/ (exists series c, e = CalcVar series c)
        \/ exists sel v95 v99,
             let returns := returns_of price_df in
             let df_valid := valid_rows df_portfolio returns in
             let weights := weights_of df_valid in
             select returns (map fst weights) = Ok sel
             /\ In e (fst (show_tabs libm_pow gauss returns df_valid weights
                                     (calc_volatility sel) v95 v99))).
Proof.
  intros Hin.
  destruct (get_price_history_spec yf (map fst df_portfolio))
    as (t0 & ph & E & Ht & _).
  eexists t0, _, _. split; [exact E |].
  unfold show_risk_dashboard in Hin.
  apply bind_fst_in in Hin. destruct Hin as [Hin | (a & Ha & Hin)].
  { cbn in Hin. destruct Hin as [<- | []]. now left. }
  apply bind_fst_in in Hin. destruct Hin as [Hin | (r & Hr & Hin)].
  { rewrite E in Hin. rewrite Forall_forall in Ht.
    apply Ht in Hin. destruct Hin as [text ->]. now left. }
  rewrite E in Hr. cbn in Hr. injection Hr as <-. cbn [fst snd] in Hin.
  apply bind_fst_in in Hin. destruct Hin as [Hin | (u & Hu & Hin)].
  { destruct (filter _ _); cbn in Hin; [destruct Hin |].
    destruct Hin as [<- | []]. now left. }
  destruct (df_empty _).
  { trace_inv Hin; subst e; now left. }
  apply bind_fst_in in Hin. destruct Hin as [[] | (sel & Hsel & Hin)].
  cbn in Hsel.
  apply bind_fst_in in Hin. destruct Hin as [Hin | (v95 & H95 & Hin)].
  { apply compute_portfolio_var_trace in Hin. destruct Hin as [sr ->].
    right. left. eauto. }
  apply bind_fst_in in Hin. destruct Hin as [Hin | (v99 & H99 & Hin)].
  { apply compute_portfolio_var_trace in Hin. destruct Hin as [sr ->].
    right. left. eauto. }
  apply bind_fst_in in Hin. destruct Hin as [Hin | (u' & _ & [])].
  right. right. exists sel, v95, v99. cbn zeta. unfold returns_of. auto.
Qed.

Lemma show_tabs_correlation {F} `{PyNum F}
      (libm_pow : F -> nat -> result F) (gauss : nat -> nat -> nat -> F)
      (returns : DataFrame F) (df_valid weights vol : TSeries F) (v95 v99 : F)
      (m : list (string * list F)) :
  In (StCorrelation m) (fst (show_tabs libm_pow gauss returns df_valid weights vol v95 v99)) ->
  exists sel, select returns (map fst weights) = Ok sel
              /\ m = round2_matrix (df_corr sel).
Proof.
  unfold show_tabs, show_projections. intros Hin.
  trace_inv Hin; try discriminate Hin.
  injection Hin as <-.
  match goal with
  | Hs : snd (lift (select _ _)) = Ok ?s |- _ => exists s; split; [exact Hs | reflexivity]
  end.
Qed.

(* ----------------------------------------------------------------- *)
(** ** The weight vector, in exact arithmetic *)

Lemma xq_zero : (of_Z 0 : xq) = Some 0%Qc.
Proof. reflexivity. Qed.

Lemma xq_one : (of_Z 1 : xq) = Some 1%Qc.
Proof. reflexivity. Qed.

Lemma qsum_acc (l : list xq) (acc : Qc) :
  fold_left (fun acc x => match x with
                          | Some q => (acc + q)%Qc
                          | None => acc
                          end) l acc
  = (acc + qsum l)%Qc.
Proof.
  unfold qsum. revert acc. induction l as [| x l IH]; intros acc; cbn.
  - now rewrite Qcplus_0_r.
  - destruct x as [q |].
    + rewrite IH, (IH (0 + q)%Qc). ring.
    + apply IH.
Qed.

Lemma qsum_cons (x : xq) (l : list xq) :
  qsum (x :: l) = (match x with Some q => q | None => 0 end + qsum l)%Qc.
Proof.
  unfold qsum at 1. cbn. rewrite qsum_acc. destruct x; ring.
Qed.

Lemma xq_nansum (l : list xq) : nansum l = Some (qsum l).
Proof.
  unfold nansum. rewrite xq_zero. unfold qsum. generalize 0%Qc.
  induction l as [| x l IH]; intros acc; cbn; [reflexivity |].
  destruct x as [q |]; cbn; apply IH.
Qed.

Lemma xq_fsum_some (l : list Qc) :
  fsum (map Some l : list xq) = Some (qsum (map Some l)).
Proof.
  unfold fsum. rewrite xq_zero. unfold qsum. generalize 0%Qc.
  induction l as [| x l IH]; intros acc; cbn; [reflexivity |]. apply IH.
Qed.

(** Dividing every value by a non-zero total divides the sum. *)
Lemma qsum_div (l : list xq) (T : Qc) :
  T <> 0%Qc ->
  qsum (map (fun v => div v (Some T)) l) = (qsum l / T)%Qc.
Proof.
  intros HT. induction l as [| x l IH].
  - cbn. unfold qsum. cbn. field. exact HT.
  - cbn [map]. rewrite !qsum_cons, IH.
    destruct x as [q |]; cbn.
    + destruct (Qc_eq_dec T 0) as [E | _]; [contradiction |]. field. exact HT.
    + field. exact HT.
Qed.

Lemma qsum_nonneg (l : list xq) :
  Forall nan_or_nonneg l -> (0 <= qsum l)%Qc.
Proof.
  induction 1 as [| x l Hx _ IH].
  - unfold qsum. cbn. apply Qcle_refl.
  - rewrite qsum_cons. destruct Hx as [-> | (q & -> & Hq)].
    + now rewrite Qcplus_0_l.
    + replace 0%Qc with (0 + 0)%Qc by ring.
      now apply Qcplus_le_compat.
Qed.

Lemma qsum_positive (l : list xq) :
  Forall nan_or_nonneg l -> Exists is_positive l -> (0 < qsum l)%Qc.
Proof.
  intros Hall Hex. induction Hex as [x l (q & -> & Hq) | x l Hex IH].
  - rewrite qsum_cons. inversion Hall as [| ? ? _ Hl]; subst.
    apply Qclt_le_trans with (y := (q + 0)%Qc).
    + now rewrite Qcplus_0_r.
    + apply Qcplus_le_compat; [apply Qcle_refl | now apply qsum_nonneg].
  - rewrite qsum_cons. inversion Hall as [| ? ? Hx Hl]; subst.
    specialize (IH Hl).
    apply Qclt_le_trans with (y := (0 + qsum l)%Qc).
    + now rewrite Qcplus_0_l.
    + apply Qcplus_le_compat; [| apply Qcle_refl].
      destruct Hx as [-> | (q & -> & Hq)]; [apply Qcle_refl | exact Hq].
Qed.

Lemma valid_rows_spec {F} (df_portfolio : TSeries F) (returns : DataFrame F)
      (r : string * F) :
  In r (valid_rows df_portfolio returns)
  <-> In r df_portfolio /\ In (fst r) (columns returns).
Proof.
  unfold valid_rows. rewrite filter_In. now rewrite mem_str_in.
Qed.

Lemma weights_of_index {F} `{PyNum F} (values : TSeries F) :
  map fst (weights_of values) = map fst values.
Proof. unfold weights_of. rewrite map_map. reflexivity. Qed.

(** [pct_change] and [dropna] keep the columns of the price frame. *)
Lemma columns_returns_of {F} `{PyNum F} (price_df : DataFrame F) :
  columns (returns_of price_df) = columns price_df.
Proof.
  unfold returns_of, dropna_rows, pct_change, columns. cbn [df_cols].
  rewrite !map_map. reflexivity.
Qed.

Lemma weights_sum_exact (values : TSeries xq) :
  Forall (fun r => nan_or_nonneg (snd r)) values ->
  Exists (fun r => is_positive (snd r)) values ->
  nansum (map snd (weights_of values)) = Some 1%Qc.
Proof.
  intros Hall Hex.
  assert (HT : (0 < qsum (map snd values))%Qc).
  { apply qsum_positive.
    - now rewrite Forall_map.
    - now rewrite Exists_map. }
  unfold weights_of. rewrite map_map. cbn [snd].
  rewrite (xq_nansum (map snd values)).
  rewrite xq_nansum. f_equal.
  rewrite <- (map_map snd (fun v => div v (Some (qsum (map snd values))))).
  rewrite qsum_div.
  - apply Qcmult_inv_r. intros E. rewrite E in HT. now apply Qclt_not_eq in HT.
  - intros E. rewrite E in HT. now apply Qclt_not_eq in HT.
Qed.

Lemma xq_div_positive (q T : Qc) :
  T <> 0%Qc -> isnan (div (Some q : xq) (Some T)) = false.
Proof.
  intros HT. cbn. destruct (Qc_eq_dec T 0); [contradiction | reflexivity].
Qed.



(** On binary64 the weights of the sample portfolio, 0.25 and 0.75, sum
    to 1.0. *)
Example weights_AB_sum :
  weights_of Sample.portfolio_AB = [("A"%string, 0.25%float); ("B"%string, 0.75%float)]
  /\ nansum (map snd (weights_of Sample.portfolio_AB)) = 1%float.
Proof. split; reflexivity. Qed.

(* ----------------------------------------------------------------- *)
(** ** VaR and the confidence level, in exact arithmetic *)

Lemma Qle_bool_total (x y : Qc) : Qle_bool x y = false -> (y <= x)%Qc.
Proof.
  intros Hf. unfold Qcle. destruct (Qlt_le_dec x y) as [Hlt | Hle]; [| exact Hle].
  apply Qlt_le_weak in Hlt. apply Qle_bool_iff in Hlt. congruence.
Qed.

Lemma Qle_bool_Qcle (x y : Qc) : Qle_bool x y = true <-> (x <= y)%Qc.
Proof. unfold Qcle. apply Qle_bool_iff. Qed.

Lemma insertQ_in (x z : Qc) (l : list Qc) :
  In z (insertQ x l) <-> z = x \/ In z l.
Proof.
  induction l as [| y l IH]; cbn.
  - intuition.
  - destruct (Qle_bool x y); cbn; [intuition |]. rewrite IH. intuition.
Qed.

Lemma insertQ_ascending (x : Qc) (l : list Qc) :
  ascending l -> ascending (insertQ x l).
Proof.
  induction l as [| y l IH]; cbn; [intuition |].
  intros [Hy Hl]. destruct (Qle_bool x y) eqn:E; cbn.
  - apply Qle_bool_Qcle in E. repeat split; auto.
    intros z [<- | Hz]; [exact E |].
    apply Qcle_trans with (y := y); auto.
  - apply Qle_bool_total in E. split; [| auto].
    intros z Hz. apply insertQ_in in Hz. destruct Hz as [-> | Hz]; auto.
Qed.

Lemma sortQ_ascending (l : list Qc) : ascending (sortQ l).
Proof.
  induction l as [| x l IH]; cbn; [exact I |]. now apply insertQ_ascending.
Qed.

Lemma insertQ_length (x : Qc) (l : list Qc) :
  List.length (insertQ x l) = S (List.length l).
Proof.
  induction l as [| y l IH]; cbn; [reflexivity |].
  destruct (Qle_bool x y); cbn; [reflexivity | now rewrite IH].
Qed.

Lemma sortQ_length (l : list Qc) : List.length (sortQ l) = List.length l.
Proof.
  induction l as [| x l IH]; [reflexivity |].
  cbn [sortQ fold_right]. rewrite insertQ_length. cbn. f_equal. exact IH.
Qed.

Lemma ascending_nth (s : list Qc) (i j : nat) :
  ascending s -> (i <= j)%nat -> (j < List.length s)%nat ->
  (nth i s 0 <= nth j s 0)%Qc.
Proof.
  revert i j. induction s as [| x s IH]; intros i j Hs Hij Hj; cbn in Hj; [lia |].
  destruct Hs as [Hx Hs].
  destruct i as [| i], j as [| j]; cbn.
  - apply Qcle_refl.
  - apply Hx. apply nth_In. lia.
  - lia.
  - apply IH; [exact Hs | lia | lia].
Qed.

(** Sorting a list without NaN is sorting its exact values. *)
Lemma np_sort_exact (l : list Qc) :
  np_sort (exacts l) = exacts (sortQ l).
Proof.
  induction l as [| x l IH]; [reflexivity |].
  cbn [map np_sort fold_right sortQ].
  change (fold_right insert_sorted [] (exacts l)) with (np_sort (exacts l)).
  rewrite IH. change (fold_right insertQ [] l) with (sortQ l).
  generalize (sortQ l). intros s.
  induction s as [| y s IHs]; [reflexivity |].
  cbn [map insert_sorted insertQ].
  change (le_nan_last (Some x : xq) (Some y)) with (Qle_bool x y).
  destruct (Qle_bool x y); [reflexivity |]. now rewrite IHs.
Qed.

Lemma xq_of_Z (z : Z) : (of_Z z : xq) = Some (Qc_of_Z z).
Proof. reflexivity. Qed.

Lemma xq_add (a b : Qc) : add (Some a : xq) (Some b) = Some (a + b)%Qc.
Proof. reflexivity. Qed.

Lemma xq_sub (a b : Qc) : sub (Some a : xq) (Some b) = Some (a - b)%Qc.
Proof. reflexivity. Qed.

Lemma xq_mul (a b : Qc) : mul (Some a : xq) (Some b) = Some (a * b)%Qc.
Proof. reflexivity. Qed.

Lemma xq_div (a b : Qc) :
  b <> 0%Qc -> div (Some a : xq) (Some b) = Some (a / b)%Qc.
Proof.
  intros Hb. cbn. destruct (Qc_eq_dec b 0); [contradiction | reflexivity].
Qed.

Lemma xq_leb (a b : Qc) : leb (Some a : xq) (Some b) = Qle_bool a b.
Proof. reflexivity. Qed.

Lemma xq_ltb (a b : Qc) : ltb (Some a : xq) (Some b) = negb (Qle_bool b a).
Proof. reflexivity. Qed.

Lemma Qc_of_Z_Q (z : Z) : (Qc_of_Z z == inject_Z z)%Q.
Proof. unfold Qc_of_Z, Q2Qc. cbn [this]. apply Qred_correct. Qed.

Lemma Qc_of_Z_neq0 (z : Z) : z <> 0%Z -> Qc_of_Z z <> 0%Qc.
Proof.
  intros Hz E.
  assert (E' : (Qc_of_Z z == 0%Qc)%Q) by now rewrite E.
  rewrite Qc_of_Z_Q in E'. unfold Qeq in E'. cbn in E'. lia.
Qed.

Lemma lerp_exact (a b g : Qc) :
  lerp (Some a : xq) (Some b) (Some g) = Some (a + (b - a) * g)%Qc.
Proof.
  unfold lerp, lit. rewrite !xq_of_Z.
  rewrite xq_div by (apply Qc_of_Z_neq0; lia).
  rewrite xq_leb, !xq_sub, !xq_mul, xq_add, xq_sub.
  destruct (Qle_bool _ g); f_equal.
  replace (Qc_of_Z 1) with 1%Qc by reflexivity. ring.
Qed.

Lemma nth_map_some (s : list Qc) (i : nat) :
  (i < List.length s)%nat ->
  @nth xq i (exacts s) nan = Some (nth i s 0%Qc).
Proof.
  intros Hi. rewrite nth_indep with (d' := Some 0%Qc) by (now rewrite length_map).
  apply (map_nth (@Some Qc : Qc -> xq)).
Qed.

Lemma last_map_some (s : list Qc) :
  s <> [] -> exists x, @last xq (exacts s) nan = Some x.
Proof.
  induction s as [| x s IH]; [congruence |]. intros _.
  destruct s as [| y s]; [now exists x |].
  destruct IH as [z Hz]; [discriminate |]. exists z. exact Hz.
Qed.

(** Below the top index the floor of the virtual index and its
    successor are positions of the list. *)
Lemma virtual_index_bounds (v : Qc) (top : Z) :
  (0 <= v)%Qc -> Qle_bool (Qc_of_Z top) v = false ->
  (0 <= Qfloor v)%Z /\ (Qfloor v + 1 <= top)%Z.
Proof.
  intros H0 Htop.
  assert (Hlt : (v < inject_Z top)%Q).
  { apply Qnot_le_lt. intros Hle. rewrite <- Qc_of_Z_Q in Hle.
    apply Qle_bool_iff in Hle. congruence. }
  assert (Hf0 : (0 <= Qfloor v)%Z).
  { change 0%Z with (Qfloor 0). apply Qfloor_resp_le. exact H0. }
  assert (Hf1 : (Qfloor v < top)%Z).
  { rewrite Zlt_Qlt. apply Qle_lt_trans with (y := v); [apply Qfloor_le | exact Hlt]. }
  split; lia.
Qed.

(** On a list without NaN, [np_percentile] at a percentage in
    [0, 100] is the linear quantile of the sorted values. *)
Lemma np_percentile_exact (l : list Qc) (qq : Qc) :
  l <> [] ->
  (0 <= qq / Qc_of_Z 100)%Qc -> (qq / Qc_of_Z 100 <= 1)%Qc ->
  np_percentile (exacts l) (Some qq)
  = Ok (Some (quantileQ (sortQ l) (qq / Qc_of_Z 100))).
Proof.
  intros Hne H0 H1. unfold np_percentile.
  rewrite !xq_of_Z. rewrite xq_div by (apply Qc_of_Z_neq0; lia).
  set (q := (qq / Qc_of_Z 100)%Qc) in *.
  rewrite !xq_leb.
  assert (E0 : Qle_bool (Qc_of_Z 0) q = true) by (apply Qle_bool_Qcle; exact H0).
  assert (E1 : Qle_bool q (Qc_of_Z 1) = true) by (apply Qle_bool_Qcle; exact H1).
  rewrite E0, E1. cbn [andb negb].
  destruct l as [| x0 l0]; [congruence |].
  cbn [map]. change (Some x0 :: exacts l0) with (exacts (x0 :: l0)).
  assert (Hlen : (1 <= List.length (x0 :: l0))%nat) by (cbn; lia).
  revert Hlen. generalize (x0 :: l0). clear Hne x0. intros l Hlen.
  f_equal. unfold quantile_linear.
  rewrite np_sort_exact, length_map, py_nth_last.
  assert (Hsl : List.length (sortQ l) = List.length l) by apply sortQ_length.
  destruct (last_map_some (s := sortQ l)) as [z Hz].
  { intros E. rewrite E in Hsl. cbn in Hsl. lia. }
  rewrite Hz. cbn [isnan xq_num XQ.isnan].
  rewrite !xq_of_Z, !xq_mul. cbn [floor xq_num XQ.floor option_map].
  unfold quantileQ. rewrite Hsl.
  set (top := (Z.of_nat (List.length l) - 1)%Z).
  set (v := (Qc_of_Z top * q)%Qc).
  assert (Hv0 : (0 <= v)%Qc).
  { unfold v. apply Qcle_trans with (y := (0 * q)%Qc).
    - rewrite Qcmult_0_l. apply Qcle_refl.
    - apply Qcmult_le_compat_r; [| exact H0].
      unfold Qcle. rewrite Qc_of_Z_Q. change (this 0%Qc) with (inject_Z 0).
      rewrite <- Zle_Qle. unfold top. lia. }
  rewrite !xq_leb, !xq_ltb.
  destruct (Qle_bool (Qc_of_Z top) v) eqn:Etop.
  - rewrite xq_of_Z, xq_sub.
    unfold py_nth. cbn [Z.ltb Z.compare]. rewrite length_map, Hsl.
    replace (Z.of_nat (List.length l) + -1)%Z with top by (unfold top; lia).
    rewrite nth_map_some by (rewrite Hsl; unfold top; lia).
    rewrite lerp_exact. f_equal. ring.
  - assert (Hz0 : Qle_bool (Qc_of_Z 0) v = true) by (apply Qle_bool_Qcle; exact Hv0).
    rewrite Hz0. cbn [negb].
    destruct (@virtual_index_bounds v top Hv0 Etop) as [Hk0 Hk1].
    rewrite xq_of_Z, xq_sub.
    rewrite !py_nth_nonneg by lia.
    rewrite !nth_map_some by (rewrite Hsl; unfold top in Hk1; lia).
    now rewrite lerp_exact.
Qed.

Lemma Qc_mul_nonneg (a b : Qc) : (0 <= a -> 0 <= b -> 0 <= a * b)%Qc.
Proof.
  intros Ha Hb. apply Qcle_trans with (y := (0 * b)%Qc).
  - rewrite Qcmult_0_l. apply Qcle_refl.
  - now apply Qcmult_le_compat_r.
Qed.

Lemma Qc_sub_nonneg (a b : Qc) : (a <= b -> 0 <= b - a)%Qc.
Proof. unfold Qcminus. apply Qcle_minus_iff. Qed.

Lemma Qc_le_of_sub (a b : Qc) : (0 <= b - a -> a <= b)%Qc.
Proof. unfold Qcminus. apply Qcle_minus_iff. Qed.

Lemma interp_lower (a b g : Qc) :
  (a <= b -> 0 <= g -> a <= a + (b - a) * g)%Qc.
Proof.
  intros Hab Hg. apply Qc_le_of_sub.
  replace (a + (b - a) * g - a)%Qc with ((b - a) * g)%Qc by ring.
  apply Qc_mul_nonneg; [now apply Qc_sub_nonneg | exact Hg].
Qed.

Lemma interp_upper (a b g : Qc) :
  (a <= b -> g <= 1 -> a + (b - a) * g <= b)%Qc.
Proof.
  intros Hab Hg. apply Qc_le_of_sub.
  replace (b - (a + (b - a) * g))%Qc with ((b - a) * (1 - g))%Qc by ring.
  apply Qc_mul_nonneg; now apply Qc_sub_nonneg.
Qed.

Lemma interp_mono (a b g g' : Qc) :
  (a <= b -> g <= g' -> a + (b - a) * g <= a + (b - a) * g')%Qc.
Proof.
  intros Hab Hg. apply Qc_le_of_sub.
  replace (a + (b - a) * g' - (a + (b - a) * g))%Qc
    with ((b - a) * (g' - g))%Qc by ring.
  apply Qc_mul_nonneg; now apply Qc_sub_nonneg.
Qed.

(** The fractional part of a virtual index lies in [0, 1]. *)
Lemma gamma_bounds (v : Qc) :
  (0 <= v - Qc_of_Z (Qfloor v))%Qc /\ (v - Qc_of_Z (Qfloor v) <= 1)%Qc.
Proof.
  split.
  - apply Qc_sub_nonneg. unfold Qcle. rewrite Qc_of_Z_Q. apply Qfloor_le.
  - apply Qc_le_of_sub.
    replace (1 - (v - Qc_of_Z (Qfloor v)))%Qc
      with (Qc_of_Z (Qfloor v) + 1 - v)%Qc by ring.
    apply Qc_sub_nonneg. unfold Qcle.
    assert (E : ((Qc_of_Z (Qfloor v) + 1)%Qc == inject_Z (Qfloor v + 1))%Q).
    { unfold Qcplus, Q2Qc. cbn [this]. rewrite Qred_correct, Qc_of_Z_Q.
      rewrite inject_Z_plus. reflexivity. }
    rewrite E. apply Qlt_le_weak. apply Qlt_floor.
Qed.

(** The linear quantile of an ascending list grows with the fraction. *)
Lemma quantileQ_mono (s : list Qc) (q1 q2 : Qc) :
  ascending s -> s <> [] -> (0 <= q1)%Qc -> (q1 <= q2)%Qc ->
  (quantileQ s q1 <= quantileQ s q2)%Qc.
Proof.
  intros Hs Hne H0 H12.
  assert (Hn : (0 < List.length s)%nat).
  { destruct s; [congruence | cbn; lia]. }
  unfold quantileQ. cbv zeta.
  set (top := (Z.of_nat (List.length s) - 1)%Z).
  set (c := Qc_of_Z top).
  assert (Hc : (0 <= c)%Qc).
  { unfold c, Qcle. rewrite Qc_of_Z_Q. change (this 0%Qc) with (inject_Z 0).
    rewrite <- Zle_Qle. unfold top. lia. }
  assert (Hv1 : (0 <= c * q1)%Qc) by now apply Qc_mul_nonneg.
  assert (Hv12 : (c * q1 <= c * q2)%Qc).
  { rewrite !(Qcmult_comm c). now apply Qcmult_le_compat_r. }
  assert (Hv2 : (0 <= c * q2)%Qc) by (eapply Qcle_trans; eauto).
  assert (Hasc : forall i j : Z, (0 <= i)%Z -> (i <= j)%Z -> (j <= top)%Z ->
                   (nth (Z.to_nat i) s 0 <= nth (Z.to_nat j) s 0)%Qc).
  { intros i j Hi Hij Hj. apply ascending_nth; [exact Hs | lia | unfold top in Hj; lia]. }
  destruct (Qle_bool c (c * q1)%Qc) eqn:E1;
    destruct (Qle_bool c (c * q2)%Qc) eqn:E2.
  - apply Qcle_refl.
  - apply Qle_bool_Qcle in E1.
    assert (E2' : Qle_bool c (c * q2)%Qc = true).
    { apply Qle_bool_Qcle. eapply Qcle_trans; eauto. }
    congruence.
  - destruct (@virtual_index_bounds _ _ Hv1 E1) as [Hk0 Hk1].
    destruct (gamma_bounds (c * q1)%Qc) as [_ Hg].
    eapply Qcle_trans.
    + apply interp_upper; [| exact Hg]. apply Hasc; lia.
    + apply Hasc; lia.
  - destruct (@virtual_index_bounds _ _ Hv1 E1) as [Hk1 Hz1].
    destruct (@virtual_index_bounds _ _ Hv2 E2) as [Hk2 Hz2].
    destruct (gamma_bounds (c * q1)%Qc) as [Hg1l Hg1u].
    destruct (gamma_bounds (c * q2)%Qc) as [Hg2l Hg2u].
    assert (Hfl : (Qfloor (c * q1)%Qc <= Qfloor (c * q2)%Qc)%Z).
    { apply Qfloor_resp_le. exact Hv12. }
    set (k1 := Qfloor (c * q1)%Qc) in *.
    set (k2 := Qfloor (c * q2)%Qc) in *.
    destruct (Z.eq_dec k1 k2) as [Ek | Nk].
    + rewrite <- Ek. apply interp_mono.
      * apply Hasc; lia.
      * apply Qc_le_of_sub.
        replace (c * q2 - Qc_of_Z k1 - (c * q1 - Qc_of_Z k1))%Qc
          with (c * q2 - c * q1)%Qc by ring.
        now apply Qc_sub_nonneg.
    + apply Qcle_trans with (y := nth (Z.to_nat (k1 + 1)) s 0%Qc).
      * apply interp_upper; [| exact Hg1u]. apply Hasc; lia.
      * apply Qcle_trans with (y := nth (Z.to_nat k2) s 0%Qc).
        -- apply Hasc; lia.
        -- apply interp_lower; [| exact Hg2l]. apply Hasc; lia.
Qed.

Lemma no_nan_exacts (series : list xq) :
  Forall (fun x => isnan x = false) series -> exists l, series = exacts l.
Proof.
  induction 1 as [| x series Hx _ [l ->]].
  - now exists [].
  - destruct x as [q |]; [| discriminate]. now exists (q :: l).
Qed.

Lemma percent_fraction (c : Qc) :
  ((Qc_of_Z 1 - c) * Qc_of_Z 100 / Qc_of_Z 100 = 1 - c)%Qc.
Proof.
  replace (Qc_of_Z 1) with 1%Qc by reflexivity.
  field. apply Qc_of_Z_neq0. lia.
Qed.

(** [calc_var] on a non-empty series without NaN, at a confidence level
    in [0, 1]: minus the linear quantile at the fraction [1 - c]. *)
Lemma calc_var_exact (l : list Qc) (c : Qc) :
  l <> [] -> (0 <= c)%Qc -> (c <= 1)%Qc ->
  snd (calc_var (exacts l) (Some c))
  = Ok (Some (- quantileQ (sortQ l) (1 - c))%Qc).
Proof.
  intros Hne H0 H1. unfold calc_var. cbn [bind emit lift fst snd].
  rewrite xq_of_Z, xq_sub, xq_of_Z, xq_mul.
  rewrite np_percentile_exact; [| exact Hne | |]; rewrite ?percent_fraction.
  - reflexivity.
  - now apply Qc_sub_nonneg.
  - apply Qc_le_of_sub. replace (1 - (1 - c))%Qc with c by ring. exact H0.
Qed.

(** In exact arithmetic the VaR grows with the confidence level. *)
Lemma var_monotone_in_confidence (l : list Qc) (c1 c2 : Qc) :
  l <> [] -> (0 <= c1)%Qc -> (c1 <= c2)%Qc -> (c2 <= 1)%Qc ->
  (- quantileQ (sortQ l) (1 - c1) <= - quantileQ (sortQ l) (1 - c2))%Qc.
Proof.
  intros Hne H0 H12 H1. apply Qcopp_le_compat.
  apply quantileQ_mono.
  - apply sortQ_ascending.
  - intros E. apply (f_equal (@List.length Qc)) in E.
    rewrite sortQ_length in E. destruct l; [congruence | discriminate].
  - now apply Qc_sub_nonneg.
  - apply Qc_le_of_sub.
    replace (1 - c1 - (1 - c2))%Qc with (c2 - c1)%Qc by ring.
    now apply Qc_sub_nonneg.
Qed.



(** On binary64 and the sample market the dashboard returns a VaR at
    99% above the VaR at 95%. *)
Example var_AB_ordered :
  exists vol v95 v99,
    snd (show_risk_dashboard Sample.yf Sample.libm_pow Sample.gauss Sample.portfolio_AB) = Ok (Some (vol, v95, v99))
    /\ PrimFloat.leb v95 v99 = true.
Proof. eexists _, _, _. split; [vm_compute; reflexivity | reflexivity]. Qed.

(* ----------------------------------------------------------------- *)
(** ** The diagonal of the correlation matrix, in exact arithmetic *)

Lemma Qc_canon_gcd (s : Qc) : Z.gcd (Qnum s) (QDen s) = 1%Z.
Proof. apply Qred_iff. apply (canon s). Qed.

(** The exact square root of a square. *)
Lemma xq_sqrt_square (s : Qc) :
  (0 <= s)%Qc -> fsqrt (Some (s * s)%Qc : xq) = Some s.
Proof.
  intros H0. destruct s as [[n d] Hc] eqn:Es.
  assert (Hn : (0 <= n)%Z).
  { unfold Qcle, Qle in H0. cbn in H0. lia. }
  assert (Hg : Z.gcd n (Zpos d) = 1%Z).
  { pose proof (Qc_canon_gcd s) as G. rewrite Es in G. exact G. }
  assert (Hsq : this (Qcmake (n # d) Hc * Qcmake (n # d) Hc)%Qc
                = ((n * n) # (d * d))).
  { unfold Qcmult, Q2Qc. cbn [this]. unfold Qmult. cbn [Qnum Qden].
    apply Qred_iff. cbn [Qnum Qden].
    rewrite Pos2Z.inj_mul.
    change (Z.coprime (n * n) (Z.pos d * Z.pos d)).
    apply Z.coprime_mul_l; apply Z.coprime_mul_r; exact Hg. }
  cbn [fsqrt xq_num XQ.sqrt]. rewrite Hsq. cbn [Qnum Qden].
  rewrite Pos2Z.inj_mul.
  rewrite !Z.sqrt_square by lia.
  assert (E1 : (0 <=? n * n)%Z = true) by (apply Z.leb_le; nia).
  rewrite E1, !Z.eqb_refl. cbn [andb].
  f_equal. apply Qc_is_canon. cbn [this Q2Qc].
  rewrite Qred_correct. rewrite Pos2Z.id. reflexivity.
Qed.

Lemma Qc_square_nonneg (a : Qc) : (0 <= a * a)%Qc.
Proof.
  destruct (Qclt_le_dec a 0) as [Hneg | Hpos].
  - replace (a * a)%Qc with ((- a) * (- a))%Qc by ring.
    assert (H : (0 <= - a)%Qc).
    { replace 0%Qc with (- 0)%Qc by ring. apply Qcopp_le_compat.
      now apply Qclt_le_weak. }
    now apply Qc_mul_nonneg.
  - now apply Qc_mul_nonneg.
Qed.

Lemma Qc_of_Z_le (a b : Z) : (a <= b)%Z -> (Qc_of_Z a <= Qc_of_Z b)%Qc.
Proof.
  intros Hab. unfold Qcle. rewrite !Qc_of_Z_Q. now rewrite <- Zle_Qle.
Qed.

Lemma Qc_inv_nonneg (a : Qc) : (0 <= a)%Qc -> (0 <= / a)%Qc.
Proof.
  intros Ha. unfold Qcle, Qcinv, Q2Qc. cbn [this].
  rewrite (Qred_correct (/ a)). apply Qinv_le_0_compat. exact Ha.
Qed.

(** One step of the running sums of a column paired with itself, on a
    finite value: the sum of squared deviations grows by a square times
    [(n - 1) / n]. *)
Lemma welford_increment (v m : Qc) (n : Z) :
  (1 <= n)%Z ->
  (0 <= (v - (m + 1 / Qc_of_Z n * (v - m))) * (v - m))%Qc.
Proof.
  intros Hn.
  assert (Hn0 : Qc_of_Z n <> 0%Qc) by (apply Qc_of_Z_neq0; lia).
  replace ((v - (m + 1 / Qc_of_Z n * (v - m))) * (v - m))%Qc
    with (((v - m) * (v - m)) * ((Qc_of_Z n - 1) * / Qc_of_Z n))%Qc
    by (field; exact Hn0).
  apply Qc_mul_nonneg; [apply Qc_square_nonneg |].
  apply Qc_mul_nonneg.
  - apply Qc_sub_nonneg. change 1%Qc with (Qc_of_Z 1). now apply Qc_of_Z_le.
  - apply Qc_inv_nonneg. change 0%Qc with (Qc_of_Z 0). apply Qc_of_Z_le. lia.
Qed.

(** The sums of a column paired with itself stay numbers, and the sum of
    squared deviations is never negative. *)
Lemma self_welford_exact (c : list xq) (st : @welford xq) :
  (0 <= nobs st)%Z ->
  (exists m, meanx st = Some m) ->
  (exists s, ssqdm_x st = Some s /\ (0 <= s)%Qc) ->
  let st' := fold_left welford_step (combine c c) st in
  (0 <= nobs st')%Z
  /\ (exists m, meanx st' = Some m)
  /\ (exists s, ssqdm_x st' = Some s /\ (0 <= s)%Qc).
Proof.
  revert st. induction c as [| [v |] c IH]; intros st Hn Hm Hs; cbn zeta.
  - auto.
  - cbn [combine fold_left]. apply IH.
    + unfold welford_step. cbn. lia.
    + destruct Hm as [m Em]. unfold welford_step. cbn [isfinite xq_num XQ.isnan negb andb].
      cbn [meanx]. rewrite Em, !xq_of_Z, xq_sub.
      rewrite xq_div by (apply Qc_of_Z_neq0; lia).
      rewrite xq_mul, xq_add. eauto.
    + destruct Hm as [m Em]. destruct Hs as (s & Es & Hs0).
      unfold welford_step. cbn [isfinite xq_num XQ.isnan negb andb].
      cbn [ssqdm_x]. rewrite Em, Es, !xq_of_Z, xq_sub.
      rewrite xq_div by (apply Qc_of_Z_neq0; lia).
      rewrite xq_mul, xq_add, xq_sub, xq_mul, xq_add.
      eexists. split; [reflexivity |].
      replace 0%Qc with (0 + 0)%Qc by ring.
      apply Qcplus_le_compat; [exact Hs0 |].
      change (Qc_of_Z 1) with 1%Qc. apply welford_increment. lia.
  - cbn [combine fold_left]. apply IH; assumption.
Qed.

Lemma xq_round2_one : round2 (Some 1%Qc : xq) = Some 1%Qc.
Proof.
  unfold round2. rewrite xq_of_Z, xq_mul.
  replace (1 * Qc_of_Z 100)%Qc with (Qc_of_Z 100) by ring.
  assert (E : rint (Some (Qc_of_Z 100) : xq) = Some (Qc_of_Z 100)).
  { cbn [rint xq_num XQ.rint].
    replace (Qfloor (Qc_of_Z 100)) with 100%Z by reflexivity.
    replace (XQ.Qc_ltb (Qc_of_Z 100 - Q2Qc (inject_Z 100)) (Q2Qc (1 # 2)))
      with true by reflexivity.
    reflexivity. }
  rewrite E. rewrite xq_div by (apply Qc_of_Z_neq0; lia).
  f_equal. field. apply Qc_of_Z_neq0. lia.
Qed.

(** In exact arithmetic the coefficient of a column with itself is 1
    when the column has a finite value and a non-zero sum of squared
    deviations, and NaN otherwise. *)
Lemma self_corr_exact (c : list xq) :
  exists s : Qc,
    ssqdm_x (self_welford c) = Some s /\ (0 <= s)%Qc
    /\ self_corr c
       = if (nobs (self_welford c) <? 1)%Z then None
         else if Qc_eq_dec s 0 then None else Some 1%Qc.
Proof.
  destruct (@self_welford_exact c welford0) as (_ & _ & (s & Es & Hs)).
  - apply Z.le_refl.
  - exists 0%Qc. reflexivity.
  - exists 0%Qc. split; [reflexivity | apply Qcle_refl].
  - exists s. split; [exact Es |]. split; [exact Hs |].
    unfold self_corr. fold (self_welford c) in Es. rewrite Es.
    destruct (nobs (self_welford c) <? 1)%Z; [reflexivity |].
    rewrite xq_mul, xq_sqrt_square by exact Hs.
    change (eqb (Some s : xq) (of_Z 0)) with (Qeq_bool s 0).
    destruct (Qc_eq_dec s 0) as [-> | Hne].
    + reflexivity.
    + assert (E : Qeq_bool s 0 = false).
      { destruct (Qeq_bool s 0) eqn:E; [| reflexivity].
        apply Qeq_bool_iff in E. exfalso. apply Hne.
        apply Qc_is_canon. exact E. }
      rewrite E. cbn [negb]. rewrite xq_div by exact Hne.
      replace (s / s)%Qc with 1%Qc by (field; exact Hne).
      reflexivity.
Qed.

Lemma matrix_diagonal {F} `{PyNum F} (df : DataFrame F) (i : nat) :
  (i < List.length (df_cols df))%nat ->
  matrix_entry (round2_matrix (df_corr df)) i i
  = round2 (self_corr (column_at df i)).
Proof.
  intros Hi. rewrite matrix_entry_corr by exact Hi.
  unfold corr_entry. rewrite Nat.leb_refl. now rewrite corr_pair_self.
Qed.





(* ----------------------------------------------------------------- *)
(** ** The statements at sample inputs *)

Lemma C3_weighted_volatility_witness :
  vol_ponderee Sample.equal_weights (calc_volatility Sample.opposite_returns)
  = fsum (weighted_vols Sample.equal_weights (calc_volatility Sample.opposite_returns)).
Proof.
  apply (proj1 (proj2 (C3_weighted_volatility Sample.equal_weights
                         (calc_volatility Sample.opposite_returns)))).
  reflexivity.
Defined.

Lemma C6_provider_total_witness :
  exists trace price_df missing,
    get_price_history Sample.yf ["A"; "N"; "Z"; "B"]%string
    = (trace, Ok (price_df, missing))
    /\ missing = ["Z"]%string
    /\ (In "A"%string (columns price_df) \/ In "A"%string missing
        \/ exists h, Sample.yf "A" = FetchClose h /\ h <> [] /\ all_nan h).
Proof.
  destruct (C6_provider_total Sample.yf ["A"; "N"; "Z"; "B"]%string)
    as (trace & price_df & missing & E & Hm & Hall & _).
  exists trace, price_df, missing. split; [exact E |]. split; [exact Hm |].
  apply Hall. now left.
Defined.

(* ================================================================= *)
(** * Further properties of the code *)

(* ----------------------------------------------------------------- *)
(** ** The price frame and the returns frame *)
Lemma insert_date_sorted (d : Date) (l : list Date) :
  StronglySorted Z.lt l -> StronglySorted Z.lt (insert_date d l).
Proof.
  induction l as [| x l IH]; intros Hs; cbn.
  - repeat constructor.
  - inversion Hs as [| ? ? Hs' Hall]; subst.
    destruct (d <? x)%Z eqn:E1.
    + apply Z.ltb_lt in E1. constructor; [exact Hs |].
      constructor; [exact E1 |].
      eapply Forall_impl; [| exact Hall]. cbn. intros; lia.
    + destruct (d =? x)%Z eqn:E2; [exact Hs |].
      apply Z.ltb_ge in E1. apply Z.eqb_neq in E2.
      constructor; [auto |].
      apply Forall_forall. intros y Hy. apply insert_date_in in Hy.
      destruct Hy as [-> | Hy]; [lia |].
      rewrite Forall_forall in Hall. auto.
Qed.

Lemma sorted_union_sorted (a b : list Date) :
  StronglySorted Z.lt (sorted_union a b).
Proof.
  unfold sorted_union.
  assert (G : forall l acc, StronglySorted Z.lt acc ->
                StronglySorted Z.lt (fold_left (fun acc d => insert_date d acc) l acc)).
  { induction l as [| d l IH]; intros acc Hs; cbn [fold_left]; [exact Hs |].
    apply IH. now apply insert_date_sorted. }
  apply G. constructor.
Qed.

Lemma index_union_sorted (a b : list Date) :
  StronglySorted Z.lt a -> StronglySorted Z.lt b ->
  StronglySorted Z.lt (index_union a b).
Proof.
  intros Ha Hb. unfold index_union.
  destruct a as [| x a], b as [| y b]; try assumption.
  destruct (dates_eqb (x :: a) (y :: b)); [exact Ha | apply sorted_union_sorted].
Qed.

Section FrameInvariants.
Context {F : Type} `{PyNum F}.

Lemma union_index_sorted (hs : list (History F)) :
  Forall ascending_history hs -> StronglySorted Z.lt (union_index hs).
Proof.
  unfold union_index. destruct hs as [| h rest]; [constructor |].
  intros Hall. inversion Hall as [| ? ? Hh Hrest]; subst. clear Hall.
  revert Hh. unfold ascending_history at 1. generalize (map fst h) as acc.
  induction rest as [| h1 rest IH]; intros acc Hs; cbn [fold_left]; [exact Hs |].
  inversion Hrest as [| ? ? Hh1 Hrest']; subst.
  apply IH; [exact Hrest' |]. now apply index_union_sorted.
Qed.
End FrameInvariants.

Lemma dict_set_keys {V} (d : list (string * V)) (k k' : string) (v : V) :
  In k' (map fst (dict_set d k v)) <-> k' = k \/ In k' (map fst d).
Proof.
  induction d as [| [k0 v0] d IH]; cbn.
  - intuition.
  - destruct (String.eqb k0 k) eqn:E; cbn.
    + apply String.eqb_eq in E. subst k0. intuition.
    + rewrite IH. intuition.
Qed.

Lemma dict_set_nodup {V} (d : list (string * V)) (k : string) (v : V) :
  NoDup (map fst d) -> NoDup (map fst (dict_set d k v)).
Proof.
  induction d as [| [k0 v0] d IH]; cbn; intros Hn.
  - constructor; [intros [] | constructor].
  - inversion Hn as [| ? ? Hnin Hn']; subst.
    destruct (String.eqb k0 k) eqn:E; cbn.
    + constructor; assumption.
    + constructor; [| auto].
      intros Hin. apply dict_set_keys in Hin. destruct Hin as [-> | Hin]; [| auto].
      rewrite String.eqb_refl in E. discriminate.
Qed.

Lemma dict_filter_nodup {V} (d : list (string * V)) (pick : string * V -> bool) :
  NoDup (map fst d) -> NoDup (map fst (filter pick d)).
Proof.
  intros Hn. induction d as [| kv d IH]; cbn; [constructor |].
  inversion Hn as [| ? ? Hnin Hn']; subst.
  destruct (pick kv); cbn; [| auto].
  constructor; [| auto].
  intros Hin. apply Hnin. apply in_map_iff in Hin.
  destruct Hin as (y & Ey & Hy). apply filter_In in Hy.
  apply in_map_iff. exists y. tauto.
Qed.

Section ProviderInvariants.
Context {F : Type} `{PyNum F}.
Variable yf : string -> fetch F.

Lemma fetch_loop_nodup (tickers : list string) ph ms t ph' ms' :
  fetch_loop yf tickers ph ms = (t, Ok (ph', ms')) ->
  NoDup (map fst ph) -> NoDup (map fst ph').
Proof.
  revert ph ms t. induction tickers as [| tk rest IH]; intros ph ms t; cbn.
  - intros [= _ <- _]. auto.
  - destruct (yf tk) as [| [| p h]] eqn:Eyf.
    + unfold bind, emit.
      destruct (fetch_loop yf rest ph (ms ++ [tk])) as [t1 r1] eqn:E1.
      intros [= _ ->]. eauto.
    + eauto.
    + intros E1 Hn. eapply IH; [exact E1 |]. now apply dict_set_nodup.
Qed.

Lemma dict_set_values {V} (P : V -> Prop) (d : list (string * V)) (k : string) (v : V) :
  Forall P (map snd d) -> P v -> Forall P (map snd (dict_set d k v)).
Proof.
  intros Hd Hv. induction d as [| [k0 v0] d IH]; cbn.
  - constructor; [exact Hv | constructor].
  - cbn in Hd. inversion Hd as [| ? ? H0 Hd']; subst.
    destruct (String.eqb k0 k); cbn; constructor; auto.
Qed.

(** The histories in the dict are histories that the fetches returned. *)
Lemma fetch_loop_values (P : History F -> Prop) (tickers : list string) ph ms t ph' ms' :
  (forall tk h, yf tk = FetchClose h -> P h) ->
  fetch_loop yf tickers ph ms = (t, Ok (ph', ms')) ->
  Forall P (map snd ph) -> Forall P (map snd ph').
Proof.
  intros Hyf. revert ph ms t. induction tickers as [| tk rest IH]; intros ph ms t; cbn.
  - intros [= _ <- _]. auto.
  - destruct (yf tk) as [| [| p h]] eqn:Eyf.
    + unfold bind, emit.
      destruct (fetch_loop yf rest ph (ms ++ [tk])) as [t1 r1] eqn:E1.
      intros [= _ ->]. eauto.
    + eauto.
    + intros E1 Hn. eapply IH; [exact E1 |].
      apply dict_set_values; [exact Hn | now apply (Hyf tk)].
Qed.

Lemma frame_of_dict_well_formed (d : list (string * History F)) :
  NoDup (map fst d) -> Forall ascending_history (map snd d) ->
  well_formed (dropna_cols_all (frame_of_dict d)).
Proof.
  intros Hn Ha. unfold well_formed, dropna_cols_all, frame_of_dict, columns.
  cbn [df_index df_cols]. split; [now apply union_index_sorted |]. split.
  - apply Forall_forall. intros c Hc. apply filter_In in Hc. destruct Hc as [Hc _].
    apply in_map_iff in Hc. destruct Hc as (kv & <- & _). cbn.
    apply reindex_length.
  - apply dict_filter_nodup. rewrite map_map. cbn. exact Hn.
Qed.

Lemma count_valid_pos (l : list F) :
  (0 < count_valid l)%nat -> exists x, In x l /\ isnan x = false.
Proof.
  unfold count_valid. intros Hc.
  destruct (filter (fun x => negb (isnan x)) l) as [| x r] eqn:E; [cbn in Hc; lia |].
  assert (Hin : In x (filter (fun x => negb (isnan x)) l)) by (rewrite E; now left).
  apply filter_In in Hin. destruct Hin as [Hin Hx].
  exists x. split; [exact Hin |]. now apply negb_true_iff in Hx.
Qed.
End ProviderInvariants.


Section ReturnsInvariants.
Context {F : Type} `{PyNum F}.

Lemma ffill_from_length (last : F) (l : list F) :
  List.length (ffill_from last l) = List.length l.
Proof.
  revert last. induction l as [| x l IH]; intros last; cbn; [reflexivity |].
  destruct (isnan x); cbn; now rewrite IH.
Qed.

Lemma map2_length {A B C} (f : A -> B -> C) (l : list A) (l' : list B) :
  List.length (map2 f l l') = Nat.min (List.length l) (List.length l').
Proof.
  revert l'. induction l as [| x l IH]; intros [| y l']; cbn; auto.
Qed.

Lemma pct_change_col_length (l : list F) :
  List.length (pct_change_col l) = List.length l.
Proof.
  unfold pct_change_col. rewrite <- (ffill_from_length nan l).
  destruct (ffill_from nan l) as [| x t]; [reflexivity |].
  cbn [List.length]. rewrite map2_length. cbn [List.length]. lia.
Qed.

(** The first entry of a percentage change is NaN. *)
Lemma pct_change_col_head (l : list F) :
  nth 0 (pct_change_col l) nan = nan.
Proof.
  unfold pct_change_col. destruct (ffill_from nan l); reflexivity.
Qed.

Lemma keep_length_le {A} (m : list bool) (l : list A) :
  (List.length (keep m l) <= List.length l)%nat.
Proof.
  revert l. induction m as [| b m IH]; intros [| x l]; cbn; try lia.
  specialize (IH l). destruct b; cbn; lia.
Qed.

Lemma keep_length_eq {A B} (m : list bool) (l : list A) (l' : list B) :
  List.length l = List.length l' ->
  List.length (keep m l) = List.length (keep m l').
Proof.
  revert l l'. induction m as [| b m IH]; intros [| x l] [| y l']; cbn;
    try reflexivity; try discriminate.
  intros [= E]. destruct b; cbn; auto.
Qed.

Lemma keep_in {A} (P : nat -> bool) (s n : nat) (l : list A) (x : A) :
  In x (keep (map P (seq s n)) l) ->
  exists i, (i < n)%nat /\ P (s + i)%nat = true /\ nth_error l i = Some x.
Proof.
  revert s l. induction n as [| n IH]; intros s l; cbn; [intros [] |].
  destruct l as [| y l]; [intros [] |].
  destruct (P s) eqn:Ep.
  - intros [-> | Hin].
    + exists 0%nat. rewrite Nat.add_0_r. repeat split; [lia | exact Ep].
    + apply IH in Hin. destruct Hin as (i & Hi & Hp & Hn).
      exists (S i). rewrite Nat.add_succ_r. repeat split; [lia | exact Hp | exact Hn].
  - intros Hin. apply IH in Hin. destruct Hin as (i & Hi & Hp & Hn).
    exists (S i). rewrite Nat.add_succ_r. repeat split; [lia | exact Hp | exact Hn].
Qed.

Lemma keep_sublist_in {A} (m : list bool) (l : list A) (x : A) :
  In x (keep m l) -> In x l.
Proof.
  revert l. induction m as [| b m IH]; intros [| y l]; cbn; try tauto.
  destruct b; cbn; intuition.
Qed.

Lemma keep_sorted (m : list bool) (l : list Date) :
  StronglySorted Z.lt l -> StronglySorted Z.lt (keep m l).
Proof.
  revert l. induction m as [| b m IH]; intros [| y l] Hs; cbn; try constructor.
  inversion Hs as [| ? ? Hs' Hall]; subst.
  destruct b; [| auto].
  constructor; [auto |].
  apply Forall_forall. intros z Hz. apply keep_sublist_in in Hz.
  rewrite Forall_forall in Hall. auto.
Qed.

Lemma pct_change_well_formed (df : DataFrame F) :
  well_formed df -> well_formed (pct_change df).
Proof.
  intros (Hs & Hl & Hn). unfold well_formed, pct_change, columns. cbn [df_index df_cols].
  split; [exact Hs |]. split.
  - apply Forall_forall. intros c Hc. apply in_map_iff in Hc.
    destruct Hc as (c0 & <- & Hc0). cbn. rewrite pct_change_col_length.
    rewrite Forall_forall in Hl. auto.
  - rewrite map_map. cbn. exact Hn.
Qed.

Lemma dropna_rows_well_formed (df : DataFrame F) :
  well_formed df -> well_formed (dropna_rows df).
Proof.
  intros (Hs & Hl & Hn). unfold well_formed, dropna_rows, columns. cbn [df_index df_cols].
  split; [now apply keep_sorted |]. split.
  - apply Forall_forall. intros c Hc. apply in_map_iff in Hc.
    destruct Hc as (c0 & <- & Hc0). cbn. apply keep_length_eq.
    rewrite Forall_forall in Hl. auto.
  - rewrite map_map. cbn. exact Hn.
Qed.

(** No value of a frame that went through [dropna()] is NaN. *)
Lemma dropna_rows_no_nan (df : DataFrame F) (c : string * list F) (x : F) :
  In c (df_cols (dropna_rows df)) -> In x (snd c) -> isnan x = false.
Proof.
  unfold dropna_rows. cbn [df_cols]. intros Hc Hx.
  apply in_map_iff in Hc. destruct Hc as (c0 & <- & Hc0). cbn [snd] in Hx.
  apply keep_in in Hx. destruct Hx as (i & _ & Hp & Hn). cbn in Hp.
  rewrite forallb_forall in Hp.
  apply negb_true_iff. apply Hp.
  unfold row_at. apply in_map_iff. exists c0. split; [| exact Hc0].
  apply nth_error_nth. exact Hn.
Qed.

(** When the first row holds a NaN in some column, [dropna()] leaves at
    most all rows but the first, and the first date is gone. *)
Lemma dropna_rows_first (df : DataFrame F) (c : string * list F) :
  In c (df_cols df) -> isnan (nth 0 (snd c) nan) = true ->
  (List.length (df_index (dropna_rows df)) <= List.length (df_index df) - 1)%nat
  /\ forall d0 rest, df_index df = d0 :: rest ->
                     df_index (dropna_rows df) = keep (map (fun i => forallb (fun x => negb (isnan x)) (row_at (df_cols df) i)) (seq 1 (List.length rest))) rest.
Proof.
  intros Hc Hnan. unfold dropna_rows. cbn [df_index].
  assert (H0 : forallb (fun x => negb (isnan x)) (row_at (df_cols df) 0) = false).
  { apply not_true_iff_false. intros Hall. rewrite forallb_forall in Hall.
    specialize (Hall (nth 0 (snd c) nan)). rewrite Hnan in Hall.
    assert (false = true); [| discriminate]. apply Hall.
    unfold row_at. apply in_map_iff. exists c. auto. }
  destruct (df_index df) as [| d0 rest]; [cbn; split; [lia | discriminate] |].
  cbn [List.length seq map keep]. rewrite H0. split.
  - pose proof (keep_length_le (map (fun i => forallb (fun x => negb (isnan x)) (row_at (df_cols df) i)) (seq 1 (List.length rest))) rest). lia.
  - intros d0' rest' [= <- <-]. reflexivity.
Qed.
End ReturnsInvariants.

(* ----------------------------------------------------------------- *)
(** ** The outcomes of a dashboard run *)

Lemma snd_bind {F A B} (m : M F A) (k : A -> M F B) :
  snd (bind m k) = rbind (snd m) (fun a => snd (k a)).
Proof.
  destruct m as [t [a | e]]; cbn; [| reflexivity].
  destruct (k a); reflexivity.
Qed.

Lemma dot_length {F} `{PyNum F} (df : DataFrame F) (w : TSeries F) :
  List.length (dot df w) = List.length (df_index df).
Proof. unfold dot. now rewrite length_map, length_seq. Qed.

(** The confidence levels of the dashboard pass the range check of
    [np.percentile] on binary64. *)
Lemma dashboard_levels_valid (c : float) :
  c = lit 95 100 \/ c = lit 99 100 ->
  negb (leb (of_Z 0) (((of_Z 1 - c) * of_Z 100) / of_Z 100)%num
        && leb (((of_Z 1 - c) * of_Z 100) / of_Z 100)%num (of_Z 1)) = false.
Proof. intros [-> | ->]; reflexivity. Qed.

Lemma calc_var_float (series : list float) (c : float) :
  c = lit 95 100 \/ c = lit 99 100 ->
  snd (calc_var series c)
  = match series with
    | [] => Raise IndexError
    | _ :: _ => Ok (- quantile_linear series (((of_Z 1 - c) * of_Z 100) / of_Z 100))%num
    end.
Proof.
  intros Hc. unfold calc_var. rewrite !snd_bind. cbn [snd emit lift ret rbind].
  unfold np_percentile. rewrite (dashboard_levels_valid Hc).
  destruct series; reflexivity.
Qed.

Lemma rmap_total {A B} (f : A -> result B) (P : A -> B -> Prop) (l : list A) :
  (forall x, In x l -> exists y, f x = Ok y /\ P x y) ->
  exists ys, rmap f l = Ok ys /\ Forall2 P l ys.
Proof.
  induction l as [| x l IH]; intros Hf.
  - exists []. split; [reflexivity | constructor].
  - destruct (Hf x (or_introl eq_refl)) as (y & Ey & Hy).
    destruct IH as (ys & Eys & Hys); [intros x' Hx'; apply Hf; now right |].
    exists (y :: ys). cbn [rmap]. rewrite Ey, Eys. split; [reflexivity |].
    now constructor.
Qed.

(* ----------------------------------------------------------------- *)
(** ** The projections of the dashboard never fail on binary64 *)

Lemma unsigned_fold_add (l : list float) (acc : float) :
  unsigned acc -> Forall unsigned l -> unsigned (fold_left PrimFloat.add l acc).
Proof.
  revert acc. induction l as [| x l IH]; intros acc Ha Hl; cbn [fold_left]; [exact Ha |].
  inversion Hl as [| ? ? Hx Hl']; subst. apply IH; [| exact Hl'].
  now apply unsigned_add.
Qed.

Lemma unsigned_fsum (l : list float) : Forall unsigned l -> unsigned (fsum l).
Proof. intros Hl. unfold fsum. now apply unsigned_fold_add. Qed.

Lemma unsigned_nansum (l : list float) : Forall unsigned l -> unsigned (nansum l).
Proof.
  intros Hl. unfold nansum.
  assert (G : forall acc : float, unsigned acc ->
                unsigned (fold_left (fun acc x => if isnan x then acc else (acc + x)%num)
                                    l acc)).
  { induction Hl as [| x l Hx Hl IH]; intros acc Ha; cbn [fold_left]; [exact Ha |].
    apply IH. destruct (isnan x); [exact Ha | now apply unsigned_add]. }
  apply G. reflexivity.
Qed.

Lemma unsigned_nanmean (l : list float) : Forall unsigned l -> unsigned (nanmean l).
Proof.
  intros Hl. unfold nanmean. apply unsigned_div; [now apply unsigned_nansum |].
  apply unsigned_of_Z. lia.
Qed.

(** A standard deviation is never negative. *)
Lemma unsigned_nanstd (l : list float) : unsigned (nanstd l).
Proof.
  unfold nanstd. destruct (count_valid l <=? 1)%nat eqn:En; [reflexivity |].
  apply Nat.leb_gt in En. cbn [fsqrt float_num]. apply unsigned_sqrt.
  apply unsigned_div; [| apply unsigned_of_Z; lia].
  apply unsigned_fsum. apply Forall_forall. intros v Hv.
  apply in_map_iff in Hv. destruct Hv as (x & <- & _).
  destruct (isnan x); [reflexivity | apply unsigned_square].
Qed.

Lemma unsigned_volatility (df : DataFrame float) :
  Forall unsigned (map snd (calc_volatility df)).
Proof.
  unfold calc_volatility, df_std. rewrite !map_map. cbn [snd fst].
  apply Forall_forall. intros v Hv. apply in_map_iff in Hv.
  destruct Hv as (c & <- & _).
  apply unsigned_mul; [apply unsigned_nanstd | reflexivity].
Qed.

Section Simulations.
Variable gauss : nat -> nat -> nat -> float.

(** [np.random.normal] accepts a scale that is not negative. *)
Lemma np_random_normal_unsigned (loc scale z : float) :
  unsigned scale -> np_random_normal loc scale z = Ok (loc + scale * z)%float.
Proof.
  intros Hs. unfold np_random_normal. cbn [signbit float_num].
  rewrite get_sign_spec, Hs. now rewrite andb_false_r.
Qed.

Lemma sim_path_ok (loc scale : float) (y s : nat) (n : nat) :
  unsigned scale ->
  forall val k, exists v, sim_path gauss loc scale val y s k n = Ok v.
Proof.
  intros Hs. induction n as [| n IH]; intros val k; cbn [sim_path]; [eauto |].
  rewrite (np_random_normal_unsigned _ _ Hs). cbn [rbind]. apply IH.
Qed.

Lemma sim_values_ok (V r vol : float) (y : nat) :
  unsigned vol ->
  exists sims, sim_values gauss V r vol y = Ok sims
               /\ List.length sims = SIMULATIONS.
Proof.
  intros Hv. unfold sim_values.
  destruct (@rmap_total _ _ (fun s => sim_path gauss (r / of_Z 100)%num
                                        (vol / of_Z 100)%num V y s 0 y)
                        (fun _ _ => True) (seq 0 SIMULATIONS)) as (sims & E & Hl).
  { intros s _. destruct (@sim_path_ok (r / of_Z 100)%num (vol / of_Z 100)%num y s y)
      with (val := V) (k := 0%nat) as [v Ev].
    - apply unsigned_div; [exact Hv | reflexivity].
    - eauto. }
  exists sims. split; [exact E |].
  apply Forall2_length in Hl. now rewrite length_seq in Hl.
Qed.

(** The percentiles 5 and 95 are in range and the simulated values are
    not empty. *)
Lemma stoch_percentile_ok (sims : list float) (q : float) :
  q = of_Z 5 \/ q = of_Z 95 -> sims <> [] ->
  np_percentile sims q = Ok (quantile_linear sims (q / of_Z 100)%num).
Proof.
  intros Hq Hne. unfold np_percentile.
  replace (negb (leb (of_Z 0) (q / of_Z 100)%num && leb (q / of_Z 100)%num (of_Z 1)))
    with false by (destruct Hq as [-> | ->]; reflexivity).
  destruct sims; [congruence | reflexivity].
Qed.

Lemma proj_stoch_ok (V r vol : float) :
  unsigned vol -> exists rows, proj_stoch gauss V r vol = Ok rows.
Proof.
  intros Hv. unfold proj_stoch.
  destruct (@rmap_total _ _
              (fun y => rbind (sim_values gauss V r vol y) (fun sims =>
                 let mediane := np_median sims in
                 rbind (np_percentile sims (of_Z 5)) (fun min5 =>
                 rbind (np_percentile sims (of_Z 95)) (fun max95 =>
                 Ok (y, (mediane, min5, max95))))))
              (fun _ _ => True) YEARS) as (rows & E & _); [| eauto].
  intros y _. destruct (sim_values_ok V r y Hv) as (sims & -> & Hl).
  cbn [rbind].
  assert (Hne : sims <> []).
  { intros ->. discriminate Hl. }
  rewrite !stoch_percentile_ok by auto. cbn [rbind]. eauto.
Qed.

(** The projection tab of the dashboard: the rate is 0, [1.0 ** y] is
    [1.0], and the volatility handed over is not negative. *)
Lemma show_projections_ok (libm_pow : float -> nat -> result float) (V vol : float) :
  unsigned vol ->
  snd (show_projections libm_pow gauss V (of_Z 0) vol) = Ok tt.
Proof.
  intros Hv. unfold show_projections. rewrite !snd_bind. cbn [snd emit rbind].
  rewrite proj_moy_zero_rate. cbn [lift snd rbind].
  rewrite !snd_bind. cbn [snd emit rbind].
  destruct (proj_stoch_ok V (of_Z 0) Hv) as [rows ->]. cbn [lift snd rbind].
  rewrite !snd_bind. reflexivity.
Qed.

Lemma show_tabs_ok (libm_pow : float -> nat -> result float)
      (returns sel : DataFrame float)
      (df_valid weights vol : TSeries float) (v95 v99 : float) :
  select returns (map fst weights) = Ok sel ->
  Forall unsigned (map snd vol) ->
  snd (show_tabs libm_pow gauss returns df_valid weights vol v95 v99) = Ok tt.
Proof.
  intros E Hvol. unfold show_tabs. rewrite !snd_bind. cbn [snd emit rbind].
  rewrite E. cbn [lift snd rbind]. rewrite !snd_bind. cbn [snd emit rbind].
  apply show_projections_ok.
  apply unsigned_mul; [now apply unsigned_nanmean | reflexivity].
Qed.
End Simulations.

Lemma valid_rows_aligned {F} `{PyNum F} (p : TSeries F) (returns : DataFrame F) :
  forall t, In t (map fst (weights_of (valid_rows p returns))) -> In t (columns returns).
Proof.
  intros t Ht. rewrite weights_of_index in Ht. apply in_map_iff in Ht.
  destruct Ht as (r & <- & Hr). apply valid_rows_spec in Hr. tauto.
Qed.

(** The result of a dashboard run on binary64, once the price frame is
    known not to be empty. *)
Lemma dashboard_outcome (yf : string -> fetch float) (libm_pow : float -> nat -> result float)
        (gauss : nat -> nat -> nat -> float) (p : TSeries float)
      t0 price_df missing :
  get_price_history yf (map fst p) = (t0, Ok (price_df, missing)) ->
  df_empty price_df = false ->
  let returns := returns_of price_df in
  let weights := weights_of (valid_rows p returns) in
  exists sel,
    select returns (map fst weights) = Ok sel
    /\ snd (show_risk_dashboard yf libm_pow gauss p)
       = match dot sel weights with
         | [] => Raise IndexError
         | _ :: _ =>
             Ok (Some (calc_volatility sel,
                       (- quantile_linear (dot sel weights)
                            (((of_Z 1 - lit 95 100) * of_Z 100) / of_Z 100))%num,
                       (- quantile_linear (dot sel weights)
                            (((of_Z 1 - lit 99 100) * of_Z 100) / of_Z 100))%num))
         end.
Proof.
  intros E He returns weights.
  pose proof (select_aligned returns (map fst weights)
                (valid_rows_aligned p returns)) as Esel.
  eexists. split; [exact Esel |].
  unfold show_risk_dashboard. rewrite !snd_bind. cbn [snd emit rbind].
  rewrite E. cbn [snd rbind fst].
  rewrite snd_bind.
  assert (Hm : snd (match missing return M float unit with
                    | [] => ret tt
                    | _ :: _ => emit (StWarning ("Aucun historique pour : "
                                                   ++ String.concat ", " missing))
                    end) = Ok tt) by (destruct missing; reflexivity).
  rewrite Hm. clear Hm.
  cbn [rbind]. rewrite He.
  fold (returns_of price_df). fold returns. fold weights.
  rewrite snd_bind. rewrite Esel. cbn [lift snd rbind].
  rewrite snd_bind.
  unfold compute_portfolio_var at 1. rewrite snd_bind. rewrite Esel.
  cbn [lift snd rbind]. rewrite calc_var_float by now left.
  set (sel := {| df_index := _; df_cols := _ |}) in *.
  destruct (dot sel weights) as [| x0 series] eqn:Ed; [reflexivity |].
  cbn [rbind]. rewrite snd_bind.
  unfold compute_portfolio_var at 1. rewrite snd_bind. rewrite Esel.
  cbn [lift snd rbind]. rewrite calc_var_float by now right.
  rewrite Ed. cbn [rbind]. rewrite snd_bind.
  erewrite show_tabs_ok; [reflexivity | exact Esel | apply unsigned_volatility].
Qed.

(* ----------------------------------------------------------------- *)
(** ** NaN in binary64 sums and products *)

Lemma float_add_nan_r (x : float) : (x + PrimFloat.nan)%float = PrimFloat.nan.
Proof.
  apply Prim2SF_inj. rewrite FloatAxioms.add_spec.
  change (Prim2SF PrimFloat.nan) with S754_nan.
  unfold SF64add, SFadd. destruct (Prim2SF x) as [s | s | | s m e]; try reflexivity.
  all: destruct s; reflexivity.
Qed.

Lemma float_add_nan_l (x : float) : (PrimFloat.nan + x)%float = PrimFloat.nan.
Proof.
  apply Prim2SF_inj. rewrite FloatAxioms.add_spec.
  change (Prim2SF PrimFloat.nan) with S754_nan. reflexivity.
Qed.

Lemma float_mul_nan_r (x : float) : (x * PrimFloat.nan)%float = PrimFloat.nan.
Proof.
  apply Prim2SF_inj. rewrite FloatAxioms.mul_spec.
  change (Prim2SF PrimFloat.nan) with S754_nan.
  unfold SF64mul, SFmul. destruct (Prim2SF x) as [s | s | | s m e]; reflexivity.
Qed.

Lemma float_mul_nan_l (x : float) : (PrimFloat.nan * x)%float = PrimFloat.nan.
Proof. rewrite float_mul_comm. apply float_mul_nan_r. Qed.

Lemma float_div_nan_l (x : float) : (PrimFloat.nan / x)%float = PrimFloat.nan.
Proof.
  apply Prim2SF_inj. rewrite FloatAxioms.div_spec.
  change (Prim2SF PrimFloat.nan) with S754_nan. reflexivity.
Qed.

Lemma float_sub_nan_l (x : float) : (PrimFloat.nan - x)%float = PrimFloat.nan.
Proof.
  apply Prim2SF_inj. rewrite FloatAxioms.sub_spec.
  change (Prim2SF PrimFloat.nan) with S754_nan. reflexivity.
Qed.

Lemma fsum_from_nan (l : list float) :
  fold_left PrimFloat.add l PrimFloat.nan = PrimFloat.nan.
Proof.
  induction l as [| x l IH]; [reflexivity |].
  cbn [fold_left]. now rewrite float_add_nan_l.
Qed.

(** A sum in index order over a list that holds a NaN is NaN. *)
Lemma fsum_nan (l : list float) :
  existsb PrimFloat.is_nan l = true -> fsum l = PrimFloat.nan.
Proof.
  unfold fsum. cbn [add float_num]. generalize (of_Z 0 : float).
  induction l as [| x l IH]; intros acc; [discriminate |].
  cbn [existsb fold_left]. destruct (PrimFloat.is_nan x) eqn:Ex; cbn [orb].
  - intros _. apply float_is_nan_eq in Ex. subst x.
    rewrite float_add_nan_r. apply fsum_from_nan.
  - intros Hl. now apply IH.
Qed.

Lemma map2_mul_nan (row ws : list float) :
  List.length row = List.length ws ->
  existsb PrimFloat.is_nan ws = true ->
  existsb PrimFloat.is_nan (map2 PrimFloat.mul row ws) = true.
Proof.
  revert ws. induction row as [| r row IH]; intros [| w ws]; cbn [List.length];
    try discriminate.
  intros [= El]. cbn [existsb map2].
  destruct (PrimFloat.is_nan w) eqn:Ew; cbn [orb].
  - intros _. apply float_is_nan_eq in Ew. subst w.
    rewrite float_mul_nan_r. reflexivity.
  - intros Hl. rewrite (IH ws El Hl). apply orb_true_r.
Qed.

(** With a NaN among the weights every weighted return is NaN. *)
Lemma dot_nan_weight (sel : DataFrame float) (weights : TSeries float) :
  columns sel = map fst weights ->
  existsb PrimFloat.is_nan (map snd weights) = true ->
  Forall (fun x => x = PrimFloat.nan) (dot sel weights).
Proof.
  intros Hc Hw. unfold dot. apply Forall_forall. intros x Hx.
  apply in_map_iff in Hx. destruct Hx as (i & <- & _).
  apply fsum_nan. apply map2_mul_nan; [| exact Hw].
  unfold row_at. rewrite !length_map.
  unfold columns in Hc. apply (f_equal (@List.length string)) in Hc.
  now rewrite !length_map in Hc.
Qed.

Lemma weights_of_nan (values : TSeries float) :
  existsb PrimFloat.is_nan (map snd values) = true ->
  existsb PrimFloat.is_nan (map snd (weights_of values)) = true.
Proof.
  unfold weights_of. generalize (nansum (map snd values)). intros total.
  induction values as [| [t v] l IH]; [discriminate |].
  cbn [map snd existsb]. destruct (PrimFloat.is_nan v) eqn:Ev; cbn [orb].
  - intros _. apply float_is_nan_eq in Ev. subst v.
    cbn [div float_num]. rewrite float_div_nan_l. reflexivity.
  - intros Hl. rewrite (IH Hl). apply orb_true_r.
Qed.

Lemma quantile_linear_nan (series : list float) (q : float) :
  existsb PrimFloat.is_nan series = true ->
  quantile_linear series q = PrimFloat.nan.
Proof.
  intros Hex. unfold quantile_linear. rewrite py_nth_last.
  pose proof (np_sort_nan_last series nan Hex) as Hlast.
  rewrite Hlast.
  change (isnan (last (np_sort series) nan) = true)
    with (PrimFloat.is_nan (last (np_sort series) nan) = true) in Hlast.
  now apply float_is_nan_eq in Hlast.
Qed.

Lemma returns_index_sub {F} `{PyNum F} (price_df : DataFrame F) (d : Date) :
  In d (df_index (returns_of price_df)) -> In d (df_index price_df).
Proof.
  unfold returns_of, dropna_rows. cbn [df_index pct_change].
  apply keep_sublist_in.
Qed.

Lemma returns_rows_nonempty {F} `{PyNum F} (price_df : DataFrame F) (t : string) :
  In t (columns price_df) -> df_index (returns_of price_df) <> [] ->
  df_empty price_df = false.
Proof.
  intros Ht Hr. unfold df_empty. unfold columns in Ht.
  destruct (df_index price_df) as [| d0 rest] eqn:Ei.
  - exfalso. apply Hr. unfold returns_of, dropna_rows. cbn [df_index pct_change].
    rewrite Ei. reflexivity.
  - destruct (df_cols price_df); [destruct Ht | reflexivity].
Qed.

(** The first row of the percentage changes holds a NaN in every
    column, so [dropna()] removes it. *)
Lemma returns_first_row (price_df : DataFrame float) :
  df_cols price_df <> [] ->
  (List.length (df_index (returns_of price_df))
   <= List.length (df_index price_df) - 1)%nat.
Proof.
  intros Hc. destruct (df_cols price_df) as [| c cs] eqn:Ec; [congruence |].
  unfold returns_of.
  refine (proj1 (@dropna_rows_first _ _ (pct_change price_df)
                   (fst c, pct_change_col (snd c)) _ _)).
  - unfold pct_change. cbn [df_cols]. rewrite Ec. now left.
  - cbn [snd]. rewrite pct_change_col_head. reflexivity.
Qed.

(** X1.  When the histories that the fetches return have ascending
    dates (no date twice), as yfinance gives them, the frame that
    [get_price_history] returns is a well-formed price frame, whatever
    the tickers: its dates ascend strictly, every column has one close
    per date, no ticker names two columns even when it is requested
    twice, and every column holds at least one close that is not NaN.
    (A single history with dates out of order keeps its order in the
    frame: see [unsorted_history_kept].) *)
Theorem X1_price_frame_well_formed {F} `{PyNum F}
        (yf : string -> fetch F) (tickers : list string) :
  (forall t h, yf t = FetchClose h -> ascending_history h) ->
  exists trace price_df missing,
    get_price_history yf tickers = (trace, Ok (price_df, missing))
    /\ well_formed price_df
    /\ Forall (fun c => exists x, In x (snd c) /\ isnan x = false) (df_cols price_df).
Proof.
  intros Hyf. unfold get_price_history.
  destruct (fetch_loop_total yf tickers [] []) as (t & ph & ms & E & Ht).
  rewrite E. cbn [bind ret fst snd].
  eexists _, _, _. split; [reflexivity |]. split.
  - apply frame_of_dict_well_formed.
    + eapply fetch_loop_nodup; [exact E | constructor].
    + eapply fetch_loop_values; [exact Hyf | exact E | constructor].
  - apply Forall_forall. intros c Hc. cbn [dropna_cols_all df_cols] in Hc.
    apply filter_In in Hc.
    destruct Hc as [_ Hc]. apply Nat.ltb_lt in Hc. now apply count_valid_pos.
Qed.

Lemma sample_histories_ascending (t : string) (h : History float) :
  Sample.yf t = FetchClose h -> ascending_history h.
Proof.
  unfold Sample.yf, ascending_history.
  repeat match goal with
         | |- context [String.eqb t ?k] => destruct (String.eqb t k)
         end;
    intros E; try discriminate E; injection E as <-; cbn [map fst];
    repeat (constructor; try lia).
Qed.

Lemma X1_price_frame_well_formed_witness :
  exists trace price_df missing,
    get_price_history Sample.yf ["B"; "A"; "B"; "X"]%string
    = (trace, Ok (price_df, missing))
    /\ well_formed price_df.
Proof.
  destruct (X1_price_frame_well_formed Sample.yf ["B"; "A"; "B"; "X"]%string
              sample_histories_ascending)
    as (trace & price_df & missing & E & Hw & _).
  now exists trace, price_df, missing.
Defined.

(** A single history keeps the order of its dates in the frame, as
    [pd.DataFrame] does with the index of a single Series. *)
Example unsorted_history_kept :
  df_index (frame_of_dict [("A"%string, [(3%Z, 1%float); (1%Z, 2%float); (2%Z, 3%float)])])
  = [3; 1; 2]%Z.
Proof. reflexivity. Qed.

(** X2.  The returns frame that the dashboard derives from a
    well-formed price frame ([pct_change().dropna()]) is well formed,
    has the columns of the price frame in the same order, dates taken
    from the price frame, and no NaN value in any column. *)
Theorem X2_returns_frame_clean {F} `{PyNum F} (price_df : DataFrame F) :
  well_formed price_df ->
  let returns := returns_of price_df in
  well_formed returns
  /\ columns returns = columns price_df
  /\ (forall d, In d (df_index returns) -> In d (df_index price_df))
  /\ (forall c x, In c (df_cols returns) -> In x (snd c) -> isnan x = false).
Proof.
  intros Hw returns. split; [| split; [| split]].
  - apply dropna_rows_well_formed. now apply pct_change_well_formed.
  - apply columns_returns_of.
  - apply returns_index_sub.
  - intros c x. apply dropna_rows_no_nan.
Qed.

Lemma X2_returns_frame_clean_witness :
  well_formed Sample.exact_prices
  /\ columns (returns_of Sample.exact_prices) = ["A"; "B"]%string
  /\ (forall c x, In c (df_cols (returns_of Sample.exact_prices)) ->
                  In x (snd c) -> isnan x = false).
Proof.
  assert (Hw : well_formed Sample.exact_prices).
  { unfold well_formed, Sample.exact_prices, columns. cbn [df_index df_cols map fst].
    split; [| split].
    - repeat constructor.
    - repeat constructor.
    - constructor; [intros [E | []]; discriminate |].
      constructor; [intros [] | constructor]. }
  split; [exact Hw |].
  pose proof (X2_returns_frame_clean Hw) as (_ & Hc & _ & Hn).
  split; [exact Hc | exact Hn].
Defined.

(** X3.  On binary64, the first date of a price frame never has a
    return: with at least one column the returns frame has at most one
    row less than the price frame has dates, and the first date of a
    well-formed price frame is not a date of the returns frame. *)
Theorem X3_returns_drop_first_date (price_df : DataFrame float) :
  df_cols price_df <> [] ->
  (List.length (df_index (returns_of price_df))
   <= List.length (df_index price_df) - 1)%nat
  /\ (well_formed price_df ->
      forall d0 rest, df_index price_df = d0 :: rest ->
                      ~ In d0 (df_index (returns_of price_df))).
Proof.
  intros Hc. split; [now apply returns_first_row |].
  intros (Hs & _ & _) d0 rest Ei Hin.
  destruct (df_cols price_df) as [| c cs] eqn:Ec; [congruence |].
  assert (Hfirst : isnan (nth 0 (snd (fst c, pct_change_col (snd c))) nan) = true).
  { cbn [snd]. rewrite pct_change_col_head. reflexivity. }
  assert (Hcin : In (fst c, pct_change_col (snd c)) (df_cols (pct_change price_df))).
  { unfold pct_change. cbn [df_cols]. rewrite Ec. now left. }
  pose proof (proj2 (dropna_rows_first (pct_change price_df) _ Hcin Hfirst)
                d0 rest Ei) as Hk.
  unfold returns_of in Hin. rewrite Hk in Hin.
  apply keep_sublist_in in Hin.
  rewrite Ei in Hs. inversion Hs as [| ? ? _ Hall]; subst.
  rewrite Forall_forall in Hall. specialize (Hall d0 Hin). lia.
Qed.

Lemma X3_returns_drop_first_date_witness :
  (List.length
     (df_index (returns_of {| df_index := [1; 2; 3]%Z;
                              df_cols := [("A"%string, [100; 110; 99]%float)] |}))
   <= 3 - 1)%nat.
Proof.
  refine (proj1 (X3_returns_drop_first_date
                   {| df_index := [1; 2; 3]%Z;
                      df_cols := [("A"%string, [100; 110; 99]%float)] |} _)).
  discriminate.
Defined.


(** A participating row with a NaN value makes both VaR figures NaN. *)
Lemma nan_value_var (yf : string -> fetch float) (libm_pow : float -> nat -> result float)
        (gauss : nat -> nat -> nat -> float) (df_portfolio : TSeries float)
      t0 price_df missing (t : string) (v : float) :
  get_price_history yf (map fst df_portfolio) = (t0, Ok (price_df, missing)) ->
  In (t, v) df_portfolio -> PrimFloat.is_nan v = true ->
  In t (columns price_df) ->
  df_index (returns_of price_df) <> [] ->
  exists vol,
    snd (show_risk_dashboard yf libm_pow gauss df_portfolio)
    = Ok (Some (vol, PrimFloat.nan, PrimFloat.nan)).
Proof.
  intros E Hin Hv Ht Hr.
  pose proof (returns_rows_nonempty price_df t Ht Hr) as He.
  destruct (dashboard_outcome yf libm_pow gauss df_portfolio E He) as (sel & Es & ->).
  set (weights := weights_of (valid_rows df_portfolio (returns_of price_df))) in *.
  assert (Hw : existsb PrimFloat.is_nan (map snd weights) = true).
  { apply weights_of_nan. apply existsb_exists. exists v. split; [| exact Hv].
    apply in_map_iff. exists (t, v). split; [reflexivity |].
    apply valid_rows_spec. split; [exact Hin |].
    cbn [fst]. now rewrite columns_returns_of. }
  apply select_columns in Es. destruct Es as (Ec & Ei & _).
  pose proof (dot_nan_weight sel weights Ec Hw) as Hall.
  pose proof (dot_length sel weights) as Hl. rewrite Ei in Hl.
  destruct (dot sel weights) as [| x0 series] eqn:Ed.
  { destruct (df_index (returns_of price_df)); [congruence | discriminate]. }
  assert (Hex : existsb PrimFloat.is_nan (x0 :: series) = true).
  { inversion Hall as [| ? ? Hx0 _]; subst. reflexivity. }
  rewrite !(quantile_linear_nan _ _ Hex). eexists. reflexivity.
Qed.


(* ----------------------------------------------------------------- *)
(** ** The VaR and the weights, in exact arithmetic *)

Lemma sortQ_in (z : Qc) (l : list Qc) : In z (sortQ l) <-> In z l.
Proof.
  induction l as [| x l IH]; cbn; [tauto |].
  rewrite insertQ_in, IH. intuition.
Qed.

Lemma sortQ_nonempty (l : list Qc) : l <> [] -> sortQ l <> [].
Proof.
  intros Hne E. apply (f_equal (@List.length Qc)) in E.
  rewrite sortQ_length in E. destruct l; [congruence | discriminate].
Qed.

(** The linear quantile of an ascending list lies between two of its
    elements. *)
Lemma quantileQ_between (s : list Qc) (q : Qc) :
  ascending s -> s <> [] -> (0 <= q)%Qc ->
  exists a b, In a s /\ In b s
              /\ (a <= quantileQ s q)%Qc /\ (quantileQ s q <= b)%Qc.
Proof.
  intros Hs Hne H0.
  assert (Hn : (0 < List.length s)%nat).
  { destruct s; [congruence | cbn; lia]. }
  unfold quantileQ. cbv zeta.
  set (top := (Z.of_nat (List.length s) - 1)%Z).
  set (c := Qc_of_Z top).
  assert (Hc : (0 <= c)%Qc).
  { unfold c, Qcle. rewrite Qc_of_Z_Q. change (this 0%Qc) with (inject_Z 0).
    rewrite <- Zle_Qle. unfold top. lia. }
  assert (Hv : (0 <= c * q)%Qc) by now apply Qc_mul_nonneg.
  destruct (Qle_bool c (c * q)%Qc) eqn:E1.
  - exists (nth (Z.to_nat top) s 0%Qc), (nth (Z.to_nat top) s 0%Qc).
    assert (Hin : In (nth (Z.to_nat top) s 0%Qc) s).
    { apply nth_In. unfold top. lia. }
    repeat split; try exact Hin; apply Qcle_refl.
  - destruct (@virtual_index_bounds _ _ Hv E1) as [Hk0 Hk1].
    destruct (gamma_bounds (c * q)%Qc) as [Hg0 Hg1].
    set (k := Qfloor (c * q)%Qc) in *.
    exists (nth (Z.to_nat k) s 0%Qc), (nth (Z.to_nat (k + 1)) s 0%Qc).
    assert (Hab : (nth (Z.to_nat k) s 0 <= nth (Z.to_nat (k + 1)) s 0)%Qc).
    { apply ascending_nth; [exact Hs | lia | unfold top in Hk1; lia]. }
    split; [apply nth_In; unfold top in Hk1; lia |].
    split; [apply nth_In; unfold top in Hk1; lia |].
    split; [now apply interp_lower | now apply interp_upper].
Qed.

(** The linear quantile at the fraction 0 is the first element. *)
Lemma quantileQ_zero (s : list Qc) :
  s <> [] -> quantileQ s 0 = nth 0 s 0%Qc.
Proof.
  intros Hne. unfold quantileQ. cbv zeta.
  set (top := (Z.of_nat (List.length s) - 1)%Z).
  rewrite Qcmult_0_r.
  destruct (Qle_bool (Qc_of_Z top) 0%Qc) eqn:E.
  - apply Qle_bool_Qcle in E.
    assert (Ht : (top <= 0)%Z).
    { unfold Qcle in E. rewrite Qc_of_Z_Q in E. change (this 0%Qc) with (inject_Z 0) in E.
      now rewrite <- Zle_Qle in E. }
    f_equal. destruct s; [congruence |]. unfold top in *. cbn [List.length] in *. lia.
  - change (Qfloor 0%Qc) with 0%Z. change (Z.to_nat 0) with 0%nat.
    change (Qc_of_Z 0) with 0%Qc. ring.
Qed.

Lemma ascending_head (s : list Qc) (x : Qc) :
  ascending s -> In x s -> (nth 0 s 0 <= x)%Qc.
Proof.
  destruct s as [| y s]; [intros _ [] |].
  cbn. intros [Hy _] [<- | Hin]; [apply Qcle_refl | auto].
Qed.

Lemma select_cols {F} `{PyNum F} (returns sel : DataFrame F) (labels : list string)
      (kc : string * list F) :
  select returns labels = Ok sel ->
  In kc (df_cols sel) -> dict_get (df_cols returns) (fst kc) = Some (snd kc).
Proof.
  intros Es Hin. pose proof (select_columns _ _ Es) as (_ & _ & Hal).
  rewrite (select_aligned returns labels Hal) in Es. injection Es as <-.
  cbn [df_cols] in Hin. apply in_map_iff in Hin. destruct Hin as (k & <- & Hk).
  cbn [fst snd]. destruct (in_dict_get (df_cols returns) k (Hal k Hk)) as [c Ec].
  now rewrite Ec.
Qed.

Lemma valid_rows_index {F} (df_portfolio : TSeries F) (returns : DataFrame F) :
  map fst (valid_rows df_portfolio returns)
  = filter (fun t => mem_str t (columns returns)) (map fst df_portfolio).
Proof.
  unfold valid_rows. induction df_portfolio as [| r l IH]; [reflexivity |].
  cbn [filter map]. destruct (mem_str (fst r) (columns returns)); cbn [map]; now rewrite IH.
Qed.

Lemma count_valid_le {F} `{PyNum F} (l : list F) :
  (count_valid l <= List.length l)%nat.
Proof. unfold count_valid. apply filter_length_le. Qed.

Lemma calc_volatility_index {F} `{PyNum F} (df : DataFrame F) :
  map fst (calc_volatility df) = columns df.
Proof. unfold calc_volatility, df_std, columns. rewrite !map_map. reflexivity. Qed.

(** X6.  The volatility series that a successful run returns has one
    entry per participating portfolio row, labelled by its ticker, in
    portfolio order: the tickers are the portfolio tickers that are
    columns of the price frame, and the value at a ticker is the
    annualized volatility (sample standard deviation times sqrt(252)) of
    that ticker's column of the returns frame. *)
Theorem X6_volatility_series {F} `{PyNum F}
        (yf : string -> fetch F) (libm_pow : F -> nat -> result F)
        (gauss : nat -> nat -> nat -> F) (df_portfolio vol : TSeries F) (v95 v99 : F) :
  snd (show_risk_dashboard yf libm_pow gauss df_portfolio) = Ok (Some (vol, v95, v99)) ->
  exists price_df missing,
    snd (get_price_history yf (map fst df_portfolio)) = Ok (price_df, missing)
    /\ map fst vol
       = filter (fun t => mem_str t (columns price_df)) (map fst df_portfolio)
    /\ forall t v, In (t, v) vol ->
         exists c, dict_get (df_cols (returns_of price_df)) t = Some c
                   /\ v = annualized_vol c.
Proof.
  intros Hok. apply dashboard_success_inv in Hok.
  destruct Hok as (t0 & price_df & missing & sel & E & _ & Hsel & -> & _).
  cbv zeta in Hsel.
  exists price_df, missing. rewrite E. split; [reflexivity |].
  pose proof (select_columns _ _ Hsel) as (Hc & _ & _).
  split.
  - rewrite calc_volatility_index, Hc, weights_of_index, valid_rows_index.
    now rewrite columns_returns_of.
  - intros t v Hin. unfold calc_volatility, df_std in Hin. rewrite map_map in Hin.
    apply in_map_iff in Hin. destruct Hin as (kc & [= <- <-] & Hkc).
    exists (snd kc). split; [| reflexivity].
    exact (select_cols _ _ kc Hsel Hkc).
Qed.

Lemma X6_volatility_series_witness :
  exists vol v95 v99,
    snd (show_risk_dashboard Sample.yf Sample.libm_pow Sample.gauss Sample.portfolio_AB) = Ok (Some (vol, v95, v99))
    /\ map fst vol = ["A"; "B"]%string.
Proof.
  pose (r := snd (show_risk_dashboard Sample.yf Sample.libm_pow Sample.gauss Sample.portfolio_AB)).
  assert (Er : snd (show_risk_dashboard Sample.yf Sample.libm_pow Sample.gauss Sample.portfolio_AB) = r)
    by reflexivity.
  vm_compute in r. unfold r in Er. clear r.
  eexists _, _, _. split; [exact Er |].
  destruct (X6_volatility_series _ _ _ _ Er) as (price_df & missing & Ep & Hi & _).
  rewrite Hi. vm_compute in Ep. injection Ep as <- _. reflexivity.
Defined.

(** X7.  On binary64, a frame whose columns hold fewer than two values
    has no volatility: every entry of [calc_volatility] is NaN (the
    sample standard deviation needs two observations). *)
Theorem X7_volatility_needs_two_rows (returns : DataFrame float) :
  Forall (fun c => (List.length (snd c) <= 1)%nat) (df_cols returns) ->
  Forall (fun tv => snd tv = PrimFloat.nan) (calc_volatility returns).
Proof.
  intros Hl. unfold calc_volatility, df_std. rewrite map_map.
  apply Forall_forall. intros tv Htv. apply in_map_iff in Htv.
  destruct Htv as (c & <- & Hc). cbn [snd fst].
  rewrite Forall_forall in Hl. specialize (Hl c Hc).
  unfold nanstd. pose proof (count_valid_le (snd c)) as Hle.
  replace (count_valid (snd c) <=? 1)%nat with true
    by (symmetry; apply Nat.leb_le; lia).
  apply float_mul_nan_l.
Qed.

Lemma X7_volatility_needs_two_rows_witness :
  Forall (fun tv => snd tv = PrimFloat.nan)
         (calc_volatility {| df_index := [2%Z];
                             df_cols := [("D"%string, [0.1%float])] |}).
Proof.
  apply X7_volatility_needs_two_rows. cbn [df_cols].
  constructor; [cbn; lia | constructor].
Defined.





Lemma qsum_member (l : list xq) (q : Qc) :
  Forall nan_or_nonneg l -> In (Some q) l -> (q <= qsum l)%Qc.
Proof.
  induction 1 as [| x l Hx Hl IH]; [intros [] |].
  rewrite qsum_cons. intros [-> | Hin].
  - apply Qcle_trans with (y := (q + 0)%Qc).
    + rewrite Qcplus_0_r. apply Qcle_refl.
    + apply Qcplus_le_compat; [apply Qcle_refl | now apply qsum_nonneg].
  - apply Qcle_trans with (y := (0 + qsum l)%Qc).
    + rewrite Qcplus_0_l. now apply IH.
    + apply Qcplus_le_compat; [| apply Qcle_refl].
      destruct Hx as [-> | (q' & -> & Hq')]; [apply Qcle_refl | exact Hq'].
Qed.



(* ----------------------------------------------------------------- *)
(** ** The holdings file, line by line *)

Lemma rmap_ok {A B} (f : A -> result B) (l : list A) (ys : list B) :
  rmap f l = Ok ys -> Forall2 (fun x y => f x = Ok y) l ys.
Proof.
  revert ys. induction l as [| x l IH]; cbn [rmap]; intros ys.
  - intros [= <-]. constructor.
  - destruct (f x) as [y |] eqn:Ex; [| discriminate]. cbn [rbind].
    destruct (rmap f l) as [ys' |]; [| discriminate]. cbn [rbind].
    intros [= <-]. constructor; auto.
Qed.

Lemma rmap_raise {A B} (f : A -> result B) (l : list A) (e : exn) :
  rmap f l = Raise e <->
  exists l1 bad l2,
    l = l1 ++ bad :: l2
    /\ Forall (fun x => exists y, f x = Ok y) l1
    /\ f bad = Raise e.
Proof.
  induction l as [| x l IH]; cbn [rmap].
  - split; [discriminate |]. intros (l1 & bad & l2 & E & _). now destruct l1.
  - destruct (f x) as [y |] eqn:Ex; cbn [rbind].
    + assert (Hiff : rbind (rmap f l) (fun ys => Ok (y :: ys)) = Raise e
                     <-> rmap f l = Raise e).
      { destruct (rmap f l); cbn [rbind]; split; congruence. }
      rewrite Hiff, IH. split.
      * intros (l1 & bad & l2 & -> & Hl1 & Hbad).
        exists (x :: l1), bad, l2. split; [reflexivity |].
        split; [constructor; eauto | exact Hbad].
      * intros (l1 & bad & l2 & E & Hl1 & Hbad).
        destruct l1 as [| x1 l1]; cbn in E; injection E as -> ->; [congruence |].
        inversion Hl1; subst. eauto 6.
    + split.
      * intros [= ->]. exists [], x, l. repeat split; [constructor | exact Ex].
      * intros (l1 & bad & l2 & E & Hl1 & Hbad).
        destruct l1 as [| x1 l1]; cbn in E; injection E as -> ->; [congruence |].
        inversion Hl1 as [| ? ? [y Hy] _]; subst. congruence.
Qed.

Lemma split_on_nonempty (sep : ascii) (s : string) : split_on sep s <> [].
Proof.
  destruct s as [| c s]; cbn; [discriminate |].
  destruct (Ascii.eqb c sep); [discriminate |].
  destruct (split_on sep s); discriminate.
Qed.

Lemma split_on_app (sep : ascii) (a b : string) :
  split_on sep (a ++ String sep b) = split_on sep a ++ split_on sep b.
Proof.
  induction a as [| c a IH]; cbn.
  - now rewrite Ascii.eqb_refl.
  - destruct (Ascii.eqb c sep); [now rewrite IH |].
    rewrite IH. pose proof (split_on_nonempty sep a) as Hne.
    destruct (split_on sep a); [congruence | reflexivity].
Qed.

Lemma split_on_none (sep : ascii) (a : string) :
  has_char sep a = false -> split_on sep a = [a].
Proof.
  induction a as [| c a IH]; cbn; [reflexivity |].
  destruct (Ascii.eqb c sep); cbn; [discriminate |].
  intros Hn. now rewrite IH.
Qed.

Section HoldingsErrors.
Context {F : Type} `{PyNum F}.
Variable py_float : string -> option F.

Lemma parse_line_cases (line : string) :
  match split_on "/" line with
  | [] => False
  | [_] => parse_line py_float line = Raise IndexError
  | [_; p] =>
      parse_line py_float line
      = match py_float p with Some _ => Raise IndexError | None => Raise ValueError end
  | _ :: _ :: _ :: _ =>
      parse_line py_float line = Raise ValueError
      \/ exists row, parse_line py_float line = Ok row
  end.
Proof.
  pose proof (split_on_nonempty "/" line) as Hne.
  unfold parse_line.
  destruct (split_on "/" line) as [| t [| p [| q more]]]; [congruence | reflexivity | |].
  - cbn. unfold to_float. destruct (py_float p); reflexivity.
  - cbn [py_index nth_error rbind]. unfold to_float.
    destruct (py_float p); cbn [rbind]; [| now left].
    destruct (py_float q); cbn [rbind]; [| now left].
    destruct more as [| d more]; cbn; [right; eauto |].
    destruct (py_float d); cbn [rbind]; [right; eauto | now left].
Qed.
End HoldingsErrors.

(** X11.  [lire_portefeuille] loads all the lines or none.  When it
    returns, the rows are the parsed non-blank lines, one row per line
    and in file order; it raises exactly when some non-blank line fails
    to parse, and then with the exception of the first such line, the
    rows of the lines before it being lost. *)
Theorem X11_holdings_all_or_nothing {F} `{PyNum F}
        (py_float : string -> option F) (lines : list string) :
  (forall rows,
     lire_portefeuille py_float lines = Ok rows ->
     Forall2 (fun line row => parse_line py_float line = Ok row)
             (non_blank_lines lines) rows)
  /\ (forall e,
        lire_portefeuille py_float lines = Raise e <->
        exists before bad after,
          non_blank_lines lines = before ++ bad :: after
          /\ Forall (fun line => exists row, parse_line py_float line = Ok row) before
          /\ parse_line py_float bad = Raise e).
Proof.
  rewrite lire_portefeuille_rmap. split.
  - intros rows. apply rmap_ok.
  - intros e. apply rmap_raise.
Qed.

(** X12.  The exceptions of the parsing of one line.  [split] always
    gives a first field.  The line stops with IndexError exactly when it
    has a single field, or has two fields of which the second reads as a
    number; with two fields and an unreadable price it is the ValueError
    of [float] that comes first.  A line with three fields or more
    parses or raises ValueError, and no line raises KeyError. *)
Theorem X12_line_exceptions {F} `{PyNum F}
        (py_float : string -> option F) (line : string) :
  split_on "/" line <> []
  /\ (parse_line py_float line = Raise IndexError <->
      (exists t, split_on "/" line = [t])
      \/ (exists t p P, split_on "/" line = [t; p] /\ py_float p = Some P))
  /\ ((3 <= List.length (split_on "/" line))%nat ->
      parse_line py_float line = Raise ValueError
      \/ exists row, parse_line py_float line = Ok row)
  /\ parse_line py_float line <> Raise KeyError.
Proof.
  pose proof (parse_line_cases py_float line) as Hc.
  split; [apply split_on_nonempty |].
  destruct (split_on "/" line) as [| t [| p [| q more]]]; [destruct Hc | | |].
  - rewrite Hc. split; [| split].
    + split; [intros _; left; eauto | reflexivity].
    + cbn. lia.
    + discriminate.
  - rewrite Hc. destruct (py_float p) as [P |] eqn:Ep; (split; [| split]).
    + split; [intros _; right; eauto | reflexivity].
    + cbn. lia.
    + discriminate.
    + split; [discriminate |].
      intros [(t' & [=]) | (t' & p' & P' & [= _ <-] & Ep')]. congruence.
    + cbn. lia.
    + discriminate.
  - split; [| split].
    + split.
      * intros E. destruct Hc as [Hc | (row & Hc)]; rewrite Hc in E; discriminate.
      * intros [(t' & [=]) | (t' & p' & P' & [=] & _)].
    + intros _. exact Hc.
    + destruct Hc as [Hc | (row & Hc)]; rewrite Hc; discriminate.
Qed.

(** X13.  Fields after the fourth are ignored: appending ["/"] and any
    text to a line that already has four fields or more does not change
    what the line parses to. *)
Theorem X13_extra_fields_ignored {F} `{PyNum F}
        (py_float : string -> option F) (line junk : string) :
  (4 <= List.length (split_on "/" line))%nat ->
  parse_line py_float (line ++ String "/" junk) = parse_line py_float line.
Proof.
  intros Hl. unfold parse_line. rewrite split_on_app.
  destruct (split_on "/" line) as [| t [| p [| q [| d more]]]];
    cbn [List.length] in Hl; try lia.
  reflexivity.
Qed.

Lemma X13_extra_fields_ignored_witness :
  parse_line (@Decimal.parse float _) "AAPL/150.0/10/2.5/bought in May"
  = parse_line (@Decimal.parse float _) "AAPL/150.0/10/2.5".
Proof.
  apply (X13_extra_fields_ignored (@Decimal.parse float _)
           "AAPL/150.0/10/2.5" "bought in May").
  vm_compute. apply le_n.
Defined.

(** X14.  Writing a holding and reading it back.  For fields that hold
    no ["/"], the line [ticker/price/quantity/dividend] parses to the
    ticker as written, the numbers that [float] reads, and the total
    dividend per-unit dividend times quantity; the line without the
    fourth field parses to the same row with the dividend [0 * quantity]. *)
Theorem X14_line_round_trip {F} `{PyNum F}
        (py_float : string -> option F) (t p q d : string) (P Q D : F) :
  has_char "/" t = false -> has_char "/" p = false ->
  has_char "/" q = false -> has_char "/" d = false ->
  py_float p = Some P -> py_float q = Some Q -> py_float d = Some D ->
  parse_line py_float (t ++ String "/" (p ++ String "/" (q ++ String "/" d)))
  = Ok {| h_ticker := t; h_prix := P; h_quantite := Q; h_dividendes := mul D Q |}
  /\ parse_line py_float (t ++ String "/" (p ++ String "/" q))
     = Ok {| h_ticker := t; h_prix := P; h_quantite := Q;
             h_dividendes := mul (of_Z 0) Q |}.
Proof.
  intros Ht Hp Hq Hd Ep Eq Ed. unfold parse_line.
  rewrite !split_on_app, !(split_on_none _ _ Ht), !(split_on_none _ _ Hp),
    !(split_on_none _ _ Hq), (split_on_none _ _ Hd).
  cbn. unfold to_float. rewrite Ep, Eq, Ed. cbn. split; reflexivity.
Qed.

Lemma X14_line_round_trip_witness :
  parse_line (@Decimal.parse float _) "MSFT/300.5/2/1.25"
  = Ok {| h_ticker := "MSFT"; h_prix := 300.5%float; h_quantite := 2%float;
          h_dividendes := 2.5%float |}.
Proof.
  refine (eq_trans (proj1 (@X14_line_round_trip float _ (@Decimal.parse float _)
                             "MSFT" "300.5" "2" "1.25" 300.5%float 2%float 1.25%float
                             _ _ _ _ _ _ _)) _);
    reflexivity.
Defined.

(** X15.  The console lines of [get_price_history]: one line per fetch
    that raised, in request order (a ticker requested twice and failing
    twice is reported twice), and none for a fetch that returned an
    empty Series. *)
Theorem X15_one_error_line_per_raising_fetch {F} `{PyNum F}
        (yf : string -> fetch F) (tickers : list string) :
  fst (get_price_history yf tickers)
  = map (fun t => Print ("Erreur pour " ++ t)) (filter (fetch_raises yf) tickers).
Proof.
  unfold get_price_history.
  assert (G : forall ph ms,
             fst (fetch_loop yf tickers ph ms)
             = map (fun t => Print ("Erreur pour " ++ t))
                   (filter (fetch_raises yf) tickers)
             /\ exists r, snd (fetch_loop yf tickers ph ms) = Ok r).
  { induction tickers as [| tk rest IH]; intros ph ms; cbn [fetch_loop].
    - split; [reflexivity | eexists; reflexivity].
    - unfold fetch_raises at 1. cbn [filter].
      destruct (yf tk) as [| [| p h]] eqn:Ey.
      + destruct (IH ph (ms ++ [tk])) as [E1 [r E2]].
        destruct (fetch_loop yf rest ph (ms ++ [tk])) as [t1 r1] eqn:El.
        cbn [fst snd] in E1, E2. subst. cbn. split; [reflexivity | eauto].
      + apply IH.
      + apply IH. }
  destruct (G [] []) as [E1 [r E2]].
  destruct (fetch_loop yf tickers [] []) as [t1 r1] eqn:El.
  cbn [fst snd] in E1, E2. subst. cbn. now rewrite app_nil_r.
Qed.

(* ----------------------------------------------------------------- *)
(** ** The figures of a position *)

Lemma float_round2_nan : round2 PrimFloat.nan = PrimFloat.nan.
Proof. reflexivity. Qed.

Lemma performance_nan (prix : float) : performance PrimFloat.nan prix = PrimFloat.nan.
Proof.
  unfold performance. cbn [sub div mul float_num].
  now rewrite float_sub_nan_l, float_div_nan_l, float_mul_nan_l.
Qed.

Lemma calculs_financiers_holdings {F} `{PyNum F}
      (price : string -> option F) (rows : list (holding F)) :
  map (@v_holding F) (calculs_financiers price rows) = rows.
Proof.
  unfold calculs_financiers. rewrite map_map. cbn [v_holding]. apply map_id.
Qed.



Lemma Qc_this_of_Z (z : Z) : (this (Qc_of_Z z) == inject_Z z)%Q.
Proof. apply Qc_of_Z_Q. Qed.

(** [rint] in exact arithmetic: an integer at distance at most 1/2, on
    the side of zero where the argument is. *)
Lemma xq_rint_spec (a : Qc) :
  exists z : Z,
    rint (Some a : xq) = Some (Qc_of_Z z)
    /\ (inject_Z z - a <= 1 # 2)%Q /\ (a - inject_Z z <= 1 # 2)%Q
    /\ ((0 <= a)%Q -> (0 <= z)%Z) /\ ((a <= 0)%Q -> (z <= 0)%Z).
Proof.
  cbn [rint xq_num XQ.rint].
  pose proof (Qfloor_le a) as Hlo. pose proof (Qlt_floor a) as Hhi.
  rewrite inject_Z_plus in Hhi. change (inject_Z 1) with 1%Q in Hhi.
  remember (Qfloor a) as f eqn:Ef.
  assert (Hf0 : (0 <= a)%Q -> (0 <= f)%Z).
  { intros Ha. subst f. change 0%Z with (Qfloor 0). now apply Qfloor_resp_le. }
  assert (Hf1 : (a <= 0)%Q -> (f <= 0)%Z).
  { intros Ha. subst f. change 0%Z with (Qfloor 0). now apply Qfloor_resp_le. }
  clear Ef.
  assert (Hf2 : (a <= 0)%Q -> (f + 1 <= 0)%Z \/ (a == inject_Z f)%Q).
  { intros Ha. destruct (Z.eq_dec f 0) as [E | N].
    - right. subst f. change (inject_Z 0) with 0%Q in *.
      apply Qle_antisym; assumption.
    - left. specialize (Hf1 Ha). lia. }
  assert (Er : (this (a - Q2Qc (inject_Z f))%Qc == a - inject_Z f)%Q).
  { unfold Qcminus, Qcplus, Qcopp, Q2Qc. cbn [this]. rewrite !Qred_correct. reflexivity. }
  unfold XQ.Qc_ltb.
  destruct (Qle_bool (Q2Qc (1 # 2)) (a - Q2Qc (inject_Z f))%Qc) eqn:E1; cbn [negb].
  - apply Qle_bool_iff in E1. rewrite Er in E1. cbn [this Q2Qc] in E1.
    rewrite Qred_correct in E1.
    destruct (Qle_bool (a - Q2Qc (inject_Z f))%Qc (Q2Qc (1 # 2))) eqn:E2; cbn [negb].
    + apply Qle_bool_iff in E2. rewrite Er in E2. cbn [this Q2Qc] in E2.
      rewrite Qred_correct in E2.
      destruct (Z.even f).
      * exists f. split; [reflexivity |].
        split; [lra |]. split; [lra |]. split; assumption.
      * exists (f + 1)%Z. split; [reflexivity |]. rewrite inject_Z_plus. change (inject_Z 1) with 1%Q.
        split; [lra |]. split; [lra |]. split.
        -- intros H0. specialize (Hf0 H0). lia.
        -- intros H0. destruct (Hf2 H0) as [Hl | He]; [exact Hl | lra].
    + exists (f + 1)%Z. split; [reflexivity |]. rewrite inject_Z_plus. change (inject_Z 1) with 1%Q.
      split; [lra |]. split; [lra |]. split.
      * intros H0. specialize (Hf0 H0). lia.
      * intros H0. destruct (Hf2 H0) as [Hl | He]; [exact Hl | lra].
  - exists f. split; [reflexivity |].
    assert (E1' : ~ ((1 # 2) <= a - inject_Z f)%Q).
    { intros Hle. assert (Qle_bool (Q2Qc (1 # 2)) (a - Q2Qc (inject_Z f))%Qc = true);
        [| congruence].
      apply Qle_bool_iff. rewrite Er. cbn [this Q2Qc]. now rewrite Qred_correct. }
    split; [lra |]. split; [lra |]. split; assumption.
Qed.

Lemma Qc_this_mul100 (x : Qc) : (this (x * Qc_of_Z 100)%Qc == 100 * x)%Q.
Proof.
  unfold Qcmult, Qc_of_Z, Q2Qc. cbn [this]. rewrite !Qred_correct.
  change (inject_Z 100) with 100%Q. ring.
Qed.

Lemma Qc_this_div100 (z : Z) :
  (this (Qc_of_Z z / Qc_of_Z 100)%Qc == inject_Z z * (1 # 100))%Q.
Proof.
  unfold Qcdiv, Qcmult, Qcinv, Qc_of_Z, Q2Qc. cbn [this]. rewrite !Qred_correct.
  reflexivity.
Qed.

(** [round2] in exact arithmetic: a multiple of 1/100 at distance at
    most 1/200, on the side of zero where the argument is. *)
Lemma xq_round2_spec (x : Qc) :
  exists r : Qc,
    round2 (Some x : xq) = Some r
    /\ (r - x <= 1 # 200)%Q /\ (x - r <= 1 # 200)%Q
    /\ ((0 <= x)%Q -> (0 <= r)%Q) /\ ((x <= 0)%Q -> (r <= 0)%Q).
Proof.
  unfold round2. rewrite xq_of_Z, xq_mul.
  destruct (xq_rint_spec (x * Qc_of_Z 100)%Qc) as (z & E & Hlo & Hhi & Hp & Hn).
  rewrite E, xq_div by (apply Qc_of_Z_neq0; lia).
  exists (Qc_of_Z z / Qc_of_Z 100)%Qc. split; [reflexivity |].
  rewrite Qc_this_mul100 in Hlo, Hhi, Hp, Hn. rewrite Qc_this_div100.
  split; [lra |]. split; [lra |]. split.
  - intros H0. assert (Hz : (0 <= z)%Z) by (apply Hp; lra).
    rewrite Zle_Qle in Hz. change (inject_Z 0) with 0%Q in Hz. lra.
  - intros H0. assert (Hz : (z <= 0)%Z) by (apply Hn; lra).
    rewrite Zle_Qle in Hz. change (inject_Z 0) with 0%Q in Hz. lra.
Qed.

(** [performance] in exact arithmetic, for a positive base: the
    relative change in percent, rounded to a multiple of 0.01 on the
    side of zero where the change is. *)
Lemma performance_rounding (cours prix : Qc) :
  (0 < prix)%Qc ->
  exists perf : Qc,
    performance (Some cours : xq) (Some prix) = Some perf
    /\ (perf - (cours - prix) / prix * Qc_of_Z 100 <= Q2Qc (1 # 200))%Qc
    /\ ((cours - prix) / prix * Qc_of_Z 100 - perf <= Q2Qc (1 # 200))%Qc
    /\ ((prix <= cours)%Qc -> (0 <= perf)%Qc)
    /\ ((cours <= prix)%Qc -> (perf <= 0)%Qc).
Proof.
  intros Hp.
  assert (Hp0 : prix <> 0%Qc).
  { intros E. rewrite E in Hp. now apply Qclt_not_eq in Hp. }
  assert (Hinv : (0 <= / prix)%Qc).
  { apply Qc_inv_nonneg. now apply Qclt_le_weak. }
  unfold performance. rewrite xq_sub, xq_div by exact Hp0.
  rewrite xq_of_Z, xq_mul.
  set (t := ((cours - prix) / prix * Qc_of_Z 100)%Qc).
  destruct (xq_round2_spec t) as (r & E & Hlo & Hhi & Hpos & Hneg).
  exists r. split; [exact E |].
  assert (H100 : (0 <= Qc_of_Z 100)%Qc) by (vm_compute; discriminate).
  assert (Hge : (prix <= cours)%Qc -> (0 <= r)%Qc).
  { intros Hle. apply Hpos. change (0 <= t)%Qc. unfold t.
    apply Qc_mul_nonneg; [| exact H100]. unfold Qcdiv.
    apply Qc_mul_nonneg; [now apply Qc_sub_nonneg | exact Hinv]. }
  assert (Hle : (cours <= prix)%Qc -> (r <= 0)%Qc).
  { intros Hle. apply Hneg. change (t <= 0)%Qc. unfold t.
    apply Qc_le_of_sub.
    replace (0 - (cours - prix) / prix * Qc_of_Z 100)%Qc
      with ((prix - cours) / prix * Qc_of_Z 100)%Qc by (field; exact Hp0).
    apply Qc_mul_nonneg; [| exact H100]. unfold Qcdiv.
    apply Qc_mul_nonneg; [now apply Qc_sub_nonneg | exact Hinv]. }
  split; [| split; [| split; [exact Hge | exact Hle]]].
  - unfold Qcle, Qcminus, Qcplus, Qcopp, Q2Qc. cbn [this].
    rewrite !Qred_correct. lra.
  - unfold Qcle, Qcminus, Qcplus, Qcopp, Q2Qc. cbn [this].
    rewrite !Qred_correct. lra.
Qed.



Lemma float_mul_zero_r (x : float) :
  Prim2SF (x * 0)%float = S754_nan \/ exists s, Prim2SF (x * 0)%float = S754_zero s.
Proof.
  rewrite FloatAxioms.mul_spec. change (Prim2SF 0%float) with (S754_zero false).
  unfold SF64mul, SFmul. destruct (Prim2SF x) as [s | s | | s m e]; eauto.
Qed.

(** A zero or a NaN divided by a zero or a NaN is NaN. *)
Lemma float_div_zero_zero (x y : float) :
  (Prim2SF x = S754_nan \/ exists s, Prim2SF x = S754_zero s) ->
  (Prim2SF y = S754_nan \/ exists s, Prim2SF y = S754_zero s) ->
  (x / y)%float = PrimFloat.nan.
Proof.
  intros Hx Hy. apply Prim2SF_inj. rewrite FloatAxioms.div_spec.
  change (Prim2SF PrimFloat.nan) with S754_nan. unfold SF64div, SFdiv.
  destruct Hx as [Hx | [sx Hx]], Hy as [Hy | [sy Hy]]; rewrite Hx, ?Hy; reflexivity.
Qed.


(* ----------------------------------------------------------------- *)
(** ** The colour of a cell *)

(** A binary64 value is above zero, equal to zero, below zero or NaN,
    and only one of the four. *)
Lemma float_sign_cases (x : float) :
  (PrimFloat.ltb 0 x = true /\ PrimFloat.eqb x 0 = false
   /\ PrimFloat.ltb x 0 = false /\ PrimFloat.is_nan x = false)
  \/ (PrimFloat.ltb 0 x = false /\ PrimFloat.eqb x 0 = true
      /\ PrimFloat.ltb x 0 = false /\ PrimFloat.is_nan x = false)
  \/ (PrimFloat.ltb 0 x = false /\ PrimFloat.eqb x 0 = false
      /\ PrimFloat.ltb x 0 = true /\ PrimFloat.is_nan x = false)
  \/ (PrimFloat.ltb 0 x = false /\ PrimFloat.eqb x 0 = false
      /\ PrimFloat.ltb x 0 = false /\ PrimFloat.is_nan x = true).
Proof.
  unfold PrimFloat.is_nan.
  rewrite !FloatAxioms.ltb_spec, !FloatAxioms.eqb_spec.
  change (Prim2SF 0%float) with (S754_zero false).
  unfold SFltb, SFeqb, SFcompare.
  destruct (Prim2SF x) as [s | s | | s m e].
  - right. left. destruct s; repeat split.
  - destruct s; [right; right; left | left]; repeat split.
  - right. right. right. repeat split.
  - rewrite Z.compare_refl, Pos.compare_cont_refl.
    destruct s; [right; right; left | left]; repeat split.
Qed.

(** X20.  The colour of a percentage cell on binary64.  The style is
    empty exactly when the cell text without ["%"] is not a number for
    [float]; otherwise it is the gain style exactly for a number above
    zero, the flat style exactly for a zero (of either sign), and the
    loss style exactly for a number below zero or a NaN: a performance
    that could not be computed is shown as a loss. *)
Theorem X20_cell_colour (py_float : string -> option float) (val : string) :
  (color_percent py_float val = EmptyString
   <-> py_float (remove_char "%" val) = None)
  /\ forall num, py_float (remove_char "%" val) = Some num ->
       (color_percent py_float val = STYLE_GAIN <-> PrimFloat.ltb 0 num = true)
       /\ (color_percent py_float val = STYLE_FLAT <-> PrimFloat.eqb num 0 = true)
       /\ (color_percent py_float val = STYLE_LOSS
           <-> PrimFloat.ltb num 0 = true \/ PrimFloat.is_nan num = true).
Proof.
  unfold color_percent. cbn [ltb eqb of_Z float_num F64.of_Z].
  destruct (py_float (remove_char "%" val)) as [num |].
  - split.
    + split; [| discriminate].
      destruct (PrimFloat.ltb 0 num); [discriminate |].
      destruct (PrimFloat.eqb num 0); discriminate.
    + intros num' [= <-].
      destruct (float_sign_cases num)
        as [(-> & -> & -> & ->) | [(-> & -> & -> & ->)
           | [(-> & -> & -> & ->) | (-> & -> & -> & ->)]]].
      * repeat split; try discriminate; try reflexivity. intros [E | E]; discriminate.
      * repeat split; try discriminate; try reflexivity. intros [E | E]; discriminate.
      * repeat split; try discriminate; try reflexivity; auto.
      * repeat split; try discriminate; try reflexivity; auto.
  - split; [split; reflexivity | discriminate].
Qed.

(* ----------------------------------------------------------------- *)
(** ** The synthesis of the portfolio *)

Lemma qsum_le (A : Type) (f g : A -> xq) (l : list A) :
  Forall (fun r => exists a b : Qc, f r = Some a /\ g r = Some b /\ (a <= b)%Qc) l ->
  (qsum (map f l) <= qsum (map g l))%Qc.
Proof.
  induction 1 as [| r l (a & b & Ea & Eb & Hab) _ IH]; [apply Qcle_refl |].
  cbn [map]. rewrite !qsum_cons, Ea, Eb. now apply Qcplus_le_compat.
Qed.

Lemma qsum_le_skipping (A : Type) (f g : A -> xq) (l : list A) :
  Forall (fun r => exists b : Qc, g r = Some b /\ (0 <= b)%Qc
                     /\ (f r = None \/ exists a : Qc, f r = Some a /\ (a <= b)%Qc)) l ->
  (qsum (map f l) <= qsum (map g l))%Qc.
Proof.
  induction 1 as [| r l (b & Eb & Hb & Hf) _ IH]; [apply Qcle_refl |].
  cbn [map]. rewrite !qsum_cons, Eb.
  destruct Hf as [-> | (a & -> & Hab)]; now apply Qcplus_le_compat.
Qed.



(** [round2] of a value that is at most a multiple [k / 100] of 0.01 is
    at most [k / 100]. *)
Lemma xq_round2_cap (x : Qc) (k : Z) :
  (x <= inject_Z k * (1 # 100))%Q ->
  forall r : Qc, round2 (Some x : xq) = Some r -> (r <= inject_Z k * (1 # 100))%Q.
Proof.
  intros Hx r. unfold round2. rewrite xq_of_Z, xq_mul.
  destruct (xq_rint_spec (x * Qc_of_Z 100)%Qc) as (z & E & Hlo & _ & _ & _).
  rewrite E, xq_div by (apply Qc_of_Z_neq0; lia).
  intros [= <-]. rewrite Qc_this_div100. rewrite Qc_this_mul100 in Hlo.
  assert (Hz : (z <= k)%Z).
  { destruct (Z_le_gt_dec z k) as [Hle | Hgt]; [exact Hle | exfalso].
    assert (Hk : (k + 1 <= z)%Z) by lia.
    rewrite Zle_Qle, inject_Z_plus in Hk. change (inject_Z 1) with 1%Q in Hk. lra. }
  rewrite Zle_Qle in Hz. lra.
Qed.

Lemma Qc_this_qsum_cons (x : xq) (l : list xq) :
  (this (qsum (x :: l)) == match x with Some q => this q | None => 0 end + this (qsum l))%Q.
Proof.
  rewrite qsum_cons. unfold Qcplus, Q2Qc. cbn [this]. rewrite Qred_correct.
  destruct x; reflexivity.
Qed.

(** Rounding every entry to two decimals moves a sum by at most 0.005
    per entry. *)
Lemma qsum_round2 (l : list xq) :
  (this (qsum (map round2 l)) - this (qsum l)
   <= inject_Z (Z.of_nat (List.length l)) * (1 # 200))%Q
  /\ (this (qsum l) - this (qsum (map round2 l))
      <= inject_Z (Z.of_nat (List.length l)) * (1 # 200))%Q.
Proof.
  induction l as [| x l [IH1 IH2]].
  - cbn [map List.length Z.of_nat]. change (qsum []) with 0%Qc.
    change (this 0%Qc) with 0%Q. change (inject_Z 0) with 0%Q. split; lra.
  - cbn [map List.length]. rewrite Nat2Z.inj_succ. unfold Z.succ.
    rewrite inject_Z_plus. change (inject_Z 1) with 1%Q.
    rewrite !Qc_this_qsum_cons.
    destruct x as [q |].
    + destruct (xq_round2_spec q) as (r & E & Hlo & Hhi & _ & _).
      rewrite E. split; lra.
    + change (round2 (None : xq)) with (None : xq). split; lra.
Qed.

Lemma qsum_shares (l : list xq) (V : Qc) :
  V <> 0%Qc ->
  qsum (map (fun v => mul (div v (Some V)) (of_Z 100)) l)
  = (qsum l / V * Qc_of_Z 100)%Qc.
Proof.
  intros HV. induction l as [| x l IH].
  - change (qsum (map _ [])) with 0%Qc. change (qsum []) with 0%Qc. field. exact HV.
  - cbn [map]. rewrite !qsum_cons, IH.
    destruct x as [q |].
    + rewrite xq_div by exact HV. rewrite xq_of_Z, xq_mul. field. exact HV.
    + cbn. field. exact HV.
Qed.

(** A share of a positive total, in percent, lies in [0, 100]. *)
Lemma share_percent_bounds (v V : Qc) :
  (0 <= v)%Qc -> (v <= V)%Qc -> (0 < V)%Qc ->
  (0 <= v / V * Qc_of_Z 100)%Qc /\ (v / V * Qc_of_Z 100 <= Qc_of_Z 100)%Qc.
Proof.
  intros Hv HvV HV.
  assert (H100 : (0 <= Qc_of_Z 100)%Qc) by (vm_compute; discriminate).
  assert (Hi : (0 <= / V)%Qc) by (apply Qc_inv_nonneg; now apply Qclt_le_weak).
  assert (HV0 : V <> 0%Qc).
  { intros E. rewrite E in HV. now apply Qclt_not_eq in HV. }
  split.
  - apply Qc_mul_nonneg; [| exact H100]. unfold Qcdiv. now apply Qc_mul_nonneg.
  - apply Qcle_trans with (y := (1 * Qc_of_Z 100)%Qc).
    + apply Qcmult_le_compat_r; [| exact H100].
      apply Qcle_trans with (y := (V / V)%Qc).
      * unfold Qcdiv. now apply Qcmult_le_compat_r.
      * unfold Qcdiv. rewrite Qcmult_inv_r by exact HV0. apply Qcle_refl.
    + rewrite Qcmult_1_l. apply Qcle_refl.
Qed.



(* ----------------------------------------------------------------- *)
(** ** The returns of a complete price frame *)

Lemma ffill_exacts (last : xq) (l : list Qc) :
  ffill_from last (exacts l) = exacts l.
Proof.
  revert last. induction l as [| x l IH]; intros last; [reflexivity |].
  cbn [map ffill_from isnan xq_num XQ.isnan]. now rewrite IH.
Qed.

Lemma map2_returns_exact (l t : list Qc) :
  Forall (fun p => p <> 0%Qc) l ->
  @map2 xq xq xq (fun prev cur => sub (div cur prev) (of_Z 1)) (exacts l) (exacts t)
  = exacts (map2 (fun prev cur => (cur / prev - 1)%Qc) l t).
Proof.
  intros Hl. revert t. induction Hl as [| x l Hx _ IH]; intros t; [reflexivity |].
  destruct t as [| y t]; [reflexivity |].
  cbn [map map2]. rewrite IH. f_equal.
  rewrite xq_div by exact Hx. rewrite xq_of_Z, xq_sub. reflexivity.
Qed.

(** The percentage changes of a column of exact non-zero prices: NaN on
    the first date, the simple returns after it. *)
Lemma pct_change_col_exact (l : list Qc) :
  Forall (fun p => p <> 0%Qc) l ->
  pct_change_col (exacts l)
  = match l with
    | [] => []
    | _ :: _ => None :: exacts (simple_returns l)
    end.
Proof.
  intros Hl. unfold pct_change_col. rewrite ffill_exacts.
  destruct l as [| x t]; [reflexivity |].
  cbn [map]. f_equal.
  change (Some x :: exacts t) with (exacts (x :: t)).
  now rewrite map2_returns_exact.
Qed.

Lemma simple_returns_length (l : list Qc) :
  List.length (simple_returns l) = (List.length l - 1)%nat.
Proof.
  unfold simple_returns. rewrite map2_length. destruct l; cbn [tl List.length]; lia.
Qed.

Lemma keep_all_but_first {A} (P : nat -> bool) (n : nat) (x : A) (l : list A) :
  List.length l = n -> P 0%nat = false ->
  (forall i, (1 <= i <= n)%nat -> P i = true) ->
  keep (map P (seq 0 (S n))) (x :: l) = l.
Proof.
  intros Hl H0 Hi. cbn [seq map keep]. rewrite H0.
  assert (G : forall s (l' : list A),
             (1 <= s)%nat -> (s + List.length l' <= S n)%nat ->
             keep (map P (seq s (List.length l'))) l' = l').
  { intros s l'. revert s. induction l' as [| y l' IH]; intros s Hs Hb; [reflexivity |].
    cbn [List.length seq map keep]. cbn [List.length] in Hb.
    rewrite Hi by lia. f_equal. apply IH; lia. }
  rewrite <- Hl. apply G; lia.
Qed.



(* ----------------------------------------------------------------- *)
(** ** What a run shows *)

Lemma bind_in_r {F A B} (m : M F A) (k : A -> M F B) (a : A) (e : event F) :
  snd m = Ok a -> In e (fst (k a)) -> In e (fst (bind m k)).
Proof.
  destruct m as [t [a' |]]; cbn [snd]; [| discriminate].
  intros [= ->] Hin. cbn [bind]. destruct (k a) as [t' r]. cbn [fst] in *.
  apply in_or_app. now right.
Qed.

Lemma fst_emit_bind {F B} (e : event F) (k : unit -> M F B) :
  fst (bind (emit e) k) = e :: fst (k tt).
Proof. cbn [emit bind]. destruct (k tt). reflexivity. Qed.

Lemma emit_bind_in {F B} (e : event F) (k : unit -> M F B) :
  In e (fst (bind (emit e) k)).
Proof. rewrite fst_emit_bind. now left. Qed.

Ltac find_event :=
  first [ apply emit_bind_in
        | eapply bind_in_r; [reflexivity | find_event] ].

(** The events of the tabs are events of a successful run. *)
Lemma dashboard_shows_tabs {F} `{PyNum F}
      (yf : string -> fetch F) (libm_pow : F -> nat -> result F)
        (gauss : nat -> nat -> nat -> F) (df_portfolio vol : TSeries F) (v95 v99 : F) :
  snd (show_risk_dashboard yf libm_pow gauss df_portfolio) = Ok (Some (vol, v95, v99)) ->
  exists price_df missing,
    snd (get_price_history yf (map fst df_portfolio)) = Ok (price_df, missing)
    /\ let returns := returns_of price_df in
       let df_valid := valid_rows df_portfolio returns in
       let weights := weights_of df_valid in
       map fst vol = map fst weights
       /\ forall e, In e (fst (show_tabs libm_pow gauss returns df_valid weights vol v95 v99)) ->
                    In e (fst (show_risk_dashboard yf libm_pow gauss df_portfolio)).
Proof.
  intros Hok.
  destruct (dashboard_success_inv _ _ _ _ Hok)
    as (t0 & price_df & missing & sel & E & He & Hsel & Hvol & H95 & H99).
  cbv zeta in Hsel, H95, H99.
  exists price_df, missing. rewrite E. split; [reflexivity |]. cbv zeta.
  split.
  { rewrite Hvol, calc_volatility_index. now destruct (select_columns _ _ Hsel). }
  intros e Hin. unfold show_risk_dashboard.
  eapply bind_in_r; [reflexivity |].
  eapply bind_in_r; [rewrite E; reflexivity |]. cbn [fst snd].
  eapply bind_in_r.
  { instantiate (1 := tt). destruct missing; reflexivity. }
  rewrite He. fold (returns_of price_df).
  eapply bind_in_r; [rewrite Hsel; reflexivity |].
  eapply bind_in_r; [exact H95 |].
  eapply bind_in_r; [exact H99 |].
  rewrite <- Hvol.
  destruct (show_tabs libm_pow gauss (returns_of price_df)
                      (valid_rows df_portfolio (returns_of price_df))
                      (weights_of (valid_rows df_portfolio (returns_of price_df)))
                      vol v95 v99) as [tt' [[] | e']] eqn:Et; cbn [fst] in Hin.
  - cbn [bind ret]. cbn [fst]. apply in_or_app. now left.
  - cbn [bind]. exact Hin.
Qed.

(** A run on binary64 whose price frame is not empty and leaves a
    return row returns the three figures. *)
Lemma dashboard_returns_figures
      (yf : string -> fetch float) (libm_pow : float -> nat -> result float)
      (gauss : nat -> nat -> nat -> float) (p : TSeries float)
      t0 price_df missing :
  get_price_history yf (map fst p) = (t0, Ok (price_df, missing)) ->
  df_empty price_df = false -> df_index (returns_of price_df) <> [] ->
  exists vol v95 v99,
    snd (show_risk_dashboard yf libm_pow gauss p) = Ok (Some (vol, v95, v99)).
Proof.
  intros E He Hr.
  destruct (dashboard_outcome yf libm_pow gauss p E He) as (sel & Es & ->).
  apply select_columns in Es. destruct Es as (_ & Ei & _).
  pose proof (dot_length sel (weights_of (valid_rows p (returns_of price_df)))) as Hl.
  rewrite Ei in Hl. destruct (dot sel _).
  - destruct (df_index (returns_of price_df)); [congruence | discriminate].
  - eauto.
Qed.

(** The events of the projection tab are events of the tabs. *)
Lemma show_tabs_shows_projections {F} `{PyNum F}
      (libm_pow : F -> nat -> result F) (gauss : nat -> nat -> nat -> F)
      (returns sel : DataFrame F) (df_valid weights vol : TSeries F) (v95 v99 : F)
      (e : event F) :
  select returns (map fst weights) = Ok sel ->
  In e (fst (show_projections libm_pow gauss (nansum (map snd df_valid)) (of_Z 0)
                              (mul (nanmean (map snd vol)) (of_Z 100)))) ->
  In e (fst (show_tabs libm_pow gauss returns df_valid weights vol v95 v99)).
Proof.
  intros Es Hin. unfold show_tabs. rewrite Es.
  do 11 (eapply bind_in_r; [reflexivity |]). exact Hin.
Qed.

(** With the rate 0 the fixed-rate table is shown, whatever the
    simulations do afterwards. *)
Lemma show_projections_shows_table
      (libm_pow : float -> nat -> result float) (gauss : nat -> nat -> nat -> float)
      (V vol : float) :
  In (StProjection (map (fun y => (y, V)) YEARS))
     (fst (show_projections libm_pow gauss V (of_Z 0) vol))
  /\ In (StMarkdown "Rendement annuel moyen, Volatilite" [of_Z 0; vol])
        (fst (show_projections libm_pow gauss V (of_Z 0) vol)).
Proof.
  unfold show_projections. rewrite proj_moy_zero_rate. split.
  - do 5 (eapply bind_in_r; [reflexivity |]). apply emit_bind_in.
  - find_event.
Qed.

(** What the projection tab can show with the rate 0. *)
Lemma show_projections_events
      (libm_pow : float -> nat -> result float) (gauss : nat -> nat -> nat -> float)
      (V vol : float) (e : event float) :
  In e (fst (show_projections libm_pow gauss V (of_Z 0) vol)) ->
  (forall r v, e = StMarkdown "Rendement annuel moyen, Volatilite" [r; v] -> r = 0%float)
  /\ (forall rows, e = StProjection rows -> rows = map (fun y => (y, V)) YEARS).
Proof.
  unfold show_projections. rewrite proj_moy_zero_rate. intros Hin.
  trace_inv Hin; subst; split;
    try (intros r v Heq); try (intros rows' Heq); try discriminate Heq.
  - injection Heq as <- _. reflexivity.
  - cbn in Ha3. injection Ha3 as <-. now injection Heq as <-.
Qed.




(** X29.  What a successful run shows is what it returns: the tab of
    the key indicators shows the mean of the returned volatility series
    and the two returned VaR figures, each times 100, its count of
    assets is the number of entries of the returned volatility series,
    and the correlation is computed on the tickers of that series. *)
Theorem X29_indicators_shown_are_returned {F} `{PyNum F}
        (yf : string -> fetch F) (libm_pow : F -> nat -> result F)
        (gauss : nat -> nat -> nat -> F) (df_portfolio vol : TSeries F) (v95 v99 : F) :
  snd (show_risk_dashboard yf libm_pow gauss df_portfolio) = Ok (Some (vol, v95, v99)) ->
  let trace := fst (show_risk_dashboard yf libm_pow gauss df_portfolio) in
  In (StMetric "Volatilite Moyenne" (mul (nanmean (map snd vol)) (of_Z 100))) trace
  /\ In (StMetric "VaR 95%" (mul v95 (of_Z 100))) trace
  /\ In (StMetric "VaR 99%" (mul v99 (of_Z 100))) trace
  /\ In (StCount "Nb Actifs" (List.length vol)) trace
  /\ In (CalcCorr (map fst vol)) trace.
Proof.
  intros Hok trace.
  destruct (dashboard_shows_tabs _ _ _ _ Hok) as (price_df & missing & _ & Hidx & Hshow).
  cbv zeta in Hidx, Hshow.
  set (returns := returns_of price_df) in *.
  set (df_valid := valid_rows df_portfolio returns) in *.
  assert (Hlen : List.length df_valid = List.length vol).
  { apply (f_equal (@List.length string)) in Hidx.
    rewrite weights_of_index, !length_map in Hidx. congruence. }
  assert (Hsel : exists sel, select returns (map fst (weights_of df_valid)) = Ok sel
                             /\ columns sel = map fst vol).
  { eexists. split; [apply select_aligned; apply valid_rows_aligned |].
    unfold columns. cbn [df_cols]. rewrite map_map. cbn [fst].
    rewrite map_id. now rewrite Hidx. }
  destruct Hsel as (sel & Hsel & Hcols).
  unfold trace.
  repeat split; apply Hshow; unfold show_tabs; rewrite Hsel, <- ?Hcols, <- ?Hlen;
    find_event.
Qed.

Lemma X29_indicators_shown_are_returned_witness :
  exists vol v95 v99,
    snd (show_risk_dashboard Sample.yf Sample.libm_pow Sample.gauss Sample.portfolio_AB) = Ok (Some (vol, v95, v99))
    /\ In (StCount "Nb Actifs" 2)
          (fst (show_risk_dashboard Sample.yf Sample.libm_pow Sample.gauss Sample.portfolio_AB)).
Proof.
  pose (r := snd (show_risk_dashboard Sample.yf Sample.libm_pow Sample.gauss Sample.portfolio_AB)).
  assert (Er : snd (show_risk_dashboard Sample.yf Sample.libm_pow Sample.gauss Sample.portfolio_AB) = r)
    by reflexivity.
  vm_compute in r. unfold r in Er. clear r.
  eexists _, _, _. split; [exact Er |].
  exact (proj1 (proj2 (proj2 (proj2 (X29_indicators_shown_are_returned _ _ _ _ Er))))).
Defined.

(* ----------------------------------------------------------------- *)
(** ** From the file to the dashboard *)

(** X30.  The tickers that [main] hands to the risk dashboard: when the
    file loads, they are the first fields of its non-blank lines, as
    written (the text before the first ["/"] of the stripped line), in
    file order and with their repetitions, whatever the current prices. *)
Theorem X30_tickers_of_the_file {F} `{PyNum F}
        (py_float price : string -> option F) (lines : list string)
        (rows : list (holding F)) :
  lire_portefeuille py_float lines = Ok rows ->
  map fst (df_portfolio_of (calculs_financiers price rows))
  = map (fun line => hd EmptyString (split_on "/" line)) (non_blank_lines lines).
Proof.
  intros Hok. rewrite lire_portefeuille_rmap in Hok. apply rmap_ok in Hok.
  unfold df_portfolio_of, calculs_financiers. rewrite !map_map. cbn [fst v_holding].
  induction Hok as [| line row ls rs Hrow _ IH]; [reflexivity |].
  cbn [map]. rewrite IH. f_equal.
  apply parse_line_fields in Hrow.
  destruct Hrow as (t & p & q & more & P & Q & D & Es & _ & _ & _ & ->).
  rewrite Es. reflexivity.
Qed.

Lemma X30_tickers_of_the_file_witness :
  map fst (df_portfolio_of
             (calculs_financiers (fun _ => Some 180%float)
                [ {| h_ticker := "AAPL"; h_prix := 150%float;
                     h_quantite := 10%float; h_dividendes := 25%float |} ]))
  = map (fun line => hd EmptyString (split_on "/" line)) (non_blank_lines [line_AAPL]).
Proof.
  apply (@X30_tickers_of_the_file float _ (@Decimal.parse float _)).
  reflexivity.
Defined.
